(** * Address enrichment pipeline of [webb.py]: model and properties

    A shallow embedding of the pure and stateful parts of [src/webb.py]
    (category normalisation, the SQLite address cache, the address
    resolver, the region classifier and [filter_and_enrich]) together with
    the properties stated about them.

    Conventions.
    - A Python [str] is a list of Unicode code points ([str := list N]).
      Literals are written [U "..."], the UTF-8 decoding of a Rocq string.
    - The outside world (the SQLite file, the search engine, the clock) is a
      record [world] threaded through a small state monad [M]; what the
      program cannot control (store faults, pages served) is an [env].
    - Python exceptions of library calls are a value [Raised]; the
      [try/except] blocks of the source are written out. *)

From Stdlib Require Import ZArith NArith Lia List Bool Ascii String.
From stdpp Require Import base option list gmap sets.

#[local] Set Warnings "-clear-no-such-hyp".

Local Open Scope N_scope.

(** ** Python strings as code points *)

Module Py.

Definition str : Type := list N.

Definition bytes_of (s : string) : list N :=
  List.map N_of_ascii (list_ascii_of_string s).

(** UTF-8 decoding of well-formed input (used for literals only). *)
Fixpoint utf8 (bs : list N) : str :=
  match bs with
  | [] => []
  | b0 :: r0 =>
      if b0 <? 128 then b0 :: utf8 r0
      else if b0 <? 224 then
        match r0 with
        | b1 :: r1 => ((b0 - 192) * 64 + (b1 - 128)) :: utf8 r1
        | [] => [b0]
        end
      else if b0 <? 240 then
        match r0 with
        | b1 :: b2 :: r2 =>
            ((b0 - 224) * 4096 + (b1 - 128) * 64 + (b2 - 128)) :: utf8 r2
        | _ => [b0]
        end
      else
        match r0 with
        | b1 :: b2 :: b3 :: r3 =>
            ((b0 - 240) * 262144 + (b1 - 128) * 4096 + (b2 - 128) * 64
             + (b3 - 128)) :: utf8 r3
        | _ => [b0]
        end
  end.

Definition U (s : string) : str := utf8 (bytes_of s).

(** Truthiness of a string: [bool(s)], i.e. [s] is not empty. *)
Definition truthy (s : str) : bool :=
  match s with [] => false | _ :: _ => true end.

Definition eqb (a b : str) : bool := bool_decide (a = b).

(** [x or y] on strings. *)
Definition or_else (x y : str) : str := if truthy x then x else y.

(** *** Character tables

    [isspace] is CPython's [Py_UNICODE_ISSPACE], the set used by
    [str.strip()] and by [\s] in [re].  [tolower] is the one-to-one
    lower-case mapping used by [re.IGNORECASE]; [lower1] is the full mapping
    of [str.lower()].  Both are given on ASCII and on the two code points
    outside ASCII whose lower case reaches ASCII (U+212A KELVIN SIGN and
    U+0130); every other code point is left as it is, which is exact for
    Hangul and for the digits and punctuation of the tables below.
    [isalnum] (for [\w] and [\b]) is CPython's [Py_UNICODE_ISALNUM], the
    test of [str.isalnum] on one character, on all of Unicode: the 133547
    code points of [ALNUM_RANGES], the table of the character database of
    Unicode 14.0 (CPython 3.11) as closed intervals in increasing order. *)

Definition isspace (c : N) : bool :=
  ((9 <=? c) && (c <=? 13)) || ((28 <=? c) && (c <=? 32))
  || (c =? 133) || (c =? 160) || (c =? 5760)
  || ((8192 <=? c) && (c <=? 8202))
  || (c =? 8232) || (c =? 8233) || (c =? 8239) || (c =? 8287)
  || (c =? 12288).

Definition isupper_ascii (c : N) : bool := (65 <=? c) && (c <=? 90).

Definition tolower (c : N) : N :=
  if isupper_ascii c then c + 32
  else if c =? 8490 then 107
  else if c =? 304 then 105
  else c.

Definition lower1 (c : N) : list N :=
  if c =? 304 then [105; 775] else [tolower c].

Definition lower (s : str) : str := flat_map lower1 s.

Definition ALNUM_RANGES : list (N * N) :=
  [ (48, 57); (65, 90); (97, 122); (170, 170); (178, 179); (181, 181);
    (185, 186); (188, 190); (192, 214); (216, 246); (248, 705); (710, 721);
    (736, 740); (748, 748); (750, 750); (880, 884); (886, 887); (890, 893);
    (895, 895); (902, 902); (904, 906); (908, 908); (910, 929); (931, 1013);
    (1015, 1153); (1162, 1327); (1329, 1366); (1369, 1369); (1376, 1416);
    (1488, 1514); (1519, 1522); (1568, 1610); (1632, 1641); (1646, 1647);
    (1649, 1747); (1749, 1749); (1765, 1766); (1774, 1788); (1791, 1791);
    (1808, 1808); (1810, 1839); (1869, 1957); (1969, 1969); (1984, 2026);
    (2036, 2037); (2042, 2042); (2048, 2069); (2074, 2074); (2084, 2084);
    (2088, 2088); (2112, 2136); (2144, 2154); (2160, 2183); (2185, 2190);
    (2208, 2249); (2308, 2361); (2365, 2365); (2384, 2384); (2392, 2401);
    (2406, 2415); (2417, 2432); (2437, 2444); (2447, 2448); (2451, 2472);
    (2474, 2480); (2482, 2482); (2486, 2489); (2493, 2493); (2510, 2510);
    (2524, 2525); (2527, 2529); (2534, 2545); (2548, 2553); (2556, 2556);
    (2565, 2570); (2575, 2576); (2579, 2600); (2602, 2608); (2610, 2611);
    (2613, 2614); (2616, 2617); (2649, 2652); (2654, 2654); (2662, 2671);
    (2674, 2676); (2693, 2701); (2703, 2705); (2707, 2728); (2730, 2736);
    (2738, 2739); (2741, 2745); (2749, 2749); (2768, 2768); (2784, 2785);
    (2790, 2799); (2809, 2809); (2821, 2828); (2831, 2832); (2835, 2856);
    (2858, 2864); (2866, 2867); (2869, 2873); (2877, 2877); (2908, 2909);
    (2911, 2913); (2918, 2927); (2929, 2935); (2947, 2947); (2949, 2954);
    (2958, 2960); (2962, 2965); (2969, 2970); (2972, 2972); (2974, 2975);
    (2979, 2980); (2984, 2986); (2990, 3001); (3024, 3024); (3046, 3058);
    (3077, 3084); (3086, 3088); (3090, 3112); (3114, 3129); (3133, 3133);
    (3160, 3162); (3165, 3165); (3168, 3169); (3174, 3183); (3192, 3198);
    (3200, 3200); (3205, 3212); (3214, 3216); (3218, 3240); (3242, 3251);
    (3253, 3257); (3261, 3261); (3293, 3294); (3296, 3297); (3302, 3311);
    (3313, 3314); (3332, 3340); (3342, 3344); (3346, 3386); (3389, 3389);
    (3406, 3406); (3412, 3414); (3416, 3425); (3430, 3448); (3450, 3455);
    (3461, 3478); (3482, 3505); (3507, 3515); (3517, 3517); (3520, 3526);
    (3558, 3567); (3585, 3632); (3634, 3635); (3648, 3654); (3664, 3673);
    (3713, 3714); (3716, 3716); (3718, 3722); (3724, 3747); (3749, 3749);
    (3751, 3760); (3762, 3763); (3773, 3773); (3776, 3780); (3782, 3782);
    (3792, 3801); (3804, 3807); (3840, 3840); (3872, 3891); (3904, 3911);
    (3913, 3948); (3976, 3980); (4096, 4138); (4159, 4169); (4176, 4181);
    (4186, 4189); (4193, 4193); (4197, 4198); (4206, 4208); (4213, 4225);
    (4238, 4238); (4240, 4249); (4256, 4293); (4295, 4295); (4301, 4301);
    (4304, 4346); (4348, 4680); (4682, 4685); (4688, 4694); (4696, 4696);
    (4698, 4701); (4704, 4744); (4746, 4749); (4752, 4784); (4786, 4789);
    (4792, 4798); (4800, 4800); (4802, 4805); (4808, 4822); (4824, 4880);
    (4882, 4885); (4888, 4954); (4969, 4988); (4992, 5007); (5024, 5109);
    (5112, 5117); (5121, 5740); (5743, 5759); (5761, 5786); (5792, 5866);
    (5870, 5880); (5888, 5905); (5919, 5937); (5952, 5969); (5984, 5996);
    (5998, 6000); (6016, 6067); (6103, 6103); (6108, 6108); (6112, 6121);
    (6128, 6137); (6160, 6169); (6176, 6264); (6272, 6276); (6279, 6312);
    (6314, 6314); (6320, 6389); (6400, 6430); (6470, 6509); (6512, 6516);
    (6528, 6571); (6576, 6601); (6608, 6618); (6656, 6678); (6688, 6740);
    (6784, 6793); (6800, 6809); (6823, 6823); (6917, 6963); (6981, 6988);
    (6992, 7001); (7043, 7072); (7086, 7141); (7168, 7203); (7232, 7241);
    (7245, 7293); (7296, 7304); (7312, 7354); (7357, 7359); (7401, 7404);
    (7406, 7411); (7413, 7414); (7418, 7418); (7424, 7615); (7680, 7957);
    (7960, 7965); (7968, 8005); (8008, 8013); (8016, 8023); (8025, 8025);
    (8027, 8027); (8029, 8029); (8031, 8061); (8064, 8116); (8118, 8124);
    (8126, 8126); (8130, 8132); (8134, 8140); (8144, 8147); (8150, 8155);
    (8160, 8172); (8178, 8180); (8182, 8188); (8304, 8305); (8308, 8313);
    (8319, 8329); (8336, 8348); (8450, 8450); (8455, 8455); (8458, 8467);
    (8469, 8469); (8473, 8477); (8484, 8484); (8486, 8486); (8488, 8488);
    (8490, 8493); (8495, 8505); (8508, 8511); (8517, 8521); (8526, 8526);
    (8528, 8585); (9312, 9371); (9450, 9471); (10102, 10131); (11264, 11492);
    (11499, 11502); (11506, 11507); (11517, 11517); (11520, 11557);
    (11559, 11559); (11565, 11565); (11568, 11623); (11631, 11631);
    (11648, 11670); (11680, 11686); (11688, 11694); (11696, 11702);
    (11704, 11710); (11712, 11718); (11720, 11726); (11728, 11734);
    (11736, 11742); (11823, 11823); (12293, 12295); (12321, 12329);
    (12337, 12341); (12344, 12348); (12353, 12438); (12445, 12447);
    (12449, 12538); (12540, 12543); (12549, 12591); (12593, 12686);
    (12690, 12693); (12704, 12735); (12784, 12799); (12832, 12841);
    (12872, 12879); (12881, 12895); (12928, 12937); (12977, 12991);
    (13312, 19903); (19968, 42124); (42192, 42237); (42240, 42508);
    (42512, 42539); (42560, 42606); (42623, 42653); (42656, 42735);
    (42775, 42783); (42786, 42888); (42891, 42954); (42960, 42961);
    (42963, 42963); (42965, 42969); (42994, 43009); (43011, 43013);
    (43015, 43018); (43020, 43042); (43056, 43061); (43072, 43123);
    (43138, 43187); (43216, 43225); (43250, 43255); (43259, 43259);
    (43261, 43262); (43264, 43301); (43312, 43334); (43360, 43388);
    (43396, 43442); (43471, 43481); (43488, 43492); (43494, 43518);
    (43520, 43560); (43584, 43586); (43588, 43595); (43600, 43609);
    (43616, 43638); (43642, 43642); (43646, 43695); (43697, 43697);
    (43701, 43702); (43705, 43709); (43712, 43712); (43714, 43714);
    (43739, 43741); (43744, 43754); (43762, 43764); (43777, 43782);
    (43785, 43790); (43793, 43798); (43808, 43814); (43816, 43822);
    (43824, 43866); (43868, 43881); (43888, 44002); (44016, 44025);
    (44032, 55203); (55216, 55238); (55243, 55291); (63744, 64109);
    (64112, 64217); (64256, 64262); (64275, 64279); (64285, 64285);
    (64287, 64296); (64298, 64310); (64312, 64316); (64318, 64318);
    (64320, 64321); (64323, 64324); (64326, 64433); (64467, 64829);
    (64848, 64911); (64914, 64967); (65008, 65019); (65136, 65140);
    (65142, 65276); (65296, 65305); (65313, 65338); (65345, 65370);
    (65382, 65470); (65474, 65479); (65482, 65487); (65490, 65495);
    (65498, 65500); (65536, 65547); (65549, 65574); (65576, 65594);
    (65596, 65597); (65599, 65613); (65616, 65629); (65664, 65786);
    (65799, 65843); (65856, 65912); (65930, 65931); (66176, 66204);
    (66208, 66256); (66273, 66299); (66304, 66339); (66349, 66378);
    (66384, 66421); (66432, 66461); (66464, 66499); (66504, 66511);
    (66513, 66517); (66560, 66717); (66720, 66729); (66736, 66771);
    (66776, 66811); (66816, 66855); (66864, 66915); (66928, 66938);
    (66940, 66954); (66956, 66962); (66964, 66965); (66967, 66977);
    (66979, 66993); (66995, 67001); (67003, 67004); (67072, 67382);
    (67392, 67413); (67424, 67431); (67456, 67461); (67463, 67504);
    (67506, 67514); (67584, 67589); (67592, 67592); (67594, 67637);
    (67639, 67640); (67644, 67644); (67647, 67669); (67672, 67702);
    (67705, 67742); (67751, 67759); (67808, 67826); (67828, 67829);
    (67835, 67867); (67872, 67897); (67968, 68023); (68028, 68047);
    (68050, 68096); (68112, 68115); (68117, 68119); (68121, 68149);
    (68160, 68168); (68192, 68222); (68224, 68255); (68288, 68295);
    (68297, 68324); (68331, 68335); (68352, 68405); (68416, 68437);
    (68440, 68466); (68472, 68497); (68521, 68527); (68608, 68680);
    (68736, 68786); (68800, 68850); (68858, 68899); (68912, 68921);
    (69216, 69246); (69248, 69289); (69296, 69297); (69376, 69415);
    (69424, 69445); (69457, 69460); (69488, 69505); (69552, 69579);
    (69600, 69622); (69635, 69687); (69714, 69743); (69745, 69746);
    (69749, 69749); (69763, 69807); (69840, 69864); (69872, 69881);
    (69891, 69926); (69942, 69951); (69956, 69956); (69959, 69959);
    (69968, 70002); (70006, 70006); (70019, 70066); (70081, 70084);
    (70096, 70106); (70108, 70108); (70113, 70132); (70144, 70161);
    (70163, 70187); (70272, 70278); (70280, 70280); (70282, 70285);
    (70287, 70301); (70303, 70312); (70320, 70366); (70384, 70393);
    (70405, 70412); (70415, 70416); (70419, 70440); (70442, 70448);
    (70450, 70451); (70453, 70457); (70461, 70461); (70480, 70480);
    (70493, 70497); (70656, 70708); (70727, 70730); (70736, 70745);
    (70751, 70753); (70784, 70831); (70852, 70853); (70855, 70855);
    (70864, 70873); (71040, 71086); (71128, 71131); (71168, 71215);
    (71236, 71236); (71248, 71257); (71296, 71338); (71352, 71352);
    (71360, 71369); (71424, 71450); (71472, 71483); (71488, 71494);
    (71680, 71723); (71840, 71922); (71935, 71942); (71945, 71945);
    (71948, 71955); (71957, 71958); (71960, 71983); (71999, 71999);
    (72001, 72001); (72016, 72025); (72096, 72103); (72106, 72144);
    (72161, 72161); (72163, 72163); (72192, 72192); (72203, 72242);
    (72250, 72250); (72272, 72272); (72284, 72329); (72349, 72349);
    (72368, 72440); (72704, 72712); (72714, 72750); (72768, 72768);
    (72784, 72812); (72818, 72847); (72960, 72966); (72968, 72969);
    (72971, 73008); (73030, 73030); (73040, 73049); (73056, 73061);
    (73063, 73064); (73066, 73097); (73112, 73112); (73120, 73129);
    (73440, 73458); (73648, 73648); (73664, 73684); (73728, 74649);
    (74752, 74862); (74880, 75075); (77712, 77808); (77824, 78894);
    (82944, 83526); (92160, 92728); (92736, 92766); (92768, 92777);
    (92784, 92862); (92864, 92873); (92880, 92909); (92928, 92975);
    (92992, 92995); (93008, 93017); (93019, 93025); (93027, 93047);
    (93053, 93071); (93760, 93846); (93952, 94026); (94032, 94032);
    (94099, 94111); (94176, 94177); (94179, 94179); (94208, 100343);
    (100352, 101589); (101632, 101640); (110576, 110579); (110581, 110587);
    (110589, 110590); (110592, 110882); (110928, 110930); (110948, 110951);
    (110960, 111355); (113664, 113770); (113776, 113788); (113792, 113800);
    (113808, 113817); (119520, 119539); (119648, 119672); (119808, 119892);
    (119894, 119964); (119966, 119967); (119970, 119970); (119973, 119974);
    (119977, 119980); (119982, 119993); (119995, 119995); (119997, 120003);
    (120005, 120069); (120071, 120074); (120077, 120084); (120086, 120092);
    (120094, 120121); (120123, 120126); (120128, 120132); (120134, 120134);
    (120138, 120144); (120146, 120485); (120488, 120512); (120514, 120538);
    (120540, 120570); (120572, 120596); (120598, 120628); (120630, 120654);
    (120656, 120686); (120688, 120712); (120714, 120744); (120746, 120770);
    (120772, 120779); (120782, 120831); (122624, 122654); (123136, 123180);
    (123191, 123197); (123200, 123209); (123214, 123214); (123536, 123565);
    (123584, 123627); (123632, 123641); (124896, 124902); (124904, 124907);
    (124909, 124910); (124912, 124926); (124928, 125124); (125127, 125135);
    (125184, 125251); (125259, 125259); (125264, 125273); (126065, 126123);
    (126125, 126127); (126129, 126132); (126209, 126253); (126255, 126269);
    (126464, 126467); (126469, 126495); (126497, 126498); (126500, 126500);
    (126503, 126503); (126505, 126514); (126516, 126519); (126521, 126521);
    (126523, 126523); (126530, 126530); (126535, 126535); (126537, 126537);
    (126539, 126539); (126541, 126543); (126545, 126546); (126548, 126548);
    (126551, 126551); (126553, 126553); (126555, 126555); (126557, 126557);
    (126559, 126559); (126561, 126562); (126564, 126564); (126567, 126570);
    (126572, 126578); (126580, 126583); (126585, 126588); (126590, 126590);
    (126592, 126601); (126603, 126619); (126625, 126627); (126629, 126633);
    (126635, 126651); (127232, 127244); (130032, 130041); (131072, 173791);
    (173824, 177976); (177984, 178205); (178208, 183969); (183984, 191456);
    (194560, 195101); (196608, 201546) ].

Definition isalnum (c : N) : bool :=
  existsb (fun r => (fst r <=? c) && (c <=? snd r)) ALNUM_RANGES.

(** [\w]: alphanumeric or underscore. *)
Definition isword (c : N) : bool := isalnum c || (c =? 95).

(** *** [str.strip()] *)

Fixpoint lstrip (s : str) : str :=
  match s with
  | c :: r => if isspace c then lstrip r else s
  | [] => []
  end.

Definition rstrip (s : str) : str := rev (lstrip (rev s)).

Definition strip (s : str) : str := rstrip (lstrip s).

(** *** [needle in hay] *)

Fixpoint startswith (p s : str) : bool :=
  match p, s with
  | [], _ => true
  | a :: p', b :: s' => (a =? b) && startswith p' s'
  | _ :: _, [] => false
  end.

Fixpoint contains (needle hay : str) : bool :=
  startswith needle hay ||
  match hay with
  | [] => false
  | _ :: hay' => contains needle hay'
  end.

(** [a + b] *)
Definition cat (a b : str) : str := a ++ b.

End Py.

Import Py.

(** ** The fragment of [re] the program uses *)

Module Re.

Inductive regex : Type :=
| Eps                      (* the empty pattern *)
| Lit (c : N)              (* a literal character *)
| Dot                      (* .  : any character but a newline *)
| Space                    (* \s *)
| WordB                    (* \b *)
| Bol                      (* ^  *)
| Cat (r1 r2 : regex)
| Alt (r1 r2 : regex)
| Star (r : regex).

(** [\b] between the character before the position and the one after. *)
Definition boundary (prev next : option N) : bool :=
  let w o := match o with Some c => isword c | None => false end in
  xorb (w prev) (w next).

(** A character [x] of the text matches the literal [c] of a pattern
    under [re.IGNORECASE]: the lower cases agree, or the literal is an [i]
    and the character the dotless U+0131, which [re] treats as a case
    variant of [i].  This is exact for the letters of the patterns of the
    program. *)
Definition ieq (x c : N) : bool :=
  (tolower x =? tolower c) || ((tolower c =? 105) && (x =? 305)).

(** [m r prev s k]: [r] matches a prefix of [s] (preceded by [prev]) and
    the continuation [k] accepts what is left.  Matching is
    case-insensitive ([re.IGNORECASE]).  A starred pattern is iterated at
    most [length s] times, each iteration consuming input. *)
Fixpoint m (r : regex) (prev : option N) (s : str)
    (k : option N -> str -> bool) {struct r} : bool :=
  match r with
  | Eps => k prev s
  | Lit c =>
      match s with
      | x :: s' => ieq x c && k (Some x) s'
      | [] => false
      end
  | Dot =>
      match s with
      | x :: s' => negb (x =? 10) && k (Some x) s'
      | [] => false
      end
  | Space =>
      match s with
      | x :: s' => isspace x && k (Some x) s'
      | [] => false
      end
  | WordB => boundary prev (head s) && k prev s
  | Bol => match prev with None => k prev s | Some _ => false end
  | Cat r1 r2 => m r1 prev s (fun p' s' => m r2 p' s' k)
  | Alt r1 r2 => m r1 prev s k || m r2 prev s k
  | Star r1 =>
      (fix iter (n : nat) (p0 : option N) (s0 : str) {struct n} : bool :=
         k p0 s0 ||
         match n with
         | O => false
         | S n' =>
             m r1 p0 s0
               (fun p' s' =>
                  (length s' <? length s0)%nat && iter n' p' s')
         end) (length s) prev s
  end.

(** [re.search(r, s, re.IGNORECASE) is not None] *)
Fixpoint search_from (r : regex) (prev : option N) (s : str) : bool :=
  m r prev s (fun _ _ => true) ||
  match s with
  | [] => false
  | x :: s' => search_from r (Some x) s'
  end.

Definition search (r : regex) (s : str) : bool := search_from r None s.

(** A literal word. *)
Definition lit (s : str) : regex := fold_right (fun c r => Cat (Lit c) r) Eps s.

End Re.

(** ** Category normalisation *)

Definition THEISE_CAT_MAP : list (str * list str) :=
  [ (U "Integrated Device Manufacturer",
       [U "Integrated Device Manufacturer"; U "IDM"; U "종합반도체"]);
    (U "Foundry", [U "Foundry"; U "파운드리"]);
    (U "CAD", [U "CAD"; U "EDA"; U "설계도구"; U "설계 자동화"]);
    (U "CAD(해외기업 지사)", [U "CAD(해외기업 지사)"]);
    (U "Fabless", [U "Fabless"; U "팹리스"]);
    (U "Design house", [U "Design house"; U "디자인하우스"; U "Desing house"]);
    (U "IT기업", [U "IT기업"; U "IT"]);
    (U "SW", [U "SW"; U "소프트웨어"]);
    (U "기계제조및센서", [U "기계제조및센서"; U "기계제조"; U "센서"]);
    (U "반도체 유통", [U "반도체 유통"; U "유통"]);
    (U "부품제조", [U "부품제조"; U "부품"]);
    (U "제조업", [U "제조업"; U "Manufacturing"]);
    (U "해외기업 지사", [U "해외기업 지사"]);
    (U "해외기업 지사(유통)", [U "해외기업 지사(유통)"]);
    (U "해외기업(중국,유통)", [U "해외기업(중국,유통)"]) ].

(** The [for k, aliases in ...items()] loop of [_normalize_cat], over the
    entries still to visit. *)
Fixpoint normalize_in (tbl : list (str * list str)) (lab : str) : str :=
  match tbl with
  | [] => lab
  | (k, aliases) :: tbl' =>
      if Py.eqb lab k then k
      else if existsb (fun a => Py.eqb (lower a) (lower lab)) aliases then k
      else normalize_in tbl' lab
  end.

Definition _normalize_cat (label : str) : str :=
  let lab := strip (or_else label []) in
  normalize_in THEISE_CAT_MAP lab.

(** ** Name and address heuristics *)

Definition re_seq (rs : list Re.regex) : Re.regex :=
  fold_right Re.Cat Re.Eps rs.

Definition any_run : Re.regex := Re.Star Re.Dot.   (* .* *)

Definition _BRANCH_NAME_HINTS : list Re.regex :=
  [ re_seq [Re.WordB; Re.lit (U "코리아"); Re.WordB];           (* \b코리아\b *)
    re_seq [Re.WordB; Re.lit (U "Korea"); Re.WordB];            (* \bKorea\b *)
    re_seq [Re.Lit 40; any_run; Re.lit (U "Korea"); any_run; Re.Lit 41];
                                                             (* \(.*Korea.*\) *)
    re_seq [Re.Bol; Re.lit (U "한국"); Re.Space];               (* ^한국\s *)
    re_seq [Re.lit (U "㈜"); any_run; Re.lit (U "코리아")] ].    (* ㈜.*코리아 *)

Definition quick_is_korea_name (name : str) : bool :=
  let n := or_else name [] in
  existsb (fun pat => Re.search pat n) _BRANCH_NAME_HINTS.

Definition REGION_KEYWORDS : list (str * list str) :=
  [ (U "서울", [U "서울"; U "Seoul"]);
    (U "경기", [U "경기"; U "경기도"; U "Gyeonggi"; U "Gyeonggi-do";
                U "Seongnam"; U "Bundang"; U "Pangyo"; U "Suwon"; U "Yongin";
                U "Hwaseong"; U "Giheung"; U "Pyeongtaek"; U "Icheon";
                U "Ansan"]);
    (U "인천", [U "인천"; U "Incheon"; U "Songdo"]);
    (U "부산", [U "부산"; U "Busan"]);
    (U "대구", [U "대구"; U "Daegu"]);
    (U "대전", [U "대전"; U "Daejeon"]);
    (U "광주", [U "광주"; U "Gwangju"]);
    (U "울산", [U "울산"; U "Ulsan"]);
    (U "세종", [U "세종"; U "Sejong"]);
    (U "충북", [U "충북"; U "Chungbuk"; U "Chungcheongbuk-do"; U "Cheongju"]);
    (U "충남", [U "충남"; U "Chungnam"; U "Chungcheongnam-do"; U "Asan";
                U "Cheonan"; U "Seosan"; U "Dangjin"]);
    (U "전북", [U "전북"; U "Jeonbuk"; U "Jeollabuk-do"; U "Jeonju";
                U "Gunsan"; U "Iksan"]);
    (U "전남", [U "전남"; U "Jeonnam"; U "Jeollanam-do"; U "Gwangyang";
                U "Yeosu"; U "Suncheon"]);
    (U "경북", [U "경북"; U "Gyeongbuk"; U "Gyeongsangbuk-do"; U "Gumi";
                U "Pohang"]);
    (U "경남", [U "경남"; U "Gyeongnam"; U "Gyeongsangnam-do"; U "Changwon";
                U "Gimhae"]);
    (U "제주", [U "제주"; U "Jeju"]) ].

(** The nested loops of [normalize_region_from_address] over the entries
    still to visit; [a] is the lower-cased address. *)
Fixpoint region_in (tbl : list (str * list str)) (a : str) : str :=
  match tbl with
  | [] => []
  | (label, keys) :: tbl' =>
      if existsb (fun k => contains (lower k) a) keys then label
      else region_in tbl' a
  end.

Definition normalize_region_from_address (addr : str) : str :=
  let a := lower (or_else addr []) in
  region_in REGION_KEYWORDS a.

(** \b(Korea|Republic of Korea|대한민국)\b *)
Definition KOREA_WORD : Re.regex :=
  re_seq [ Re.WordB;
        Re.Alt (Re.lit (U "Korea"))
          (Re.Alt (Re.lit (U "Republic of Korea")) (Re.lit (U "대한민국")));
        Re.WordB ].

Definition is_korea_address (addr : str) : bool :=
  if negb (truthy addr) then false
  else if truthy (normalize_region_from_address addr) then true
  else if Re.search KOREA_WORD addr then true
  else false.

Definition is_foreign_branch_in_korea (company_name address : str) : bool :=
  quick_is_korea_name company_name && is_korea_address address.

Definition OVERSEAS : str := U "해외".
Definition SEOUL : str := U "서울".

(** ** [_txt]: normalising scraped text *)

(** After a [<]: the text that follows the closing [>] when [<[^>]+>]
    matches here, i.e. at least one character other than [>] and then [>]. *)
Fixpoint tag_rest (seen_one : bool) (s : str) : option str :=
  match s with
  | [] => None
  | c :: r => if c =? 62 then (if seen_one then Some r else None)
              else tag_rest true r
  end.

(** [re.sub(r"<[^>]+>", " ", x)]; every step consumes input, so [length x]
    steps are enough. *)
Fixpoint sub_tags_n (n : nat) (s : str) : str :=
  match n, s with
  | S n', c :: r =>
      if c =? 60 then
        match tag_rest false r with
        | Some rest => 32 :: sub_tags_n n' rest
        | None => c :: sub_tags_n n' r
        end
      else c :: sub_tags_n n' r
  | _, _ => []
  end.

Definition sub_tags (s : str) : str := sub_tags_n (length s) s.

(** [re.sub(r"\s+", " ", x)] *)
Fixpoint sub_spaces (in_run : bool) (s : str) : str :=
  match s with
  | [] => []
  | c :: r =>
      if isspace c then (if in_run then sub_spaces true r
                         else 32 :: sub_spaces true r)
      else c :: sub_spaces false r
  end.

(** ** The world outside the program *)

Inductive db_op : Type :=
| Select (name : str)
| InsertOrReplace (name address : str) (ts : Z).

(** [db]: the rows of table [addr_cache], name to (address, ts).
    [db_log]: every statement sent to the store, oldest first.
    [net_log]: the [q] parameter of every request made by [_fetch].
    [resolve_log]: the names handed to [_resolve_address_for_item] with the
    [do_lookup] flag (bookkeeping only, the program never reads it). *)
Record world : Type := World {
  db : gmap str (str * Z);
  db_log : list db_op;
  net_log : list str;
  resolve_log : list (str * bool)
}.

(** What [requests.get] gives back. *)
Inductive fetched : Type :=
| FetchRaises
| Response (status_code : Z) (text : str).

(** [db_fault n]: the [n]-th statement sent to the store raises
    (file locked, unreadable, disk full, ...).
    [unix_time n]: [int(time.time())] at the [n]-th statement.
    [google q n]: the answer to query [q] sent as the [n]-th request.
    [select_address], [select_candidate]: the text
    ([get_text(" ", strip=True)]) of the first node of a page matching
    ['[data-attrid*=":address"]'], resp.
    ["span.LrzXr, div.Io6YTe, div.wDYxhc span"], if there is one.
    [html_unescape]: [html.unescape].
    Parsing a page that was received does not raise. *)
Record env : Type := Env {
  db_fault : nat -> bool;
  unix_time : nat -> Z;
  google : str -> nat -> fetched;
  select_address : str -> option str;
  select_candidate : str -> option str;
  html_unescape : str -> str
}.

(** ** State monad over the world *)

Definition M (A : Type) : Type := world -> A * world.

Definition ret {A : Type} (a : A) : M A := fun w => (a, w).

Definition bind {A B : Type} (c : M A) (f : A -> M B) : M B :=
  fun w => let (a, w') := c w in f a w'.

Notation "'let*' x ':=' c 'in' k" := (bind c (fun x => k))
  (at level 10, x name, c at level 100, k at level 200).
Notation "'let*' ' p ':=' c 'in' k" := (bind c (fun x => let 'p := x in k))
  (at level 10, p pattern, c at level 100, k at level 200).

(** The result of a library call that may raise. *)
Inductive result (A : Type) : Type :=
| Returned (a : A)
| Raised.
Arguments Returned {A} a.
Arguments Raised {A}.

(** ** Report rows *)

(** A directory row [{"type": .., "name": .., "url": ..}]. *)
Record row : Type := Row {
  row_type : str;
  row_name : str;
  row_url : str
}.

(** A report row; the fields are the keys "회사 유형", "회사명", "지역",
    "주소(구글)", "지사구분" and "링크". *)
Record report_row : Type := Report {
  rep_type : str;
  rep_name : str;
  rep_region : str;
  rep_address : str;
  rep_branch : str;
  rep_url : str
}.

(** [(region_final, address, branch_kr)] *)
Definition triple : Type := (str * str * bool)%type.

Definition BRANCH_TAG : str := U "외국계 지사(한국)".

Section Program.

Variable E : env.

Definition _txt (x : str) : str :=
  if negb (truthy x) then []
  else
    let x := html_unescape E x in
    let x := sub_tags x in
    strip (sub_spaces false x).

(** *** The address cache *)

(** [SELECT address FROM addr_cache WHERE name=?] and [fetchone()]. *)
Definition sql_select (name : str) : M (result (option str)) :=
  fun w =>
    let w' := World (db w) (db_log w ++ [Select name]) (net_log w)
                    (resolve_log w) in
    if db_fault E (length (db_log w)) then (Raised, w')
    else (Returned (fst <$> db w !! name), w').

(** [INSERT OR REPLACE INTO addr_cache(name, address, ts) VALUES(?,?,?)]
    and [commit()]; a statement that raises leaves the table as it was. *)
Definition sql_insert_or_replace (name address : str) : M (result unit) :=
  fun w =>
    let ts := unix_time E (length (db_log w)) in
    let log' := db_log w ++ [InsertOrReplace name address ts] in
    if db_fault E (length (db_log w))
    then (Raised, World (db w) log' (net_log w) (resolve_log w))
    else (Returned tt,
          World (<[name := (address, ts)]> (db w)) log' (net_log w)
                (resolve_log w)).

Definition cache_get (name : str) : M (option str) :=
  let* r := sql_select name in
  match r with
  | Returned row0 => ret row0            (* row[0] if row else None *)
  | Raised => ret None                   (* except Exception: return None *)
  end.

Definition cache_put (name address : str) : M unit :=
  let* r := sql_insert_or_replace name (or_else address []) in
  match r with
  | Returned _ => ret tt
  | Raised => ret tt                     (* except Exception: pass *)
  end.

(** *** The resolver *)

Definition _fetch (q : str) : M fetched :=
  fun w =>
    (google E q (length (net_log w)),
     World (db w) (db_log w) (net_log w ++ [q]) (resolve_log w)).

(** The [for q in queries] loop of [get_company_address_from_google];
    [address] is the local variable of that name. *)
Fixpoint query_loop (queries : list str) (address : str) : M str :=
  match queries with
  | [] => ret address
  | q :: qs =>
      let* r := _fetch q in
      match r with
      | FetchRaises => query_loop qs address          (* except: pass *)
      | Response status_code text =>
          if negb (status_code =? 200)%Z || negb (truthy text)
          then query_loop qs address                  (* continue *)
          else
            let candidate (address : str) : M str :=
              match select_candidate E text with
              | Some cand =>
                  let address := _txt cand in
                  if truthy address then ret address  (* break *)
                  else query_loop qs address
              | None => query_loop qs address
              end in
            match select_address E text with
            | Some node =>
                let address := _txt node in
                if truthy address then ret address    (* break *)
                else candidate address
            | None => candidate address
            end
      end
  end.

Definition get_company_address_from_google (name : str) : M str :=
  if negb (truthy name) then ret []
  else
    let* hit := cache_get name in
    match hit with
    | Some a => ret a
    | None =>
        let queries := [ cat name (U " 주소");
                         cat name (U " Korea address") ] in
        let* address := query_loop queries [] in
        let* _ := cache_put name address in
        ret address
    end.

(** *** Resolving one item *)

(** Bookkeeping: a call of [_resolve_address_for_item] is recorded in
    [resolve_log].  The source has no counterpart; nothing reads the log. *)
Definition note_resolve (name : str) (do_lookup : bool) : M unit :=
  fun w =>
    (tt, World (db w) (db_log w) (net_log w)
               (resolve_log w ++ [(name, do_lookup)])).

Definition _resolve_address_for_item (item : row) (do_lookup : bool)
  : M triple :=
  let name := row_name item in
  let* _ := note_resolve name do_lookup in
  if negb do_lookup then
    let* hit := cache_get name in
    let addr := match hit with Some a => or_else a [] | None => [] end in
    if negb (truthy addr) && quick_is_korea_name name
    then ret (if contains SEOUL name then SEOUL else [], [], true)
    else ret ([], or_else addr [], false)
  else
    let* addr := get_company_address_from_google name in
    let region_final :=
      if is_korea_address addr then
        let region_label := normalize_region_from_address addr in
        if truthy region_label then region_label
        else if contains (U "Seoul") addr then SEOUL else []
      else OVERSEAS in
    let branch_kr := is_foreign_branch_in_korea name addr in
    ret (region_final, addr, branch_kr).

(** *** [filter_and_enrich] *)

(** [grouped.setdefault(t, []).append(r)] on an insertion-ordered dict. *)
Fixpoint setdefault_append (grouped : list (str * list row)) (t : str)
    (r : row) : list (str * list row) :=
  match grouped with
  | [] => [(t, [r])]
  | (k, arr) :: g' =>
      if Py.eqb k t then (k, arr ++ [r]) :: g'
      else (k, arr) :: setdefault_append g' t r
  end.

(** The first loop: rows grouped by normalised type, unwanted types
    skipped. *)
Fixpoint group_rows (wants : gset str) (rows : list row)
    (grouped : list (str * list row)) : list (str * list row) :=
  match rows with
  | [] => grouped
  | r :: rows' =>
      let t := _normalize_cat (row_type r) in
      if negb (bool_decide (wants = ∅)) && negb (bool_decide (t ∈ wants))
      then group_rows wants rows' grouped              (* continue *)
      else group_rows wants rows' (setdefault_append grouped t r)
  end.

(** The de-duplication loop; the result is what it appends to [uniq]. *)
Fixpoint uniq_loop (arr : list row) (seen : gset str) : list row :=
  match arr with
  | [] => []
  | r :: arr' =>
      let nm := strip (row_name r) in
      if truthy nm && negb (bool_decide (nm ∈ seen))
      then r :: uniq_loop arr' ({[nm]} ∪ seen)
      else uniq_loop arr' seen
  end.

(** What the cache branch computes from a cached address. *)
Definition classify_cached (name addr : str) : triple :=
  let reg_final :=
    if is_korea_address addr then
      let reg_lab := normalize_region_from_address addr in
      if truthy reg_lab then reg_lab else []
    else if truthy addr then OVERSEAS else [] in
  let branch_kr := is_foreign_branch_in_korea name addr in
  (reg_final, addr, branch_kr).

(** The loop that fills [prebuilt] and [to_resolve]. *)
Fixpoint split_cached (need_address_lookup : bool) (uniq : list row)
  : M (list (row * triple) * list row) :=
  match uniq with
  | [] => ret ([], [])
  | r :: uniq' =>
      let name := row_name r in
      let* cached := cache_get name in
      let* '(prebuilt, to_resolve) := split_cached need_address_lookup uniq' in
      match cached with
      | Some addr =>
          if negb need_address_lookup || truthy addr
          then ret ((r, classify_cached name addr) :: prebuilt, to_resolve)
          else ret (prebuilt, r :: to_resolve)
      | None => ret (prebuilt, r :: to_resolve)
      end
  end.

(** Filling [results_map].  With [do_lookup = true] this is the worker
    pool, its tasks run one after the other in submission order; a task
    cannot raise here, so the [except] branch of the collecting loop is
    never taken.  With [do_lookup = false] it is the plain loop. *)
Fixpoint resolve_each (do_lookup : bool) (to_resolve : list row)
    (results_map : gmap str triple) : M (gmap str triple) :=
  match to_resolve with
  | [] => ret results_map
  | r :: rest =>
      let* t := _resolve_address_for_item r do_lookup in
      resolve_each do_lookup rest (<[row_name r := t]> results_map)
  end.

Definition accept_region (regions_set : gset str) (region_final addr : str)
  : bool :=
  if bool_decide (regions_set = ∅) then true
  else if Py.eqb region_final OVERSEAS
       then bool_decide (OVERSEAS ∈ regions_set)
  else if truthy region_final && bool_decide (region_final ∈ regions_set)
       then true
  else existsb (fun reg => contains reg (or_else addr []))
               (elements regions_set).

(** One iteration of either of the two loops that fill [enriched]:
    [None] for [continue], [Some] the row appended. *)
Definition enrich_one (regions_set : gset str) (only_foreign_branch : bool)
    (t : str) (r : row) (tr : triple) : option report_row :=
  let '(region_final, addr, branch_kr) := tr in
  if only_foreign_branch && negb branch_kr then None
  else if negb (accept_region regions_set region_final addr) then None
  else Some
    {| rep_type := t;
       rep_name := row_name r;
       rep_region :=
         or_else region_final
           (if truthy addr && negb (is_korea_address addr)
            then OVERSEAS else []);
       rep_address := addr;
       rep_branch := if branch_kr then BRANCH_TAG else [];
       rep_url := row_url r |}.

Definition enrich_prebuilt (regions_set : gset str)
    (only_foreign_branch : bool) (t : str)
    (prebuilt : list (row * triple)) : list report_row :=
  omap (fun p => enrich_one regions_set only_foreign_branch t p.1 p.2)
       prebuilt.

Definition enrich_resolved (regions_set : gset str)
    (only_foreign_branch : bool) (t : str) (to_resolve : list row)
    (results_map : gmap str triple) : list report_row :=
  omap (fun r =>
          enrich_one regions_set only_foreign_branch t r
            (default ([], [], false) (results_map !! row_name r)))
       to_resolve.

(** The body of the [for t, arr in grouped.items()] loop; the result is
    what it passes to [out.extend]. *)
Definition process_group (regions_set : gset str)
    (need_address_lookup only_foreign_branch : bool) (per_type : Z)
    (t : str) (arr : list row) : M (list report_row) :=
  let uniq := uniq_loop arr ∅ in
  let* '(prebuilt, to_resolve) := split_cached need_address_lookup uniq in
  let* results_map :=
    if need_address_lookup
    then resolve_each true to_resolve ∅
    else resolve_each false to_resolve ∅ in
  let enriched :=
    enrich_prebuilt regions_set only_foreign_branch t prebuilt
    ++ enrich_resolved regions_set only_foreign_branch t to_resolve
         results_map in
  ret (take (Z.to_nat (Z.max 1 per_type)) enriched).

Fixpoint groups_loop (regions_set : gset str)
    (need_address_lookup only_foreign_branch : bool) (per_type : Z)
    (grouped : list (str * list row)) : M (list report_row) :=
  match grouped with
  | [] => ret []
  | (t, arr) :: grouped' =>
      let* rows_t :=
        process_group regions_set need_address_lookup only_foreign_branch
          per_type t arr in
      let* out :=
        groups_loop regions_set need_address_lookup only_foreign_branch
          per_type grouped' in
      ret (rows_t ++ out)
  end.

Definition filter_and_enrich (rows : list row) (pick_types : list str)
    (per_type : Z) (filter_regions : list str) (only_foreign_branch : bool)
  : M (list report_row) :=
  let wants : gset str := list_to_set (List.map _normalize_cat pick_types) in
  let grouped := group_rows wants rows [] in
  let regions_set : gset str := list_to_set filter_regions in
  let need_address_lookup :=
    negb (bool_decide (regions_set = ∅)) || only_foreign_branch in
  groups_loop regions_set need_address_lookup only_foreign_branch per_type
    grouped.

End Program.

Local Close Scope N_scope.

(** ** The directory page: [fetch_theise_table] *)

(** A [tr] of the page as the fetcher reads it.  [tr_cells]: its [td] and
    [th] cells, each given by its text fragments.  [tr_anchor]: its first
    [a], if any, and that anchor's [href], if any. *)
Record tr_node : Type := TrNode {
  tr_cells : list (list str);
  tr_anchor : option (option str)
}.

(** [get_text(strip=True)]: every fragment is stripped, the empty ones are
    dropped, the others are joined without separator. *)
Fixpoint get_text_strip (fragments : list str) : str :=
  match fragments with
  | [] => []
  | s :: rest =>
      if truthy (strip s) then strip s ++ get_text_strip rest
      else get_text_strip rest
  end.

(** The body of the [for tr in ...] loop: [None] for [continue], [Some]
    the row appended. *)
Definition row_of_tr (tr : tr_node) : option row :=
  match tr_cells tr with
  | td0 :: td1 :: _ =>
      let cat := _normalize_cat (get_text_strip td0) in
      let name := get_text_strip td1 in
      let url :=
        match tr_anchor tr with
        | Some (Some href) => if truthy href then strip href else []
        | _ => []
        end in
      Some (Row cat name url)
  | _ => None                                  (* len(tds) < 2 *)
  end.

(** ** The web layer *)

(** The fields of the search form; [None] is a field that was not sent. *)
Record form : Type := Form {
  form_categories : list str;
  form_per_category : option str;
  form_regions : list str;
  form_only_foreign_branch : option str;
  form_recipient_email : option str
}.

(** A value of [RESULTS]: the filters as echoed, the rows, the columns. *)
Record payload : Type := Payload {
  shown_categories : list str;
  shown_per_category : Z;
  shown_regions : list str;
  shown_only_branch : str;
  shown_rows : list report_row;
  shown_columns : list str
}.

Record mail : Type := Mail {
  mail_to : str;
  mail_subject : str;
  mail_body : str
}.

(** The statements of the [try] block of [my_email.send_email]. *)
Inductive smtp_step : Type :=
| BuildMessage   (* MIMEText(body, "plain", "utf-8") and the three headers *)
| Connect        (* smtplib.SMTP(SMTP_SERVER, SMTP_PORT) *)
| StartTLS       (* server.starttls() *)
| Login          (* server.login(EMAIL, PASSWORD) *)
| SendMessage    (* server.send_message(msg) *)
| Quit.          (* server.quit() *)

Definition TRY_BLOCK : list smtp_step :=
  [BuildMessage; Connect; StartTLS; Login; SendMessage; Quit].

(** What a route returns. *)
Inductive response : Type :=
| RenderMain (error : option str)   (* render_template("main.html", ...) *)
| RenderResults (p : payload)       (* render_template("results.html", ..) *)
| Redirect (job_id : str)           (* redirect(url_for("result_page", ..)) *)
| NotFound (body : str).            (* (body, 404) *)

(** [theise_page]: what [requests.get(THEISE_URL, timeout=20)] gives back.
    [soup_tables]: the tables of a parsed page, each with its rows.
    [fetch_error]: the text of the exception raised by the fetcher.
    [py_int]: [int] on a string.
    [uuid4_hex n]: the [n]-th identifier drawn.
    [smtp_raises msg st]: in the session for [msg], statement [st] raises. *)
Record site_env : Type := SiteEnv {
  theise_page : fetched;
  soup_tables : str -> list (list tr_node);
  fetch_error : str;
  py_int : str -> result Z;
  uuid4_hex : nat -> str;
  smtp_raises : mail -> smtp_step -> bool
}.

(** [cache]: the world of the pipeline.  [RESULTS]: the job store.
    [mail_log]: the messages [send_email] was called with, oldest first,
    delivered or not.
    [outbox]: the messages [server.send_message] has handed to the SMTP
    server, oldest first.
    [ids_drawn]: how many identifiers were drawn. *)
Record site : Type := Site {
  cache : world;
  RESULTS : gmap str payload;
  mail_log : list mail;
  outbox : list mail;
  ids_drawn : nat
}.

(** The statements of a [try] block run in order until one raises;
    [SendMessage], when it is carried out, hands [msg] to the server. *)
Fixpoint run_steps (raises : smtp_step -> bool) (msg : mail)
    (steps : list smtp_step) (sent : list mail) : result unit * list mail :=
  match steps with
  | [] => (Returned tt, sent)
  | st :: rest =>
      if raises st then (Raised, sent)
      else run_steps raises msg rest
             match st with
             | SendMessage => sent ++ [msg]
             | _ => sent
             end
  end.

Definition NL : str := [10%N].

(** [sep.join(l)] *)
Fixpoint join (sep : str) (l : list str) : str :=
  match l with
  | [] => []
  | [x] => x
  | x :: rest => x ++ sep ++ join sep rest
  end.

Definition COLUMNS : list str :=
  [U "회사 유형"; U "회사명"; U "지역"; U "주소(구글)"; U "지사구분"; U "링크"].

Section Web.

Variable E : env.
Variable Srv : site_env.

Definition fetch_theise_table : result (list row) :=
  match theise_page Srv with
  | FetchRaises => Raised
  | Response status_code text =>
      if (400 <=? status_code)%Z && (status_code <? 600)%Z
      then Raised                               (* raise_for_status() *)
      else Returned (omap row_of_tr (concat (soup_tables Srv text)))
  end.

(** [my_email.send_email]: the [try] block ends in [return True], the
    [except Exception] branch in [return False]. *)
Definition send_email (to_email subject body : str) (s : site)
  : bool * site :=
  let msg := Mail to_email subject body in
  let run := run_steps (smtp_raises Srv msg) msg TRY_BLOCK (outbox s) in
  (match fst run with
   | Returned _ => true
   | Raised => false
   end,
   Site (cache s) (RESULTS s) (mail_log s ++ [msg]) (snd run) (ids_drawn s)).

(** The lines of the mail for a non-empty report. *)
Definition body_line (r : report_row) : str :=
  rep_name r ++ U " (" ++ rep_type r ++ U ")" ++ NL
  ++ U "지역: " ++ rep_region r ++ NL
  ++ U "주소: " ++ rep_address r ++ NL
  ++ U "링크: " ++ rep_url r ++ NL.

Definition mail_body_of (rows : list report_row) : str :=
  let body_lines :=
    match rows with
    | [] => [U "조건에 해당하는 기업 정보가 없습니다. 유형/지역 조건을 조정해보세요."]
    | _ :: _ => (U "기업정보 검색 결과:" ++ NL) :: List.map body_line rows
    end in
  join NL body_lines.

Definition truthy_field (x : option str) : bool :=
  match x with Some s => truthy s | None => false end.

(** [int(request.form.get("per_category") or 5)] *)
Definition form_per_cat (f : form) : result Z :=
  match form_per_category f with
  | Some x => if truthy x then py_int Srv x else Returned 5%Z
  | None => Returned 5%Z
  end.

(** [company_search]; [Raised] is the [ValueError] of [int], which the
    route does not catch. *)
Definition company_search (f : form) (s : site) : result (response * site) :=
  let categories := form_categories f in
  match form_per_cat f with
  | Raised => Raised
  | Returned per_cat =>
      let regions := form_regions f in
      let only_branch :=
        bool_decide (form_only_foreign_branch f = Some (U "Y")) in
      let recipient_email := form_recipient_email f in
      match fetch_theise_table with
      | Raised =>
          let error_msg := U "조회 실패: " ++ fetch_error Srv in
          let s1 :=
            match recipient_email with
            | Some to_email =>
                if truthy to_email
                then snd (send_email to_email
                            (U "🔎 기업정보 검색 결과 - 실패") error_msg s)
                else s
            | None => s
            end in
          Returned (RenderMain (Some error_msg), s1)
      | Returned table =>
          let '(rows, cache1) :=
            filter_and_enrich E table categories per_cat regions only_branch
              (cache s) in
          let s0 :=
            Site cache1 (RESULTS s) (mail_log s) (outbox s) (ids_drawn s) in
          let body := mail_body_of rows in
          let s1 :=
            match recipient_email with
            | Some to_email =>
                if truthy to_email
                then snd (send_email to_email (U "🔎 기업정보 검색 결과")
                            body s0)
                else s0
            | None => s0
            end in
          let job_id := uuid4_hex Srv (ids_drawn s1) in
          let p :=
            {| shown_categories :=
                 match categories with [] => [U "(전체)"] | _ => categories end;
               shown_per_category := per_cat;
               shown_regions :=
                 match regions with [] => [U "(제한 없음)"] | _ => regions end;
               shown_only_branch :=
                 if only_branch then U "예" else U "아니오";
               shown_rows := rows;
               shown_columns := COLUMNS |} in
          Returned
            (Redirect job_id,
             Site (cache s1) (<[job_id := p]> (RESULTS s1)) (mail_log s1)
                  (outbox s1) (S (ids_drawn s1)))
      end
  end.

Definition result_page (job_id : str) (s : site) : response :=
  match RESULTS s !! job_id with
  | Some p => RenderResults p
  | None => NotFound (U "결과가 만료되었거나 존재하지 않습니다.")
  end.

End Web.

(** ** Vocabulary of the statements *)

(** *** Worlds and environments *)

(** The store as [_ensure_cache] creates it, nothing sent anywhere yet. *)
Definition fresh_world : world := World ∅ [] [] [].

(** A table holding one cached miss. *)
Definition world_cached_miss : world :=
  World {[ U "Acme" := ([], 0%Z) ]} [] [] [].

(** A table holding one foreign address. *)
Definition world_foreign_address : world :=
  World {[ U "Acme" := (U "1 Some St, Springfield, USA", 0%Z) ]} [] [] [].

(** A table holding a row whose key is the empty name. *)
Definition world_blank_key : world :=
  World {[ [] := (U "X", 0%Z) ]} [] [] [].

(** A store that never fails, a network that is down, a clock at 0. *)
Definition env_offline : env :=
  Env (fun _ => false) (fun _ => 0%Z) (fun _ _ => FetchRaises)
      (fun _ => None) (fun _ => None) (fun x => x).

(** The same with a store that always fails. *)
Definition env_broken_store : env :=
  Env (fun _ => true) (fun _ => 0%Z) (fun _ _ => FetchRaises)
      (fun _ => None) (fun _ => None) (fun x => x).

(** *** Directories *)

(** One company, unknown to the cache. *)
Definition acme_rows : list row :=
  [Row (U "Fabless") (U "Acme") (U "https://acme.example")].

(** One company whose name matches the branch hints and names Seoul. *)
Definition seoul_rows : list row :=
  [Row (U "SW") (U "서울 Korea") (U "https://seoul.example")].

(** One company listed under two categories. *)
Definition twice_listed_rows : list row :=
  [Row (U "Fabless") (U "Acme") (U "https://acme.example");
   Row (U "SW") (U "Acme") (U "https://acme.example")].

(** Ten names, all different as strings, that differ only in trailing
    blanks. *)
Definition padded_rows : list row :=
  (fun n => Row (U "Fabless") (U "Acme" ++ repeat 32%N n) [])
    <$> seq 0 10.

(** Ten companies of one category. *)
Definition ten_rows : list row :=
  (fun n => Row (U "Fabless") (U "Acme" ++ [N.of_nat (48 + n)]) [])
    <$> seq 0 10.

(** A directory with a blank-named row between two companies. *)
Definition rows_with_blank : list row :=
  [Row (U "Fabless") (U "Acme") [];
   Row (U "Fabless") (U "  ") (U "https://blank.example");
   Row (U "SW") (U "Beta") []].

(** *** Uses of the cache *)

(** A caller's use of the cache interface. *)
Inductive cache_call : Type :=
| Put (name address : str)
| Get (name : str).

Definition stores (name : str) (c : cache_call) : Prop :=
  match c with Put n _ => n = name | Get _ => False end.

Fixpoint run_calls (E : env) (calls : list cache_call) : M unit :=
  match calls with
  | [] => ret tt
  | Put n a :: cs => let* _ := cache_put E n a in run_calls E cs
  | Get n :: cs => let* _ := cache_get E n in run_calls E cs
  end.

(** *** Categories, keys and counts *)

(** An entry of the category table one of whose aliases has the
    lower-cased form [low]. *)
Definition alias_hit (low : str) (entry : str * list str) : bool :=
  existsb (fun a => Py.eqb (lower a) low) entry.2.

(** A label matches no canonical name exactly and no alias up to case. *)
Definition unknown_label (lab : str) : Prop :=
  Forall (fun entry =>
            lab <> entry.1
            /\ Forall (fun a => lower a <> lower lab) entry.2)
         THEISE_CAT_MAP.

(** The key a row is de-duplicated on, and the category it is grouped
    under. *)
Definition trimmed (r : row) : str := strip (row_name r).
Definition cat_of (r : row) : str := _normalize_cat (row_type r).

(** The category filter of the first loop of [filter_and_enrich]. *)
Definition wanted_cat (wants : gset str) (t : str) : Prop :=
  wants = ∅ \/ t ∈ wants.

(** What the grouping loop maintains: [grouped] holds, under distinct
    wanted keys, the rows read so far ([seen]) of each category, in
    order. *)
Definition grouping (wants : gset str) (seen : list row)
    (grouped : list (str * list row)) : Prop :=
  NoDup grouped.*1
  /\ (forall t arr, (t, arr) ∈ grouped ->
        arr = filter (fun r => cat_of r = t) seen)
  /\ (forall r, r ∈ seen -> wanted_cat wants (cat_of r) ->
        cat_of r ∈ grouped.*1)
  /\ (forall t, t ∈ grouped.*1 -> wanted_cat wants t).

(** The cap applied to each group: [max(1, per_type)]. *)
Definition cap (per_type : Z) : nat := Z.to_nat (Z.max 1 per_type).

(** The key of a report row inside its category. *)
Definition rep_key (o : report_row) : str := strip (rep_name o).

(** How many rows of a report belong to a category. *)
Definition rows_of_type (c : str) (out : list report_row) : nat :=
  length (filter (fun o => rep_type o = c) out).

(** *** What a run leaves behind *)

(** The name a store statement is about. *)
Definition op_name (op : db_op) : str :=
  match op with
  | Select n => n
  | InsertOrReplace n _ _ => n
  end.

(** The two queries the resolver sends for a name. *)
Definition queries_of (name : str) : list str :=
  [cat name (U " 주소"); cat name (U " Korea address")].

(** [quiet w w']: from [w] to [w'] the table and the network traffic are
    the same; only the logs of statements and of resolver calls may grow. *)
Definition quiet (w w' : world) : Prop :=
  db w' = db w /\ net_log w' = net_log w.

(** [touches P w w']: from [w] to [w'] the three logs only grow, and
    every statement, resolver call and request added is about a name that
    satisfies [P]. *)
Definition touches (P : str -> Prop) (w w' : world) : Prop :=
  exists dl rl nl,
    db_log w' = db_log w ++ dl
    /\ resolve_log w' = resolve_log w ++ rl
    /\ net_log w' = net_log w ++ nl
    /\ Forall (fun op => P (op_name op)) dl
    /\ Forall (fun e => P e.1) rl
    /\ Forall (fun q => exists n, P n /\ q ∈ queries_of n) nl.

(** *** Labels *)

(** What the branch of [_resolve_address_for_item] without lookup returns
    for a name about which the cache says nothing. *)
Definition hint_only (name : str) : triple :=
  if quick_is_korea_name name
  then (if contains SEOUL name then SEOUL else [], [], true)
  else ([], [], false).



(** *** Shapes of strings *)

(** The first, resp. last, character of [s], if any, is not white
    space. *)
Definition clean_head (s : str) : Prop :=
  match s with c :: _ => isspace c = false | [] => True end.

Definition clean_last (s : str) : Prop := clean_head (rev s).

(** Every white-space character of [s] is a plain blank (U+0020), and no
    two of them are adjacent. *)
Fixpoint single_spaced (s : str) : Prop :=
  match s with
  | [] => True
  | c :: r =>
      (isspace c = true -> c = 32%N /\ clean_head r) /\ single_spaced r
  end.

(** No [<] of [s] opens a tag, i.e. [<[^>]+>] matches nowhere in [s]. *)
Fixpoint no_tag (s : str) : Prop :=
  match s with
  | [] => True
  | c :: r => (c = 60%N -> tag_rest false r = None) /\ no_tag r
  end.

(** *** What the network answers *)

(** A response in which the resolver finds no address: the request
    failed, the status is not 200, the body is empty, or neither selector
    yields a non-empty text. *)
Definition useless (E : env) (r : fetched) : Prop :=
  match r with
  | FetchRaises => True
  | Response status_code text =>
      status_code <> 200%Z \/ text = []
      \/ (match select_address E text with
          | Some node => _txt E node = []
          | None => True
          end
          /\ match select_candidate E text with
             | Some cand => _txt E cand = []
             | None => True
             end)
  end.

(** A network on which every page shows the same address node. *)
Definition env_found : env :=
  Env (fun _ => false) (fun _ => 0%Z)
      (fun _ _ => Response 200 (U "<html>"))
      (fun _ => Some (U " 12 Teheran-ro,  Seoul ")) (fun _ => None)
      (fun x => x).

(** The distinct non-blank stripped names of a list of rows. *)
Definition names_of (arr : list row) : gset str :=
  list_to_set (trimmed <$> arr) ∖ {[ [] ]}.

(** [branch_ok name tr]: the branch flag is only set for a name that
    matches the quick hints, and then on an empty address or on a Korean
    one. *)
Definition branch_ok (name : str) (tr : triple) : Prop :=
  tr.2 = true ->
  quick_is_korea_name name = true
  /\ (tr.1.2 = [] \/ is_korea_address tr.1.2 = true).

(** [grows P w w']: from [w] to [w'] no row of the table is removed or
    changed, and every row added is for a name that satisfies [P]. *)
Definition grows (P : str -> Prop) (w w' : world) : Prop :=
  db w ⊆ db w'
  /\ forall n, is_Some (db w' !! n) -> is_Some (db w !! n) \/ P n.

(** The cache has a row for the name of [r]. *)
Definition known (w : world) (r : row) : Prop := is_Some (db w !! row_name r).

#[local] Instance known_dec w r : Decision (known w r).
Proof. unfold known. apply _. Defined.

(** *** The site *)

(** A site that has served nothing yet. *)
Definition fresh_site : site := Site fresh_world ∅ [] [] 0.

(** A directory page with one table of three rows, the second of which
    has a single cell. *)
Definition sample_tables : list (list tr_node) :=
  [[TrNode [[U " 팹리스 "]; [U " Acme"; U "  "; U "Ltd "]]
           (Some (Some (U " https://acme.example ")));
    TrNode [[U "Fabless"]] None;
    TrNode [[U "SW"]; [U "서울 Korea"]; [U "note"]] (Some None)]].

(** A server whose directory page is [sample_tables]; no SMTP server can
    be reached. *)
Definition srv_sample : site_env :=
  SiteEnv (Response 200 (U "<html>")) (fun _ => sample_tables)
          (U "unreachable") (fun _ => Raised)
          (fun n => U "job" ++ [N.of_nat (48 + n)]) (fun _ _ => true).

(** A server whose directory page answers 503. *)
Definition srv_down : site_env :=
  SiteEnv (Response 503 []) (fun _ => []) (U "503 Server Error")
          (fun _ => Raised) (fun n => U "job" ++ [N.of_nat (48 + n)])
          (fun _ _ => true).

(** The same server with another mail transport. *)
Definition with_smtp (Srv : site_env) (raises : mail -> smtp_step -> bool)
  : site_env :=
  SiteEnv (theise_page Srv) (soup_tables Srv) (fetch_error Srv) (py_int Srv)
          (uuid4_hex Srv) raises.

(** A transport on which only closing the session fails. *)
Definition quit_raises : mail -> smtp_step -> bool :=
  fun _ st => match st with Quit => true | _ => false end.


(** A search with no filter and a recipient. *)
Definition sample_form : form :=
  Form [] None [] None (Some (U "me@example.org")).

(** The directory page cannot be had: the request raises, or the answer
    has a status that [raise_for_status] refuses. *)
Definition directory_down (Srv : site_env) : Prop :=
  match theise_page Srv with
  | FetchRaises => True
  | Response status_code _ => (400 <= status_code < 600)%Z
  end.

(** The rows of [sample_tables] as the fetcher returns them. *)
Definition sample_table : list row :=
  [Row (U "Fabless") (U "AcmeLtd") (U "https://acme.example");
   Row (U "SW") (U "서울 Korea") []].

(** The mails of a call of [company_search] for a form. *)
Definition mails_for (f : form) (subject body : str) : list mail :=
  match form_recipient_email f with
  | Some to_email =>
      if truthy to_email then [Mail to_email subject body] else []
  | None => []
  end.

(** Closed decidable statements are settled by evaluating their decision
    procedure. *)
Ltac by_computation :=
  match goal with
  | |- ?P => apply (@bool_decide_unpack P _); vm_compute; exact I
  end.

(** ** The model on the documented examples *)

Example utf8_seoul : U "서울" = [49436%N; 50872%N].
Proof. reflexivity. Qed.

Example strip_surrounding_blanks : strip (U "  Acme Ltd ") = U "Acme Ltd".
Proof. reflexivity. Qed.

Example lower_ascii : lower (U "Desing House") = U "desing house".
Proof. reflexivity. Qed.

Example normalize_typo_alias :
  _normalize_cat (U " desing HOUSE ") = U "Design house".
Proof. vm_compute. reflexivity. Qed.

Example hint_korea_word : quick_is_korea_name (U "서울 Korea") = true.
Proof. vm_compute. reflexivity. Qed.

Example hint_plain_name : quick_is_korea_name (U "Acme") = false.
Proof. vm_compute. reflexivity. Qed.

Example hint_stock_sign : quick_is_korea_name (U "㈜코리아") = true.
Proof. vm_compute. reflexivity. Qed.

Example hint_parenthesised :
  quick_is_korea_name (U "Synopsys (Synopsys Korea Inc.)") = true.
Proof. vm_compute. reflexivity. Qed.

Example hint_hanguk_prefix : quick_is_korea_name (U "한국 마이크로") = true.
Proof. vm_compute. reflexivity. Qed.

Example hint_needs_word_boundary :
  quick_is_korea_name (U "Koreatown") = false.
Proof. vm_compute. reflexivity. Qed.

Example alnum_table_size :
  fold_right (fun r n => (n + (snd r - fst r + 1))%N) 0%N ALNUM_RANGES
  = 133547%N.
Proof. vm_compute. reflexivity. Qed.

(** A letter of any script before [Korea] leaves no word boundary there:
    kana, Greek, Latin Extended, Cyrillic, fullwidth. *)
Example hint_no_boundary_after_letter :
  Forall (fun name => quick_is_korea_name name = false)
    [U "ソニーKorea"; U "ΩKorea"; U "ŁKorea"; U "ЯKorea"; U "ＡKorea"].
Proof. repeat constructor. Qed.

Example korea_word_after_kana :
  is_korea_address (U "ソウルKorea") = false
  /\ is_korea_address (U "ソウル Korea") = true.
Proof. vm_compute. split; reflexivity. Qed.

Example cached_kana_address_is_overseas :
  classify_cached (U "Acme") (U "ソウルKorea")
  = (OVERSEAS, U "ソウルKorea", false).
Proof. vm_compute. reflexivity. Qed.

Example kana_name_has_no_hint :
  hint_only (U "ソニーKorea") = ([], [], false).
Proof. vm_compute. reflexivity. Qed.

Example region_of_seoul :
  normalize_region_from_address (U "서울특별시 강남구") = U "서울".
Proof. vm_compute. reflexivity. Qed.

Example region_of_foreign_address :
  is_korea_address (U "1 Some St, Springfield, USA") = false.
Proof. vm_compute. reflexivity. Qed.

Example region_domestic_unlabelled :
  is_korea_address (U "대한민국 어딘가") = true
  /\ normalize_region_from_address (U "대한민국 어딘가") = [].
Proof. vm_compute. split; reflexivity. Qed.

Example txt_strips_tags :
  _txt env_offline (U "<b>Seoul</b>,   Korea ") = U "Seoul , Korea".
Proof. vm_compute. reflexivity. Qed.

(** ** The cache *)

Section CacheFacts.

Context (E : env).

Lemma cache_get_eq name w :
  cache_get E name w =
  (if db_fault E (length (db_log w)) then None else fst <$> db w !! name,
   World (db w) (db_log w ++ [Select name]) (net_log w) (resolve_log w)).
Proof.
  unfold cache_get, bind, sql_select.
  destruct (db_fault E (length (db_log w))); reflexivity.
Qed.

Lemma cache_put_eq name address w :
  cache_put E name address w =
  (tt,
   World (if db_fault E (length (db_log w)) then db w
          else <[name := (address, unix_time E (length (db_log w)))]> (db w))
         (db_log w ++ [InsertOrReplace name address
                         (unix_time E (length (db_log w)))])
         (net_log w) (resolve_log w)).
Proof.
  unfold cache_put, bind, sql_insert_or_replace.
  assert (Hor : or_else address [] = address)
    by (destruct address; reflexivity).
  rewrite Hor.
  destruct (db_fault E (length (db_log w))); reflexivity.
Qed.

Lemma cache_get_absent name w :
  db w !! name = None -> fst (cache_get E name w) = None.
Proof.
  intros H. rewrite cache_get_eq. simpl. rewrite H.
  destruct (db_fault E _); reflexivity.
Qed.

Lemma run_calls_never_stored name calls w :
  Forall (fun c => ~ stores name c) calls ->
  db w !! name = None ->
  db (snd (run_calls E calls w)) !! name = None.
Proof.
  intros Hcalls. revert w.
  induction Hcalls as [|c cs Hc _ IH]; intros w Hw; [exact Hw|].
  destruct c as [n a|n]; simpl; unfold bind.
  - rewrite cache_put_eq. apply IH. simpl.
    destruct (db_fault E _); [exact Hw|].
    rewrite lookup_insert_ne; [exact Hw|]. exact Hc.
  - rewrite cache_get_eq. apply IH. exact Hw.
Qed.

End CacheFacts.

(** C5.  Round trip of the cache: when the store carries out the two
    statements, [cache_put name address] followed by [cache_get name]
    returns exactly [address], the empty string included; and [cache_get]
    of a name that no earlier call has stored, on a store created empty,
    returns [None]. *)
Theorem cache_put_then_get
    (E : env) (name address : str) (w : world)
    (E' : env) (name' : str) (calls : list cache_call)
    (Hput : db_fault E (length (db_log w)) = false)
    (Hget : db_fault E (S (length (db_log w))) = false)
    (Hnever : Forall (fun c => ~ stores name' c) calls) :
  fst (cache_get E name (snd (cache_put E name address w))) = Some address
  /\ fst (cache_get E' name' (snd (run_calls E' calls fresh_world))) = None.
Proof.
  split.
  - rewrite cache_put_eq, cache_get_eq. simpl.
    rewrite length_app, Nat.add_1_r, Hget, Hput. simpl.
    rewrite lookup_insert_eq. reflexivity.
  - apply cache_get_absent, run_calls_never_stored; [exact Hnever|].
    apply lookup_empty.
Qed.

Lemma cache_put_then_get_witness :
  fst (cache_get env_offline (U "Acme")
         (snd (cache_put env_offline (U "Acme") [] fresh_world))) = Some []
  /\ fst (cache_get env_offline (U "Other")
            (snd (run_calls env_offline
                    [Put (U "Acme") (U "Seoul"); Get (U "Other")]
                    fresh_world))) = None.
Proof.
  apply (cache_put_then_get env_offline (U "Acme") [] fresh_world
           env_offline (U "Other")
           [Put (U "Acme") (U "Seoul"); Get (U "Other")]).
  - reflexivity.
  - reflexivity.
  - repeat constructor; simpl; [discriminate | tauto].
Defined.

(** C9.  A store failure never reaches the caller: when the statement
    behind [cache_get] raises, [cache_get] returns [None]; when the one
    behind [cache_put] raises, [cache_put] returns normally and the table
    is what it was. *)
Theorem cache_failure_degrades
    (E : env) (name address : str) (w : world)
    (Hfail : db_fault E (length (db_log w)) = true) :
  (fst (sql_select E name w) = Raised
   /\ fst (cache_get E name w) = None
   /\ db (snd (cache_get E name w)) = db w)
  /\ (fst (sql_insert_or_replace E name (or_else address []) w) = Raised
      /\ fst (cache_put E name address w) = tt
      /\ db (snd (cache_put E name address w)) = db w).
Proof.
  rewrite cache_get_eq, cache_put_eq.
  unfold sql_select, sql_insert_or_replace. rewrite Hfail. simpl.
  repeat split.
Qed.

Lemma cache_failure_degrades_witness :
  (fst (sql_select env_broken_store (U "Acme") fresh_world) = Raised
   /\ fst (cache_get env_broken_store (U "Acme") fresh_world) = None
   /\ db (snd (cache_get env_broken_store (U "Acme") fresh_world))
      = db fresh_world)
  /\ (fst (sql_insert_or_replace env_broken_store (U "Acme")
             (or_else (U "Seoul") []) fresh_world) = Raised
      /\ fst (cache_put env_broken_store (U "Acme") (U "Seoul") fresh_world)
         = tt
      /\ db (snd (cache_put env_broken_store (U "Acme") (U "Seoul")
                    fresh_world)) = db fresh_world).
Proof.
  apply (cache_failure_degrades env_broken_store (U "Acme") (U "Seoul")
           fresh_world).
  reflexivity.
Defined.

(** ** Running monadic code *)

Lemma bind_eq {A B : Type} (c : M A) (f : A -> M B) (w : world) :
  bind c f w = f (fst (c w)) (snd (c w)).
Proof. unfold bind. destruct (c w). reflexivity. Qed.

Lemma quiet_refl w : quiet w w.
Proof. split; reflexivity. Qed.

Lemma quiet_trans w1 w2 w3 : quiet w1 w2 -> quiet w2 w3 -> quiet w1 w3.
Proof. intros [? ?] [? ?]. split; congruence. Qed.

Section ResolverFacts.

Context (E : env).

Lemma cache_get_quiet name w : quiet w (snd (cache_get E name w)).
Proof. rewrite cache_get_eq. split; reflexivity. Qed.

(** The query loop only talks to the network, and only sends queries of
    its list. *)
Lemma query_loop_world queries : forall address w,
  exists sent,
    snd (query_loop E queries address w) =
    World (db w) (db_log w) (net_log w ++ sent) (resolve_log w)
    /\ Forall (fun q => q ∈ queries) sent.
Proof.
  induction queries as [|q qs IH]; intros address w.
  - exists []. simpl. rewrite app_nil_r. destruct w.
    split; [reflexivity|constructor].
  - assert (Hrec : forall a,
      exists sent,
        snd (query_loop E qs a
               (World (db w) (db_log w) (net_log w ++ [q]) (resolve_log w))) =
        World (db w) (db_log w) (net_log w ++ sent) (resolve_log w)
        /\ Forall (fun x => x ∈ q :: qs) sent).
    { intros a. destruct (IH a (World (db w) (db_log w) (net_log w ++ [q])
                                   (resolve_log w))) as (sent & Hs & Hin).
      exists (q :: sent). rewrite Hs. simpl.
      rewrite <- app_assoc. split; [reflexivity|].
      constructor; [left|].
      eapply Forall_impl; [exact Hin|]. intros x Hx. right. exact Hx. }
    assert (Hret : forall a,
      exists sent,
        snd (ret (A:=str) a
               (World (db w) (db_log w) (net_log w ++ [q]) (resolve_log w))) =
        World (db w) (db_log w) (net_log w ++ sent) (resolve_log w)
        /\ Forall (fun x => x ∈ q :: qs) sent).
    { intros a. exists [q]. split; [reflexivity|].
      constructor; [left|constructor]. }
    simpl. unfold bind, _fetch.
    destruct (google E q (length (net_log w))) as [|status text];
      [apply Hrec|].
    destruct (negb (status =? 200)%Z || negb (truthy text)); [apply Hrec|].
    destruct (select_address E text) as [node|];
      destruct (select_candidate E text) as [cand|];
      repeat match goal with
             | |- context [if ?b then _ else _] => destruct b
             end;
      first [apply Hrec | apply Hret].
Qed.

Lemma resolver_hit name v w :
  name <> [] ->
  fst (cache_get E name w) = Some v ->
  get_company_address_from_google E name w = (v, snd (cache_get E name w)).
Proof.
  intros Hname Hhit. unfold get_company_address_from_google.
  destruct name as [|c name]; [congruence|].
  change (truthy (c :: name)) with true. cbn [negb].
  rewrite bind_eq, Hhit. reflexivity.
Qed.

(** With a working store the resolver leaves its answer in the cache. *)
Lemma resolver_populates name w :
  (forall n, db_fault E n = false) ->
  name <> [] ->
  let r := get_company_address_from_google E name w in
  fst <$> db (snd r) !! name = Some (fst r).
Proof.
  intros Hok Hname r. subst r.
  destruct (fst (cache_get E name w)) as [v|] eqn:Hget.
  - rewrite (resolver_hit name v w Hname Hget). simpl.
    rewrite cache_get_eq in Hget |- *. simpl in *.
    rewrite Hok in Hget. exact Hget.
  - unfold get_company_address_from_google.
    destruct name as [|c name]; [congruence|].
    change (truthy (c :: name)) with true. cbn [negb].
    rewrite bind_eq, Hget. rewrite bind_eq.
    set (w1 := snd (cache_get E (c :: name) w)).
    set (queries := [cat (c :: name) (U " 주소");
                     cat (c :: name) (U " Korea address")]).
    destruct (query_loop_world queries [] w1) as (sent & Hs & _).
    rewrite bind_eq, cache_put_eq. cbn [fst snd ret db].
    rewrite Hs. cbn [db db_log]. rewrite Hok, lookup_insert_eq. reflexivity.
Qed.

End ResolverFacts.

(** C4, as amended.  For a non-empty name, a cache hit (whatever the cached
    value, the empty string included) is returned by the resolver at once,
    without any request; and with a working store a second call for a name
    returns what the first returned, without any request. *)
Theorem resolver_cache_hit
    (E : env) (name v : str) (w : world)
    (E' : env) (name' : str) (w' : world)
    (Hname : name <> [])
    (Hhit : fst (cache_get E name w) = Some v)
    (Hstore : forall n, db_fault E' n = false) :
  (fst (get_company_address_from_google E name w) = v
   /\ net_log (snd (get_company_address_from_google E name w)) = net_log w)
  /\ (let first := get_company_address_from_google E' name' w' in
      let second := get_company_address_from_google E' name' (snd first) in
      fst second = fst first /\ net_log (snd second) = net_log (snd first)).
Proof.
  split.
  - rewrite (resolver_hit E name v w Hname Hhit). simpl.
    split; [reflexivity|]. apply cache_get_quiet.
  - intros first second. subst first second.
    destruct name' as [|c n']; [split; reflexivity|].
    set (first := get_company_address_from_google E' (c :: n') w').
    assert (Hpop : fst (cache_get E' (c :: n') (snd first)) = Some (fst first)).
    { rewrite cache_get_eq. simpl. rewrite Hstore.
      apply (resolver_populates E' (c :: n') w' Hstore). discriminate. }
    rewrite (resolver_hit E' (c :: n') (fst first) (snd first)
               ltac:(discriminate) Hpop).
    simpl. split; [reflexivity|]. apply cache_get_quiet.
Qed.

Lemma resolver_cache_hit_witness :
  (fst (get_company_address_from_google env_offline (U "Acme")
          world_cached_miss) = []
   /\ net_log (snd (get_company_address_from_google env_offline (U "Acme")
                      world_cached_miss)) = net_log world_cached_miss)
  /\ (let first :=
        get_company_address_from_google env_offline (U "Acme") fresh_world in
      let second :=
        get_company_address_from_google env_offline (U "Acme") (snd first) in
      fst second = fst first /\ net_log (snd second) = net_log (snd first)).
Proof.
  apply (resolver_cache_hit env_offline (U "Acme") [] world_cached_miss
           env_offline (U "Acme") fresh_world).
  - discriminate.
  - vm_compute. reflexivity.
  - intros n. reflexivity.
Defined.

(** C4, as stated, fails for the empty name: the resolver answers the
    empty string before it looks at the cache, whatever the cache holds
    under that key. *)
Lemma resolver_empty_name_skips_cache :
  fst (cache_get env_offline [] world_blank_key) = Some (U "X")
  /\ fst (get_company_address_from_google env_offline [] world_blank_key)
     <> U "X".
Proof.
  split.
  - vm_compute. reflexivity.
  - vm_compute. discriminate.
Qed.

(** ** No lookup wanted: the run is quiet *)

Section QuietFacts.

Context (E : env).

Lemma note_resolve_quiet name b w : quiet w (snd (note_resolve name b w)).
Proof. split; reflexivity. Qed.

Lemma resolve_item_offline_quiet item w :
  quiet w (snd (_resolve_address_for_item E item false w)).
Proof.
  unfold _resolve_address_for_item. cbn [negb].
  rewrite bind_eq. rewrite bind_eq.
  eapply quiet_trans; [apply (note_resolve_quiet (row_name item) false)|].
  eapply quiet_trans; [apply cache_get_quiet|].
  match goal with
  | |- context [if ?b then _ else _] => destruct b
  end; apply quiet_refl.
Qed.

Lemma split_cached_quiet need uniq : forall w,
  quiet w (snd (split_cached E need uniq w)).
Proof.
  induction uniq as [|r uniq IH]; intros w; [apply quiet_refl|].
  cbn [split_cached]. rewrite bind_eq. rewrite bind_eq.
  eapply quiet_trans; [apply cache_get_quiet|].
  eapply quiet_trans; [apply IH|].
  destruct (fst (split_cached E need uniq _)) as [prebuilt to_resolve].
  destruct (fst (cache_get E (row_name r) w)) as [addr|];
    [destruct (negb need || truthy addr)|]; apply quiet_refl.
Qed.

Lemma resolve_each_offline_quiet to_resolve : forall results_map w,
  quiet w (snd (resolve_each E false to_resolve results_map w)).
Proof.
  induction to_resolve as [|r rest IH]; intros results_map w;
    [apply quiet_refl|].
  cbn [resolve_each]. rewrite bind_eq.
  eapply quiet_trans; [apply resolve_item_offline_quiet|]. apply IH.
Qed.

Lemma process_group_offline_quiet regions_set only per_type t arr w :
  quiet w (snd (process_group E regions_set false only per_type t arr w)).
Proof.
  unfold process_group. rewrite bind_eq.
  destruct (fst (split_cached E false (uniq_loop arr ∅) w))
    as [prebuilt to_resolve] eqn:Hsplit.
  rewrite bind_eq.
  eapply quiet_trans; [apply split_cached_quiet|].
  eapply quiet_trans; [apply resolve_each_offline_quiet|].
  apply quiet_refl.
Qed.

Lemma groups_loop_offline_quiet regions_set only per_type grouped :
  forall w,
  quiet w (snd (groups_loop E regions_set false only per_type grouped w)).
Proof.
  induction grouped as [|[t arr] grouped IH]; intros w; [apply quiet_refl|].
  cbn [groups_loop]. rewrite bind_eq. rewrite bind_eq.
  eapply quiet_trans; [apply process_group_offline_quiet|].
  eapply quiet_trans; [apply IH|]. apply quiet_refl.
Qed.

Lemma filter_and_enrich_offline rows pick_types per_type :
  filter_and_enrich E rows pick_types per_type [] false =
  groups_loop E ∅ false false per_type
    (group_rows (list_to_set (List.map _normalize_cat pick_types)) rows []).
Proof. reflexivity. Qed.

End QuietFacts.

(** C3.  With no wanted region and [only_foreign_branch = False],
    [filter_and_enrich] sends no request at all: the log of requests is
    what it was before the call (and the cache table is not written). *)
Theorem no_filter_no_request
    (E : env) (rows : list row) (pick_types : list str) (per_type : Z)
    (w : world) :
  net_log (snd (filter_and_enrich E rows pick_types per_type [] false w))
  = net_log w
  /\ db (snd (filter_and_enrich E rows pick_types per_type [] false w))
     = db w.
Proof.
  rewrite filter_and_enrich_offline.
  destruct (groups_loop_offline_quiet E ∅ false per_type
              (group_rows (list_to_set (List.map _normalize_cat pick_types))
                 rows []) w) as [Hdb Hnet].
  split; assumption.
Qed.

(** ** Empty addresses *)

(** The cache branch of [filter_and_enrich] gives an empty address no
    label at all. *)
Lemma classify_cached_empty name :
  classify_cached name [] = ([], [], false).
Proof.
  unfold classify_cached, is_foreign_branch_in_korea.
  change (is_korea_address []) with false.
  rewrite andb_false_r. reflexivity.
Qed.

(** The lookup branch labels whatever is not a Korean address "해외", an
    empty address included. *)
Lemma resolve_item_empty_address (E : env) (item : row) (w : world) :
  fst (get_company_address_from_google E (row_name item)
         (snd (note_resolve (row_name item) true w))) = [] ->
  fst (_resolve_address_for_item E item true w) = (OVERSEAS, [], false).
Proof.
  intros Hempty. unfold _resolve_address_for_item. cbn [negb].
  rewrite bind_eq. rewrite bind_eq. rewrite Hempty.
  unfold is_foreign_branch_in_korea.
  change (is_korea_address []) with false.
  rewrite andb_false_r. reflexivity.
Qed.

(** A company whose miss is cached, and no filter: the row has no label. *)
Example empty_address_cached_unlabelled :
  fst (filter_and_enrich env_offline acme_rows [] 5 [] false
         world_cached_miss)
  = [ {| rep_type := U "Fabless";
         rep_name := U "Acme";
         rep_region := [];
         rep_address := [];
         rep_branch := [];
         rep_url := U "https://acme.example" |} ].
Proof. vm_compute. reflexivity. Qed.

(** ** Items the cache does not know, no lookup wanted *)

(** C7, as stated, fails: without any filter, a name that matches the
    branch hints and contains "서울" comes out with region "서울". *)
Lemma hinted_seoul_name_gets_region :
  db fresh_world !! U "서울 Korea" = None
  /\ fst (filter_and_enrich env_offline seoul_rows [] 5 [] false fresh_world)
     = [ {| rep_type := U "SW";
            rep_name := U "서울 Korea";
            rep_region := SEOUL;
            rep_address := [];
            rep_branch := BRANCH_TAG;
            rep_url := U "https://seoul.example" |} ].
Proof. split; vm_compute; reflexivity. Qed.

(** ** The de-duplication loop *)

Lemma truthy_true s : truthy s = true <-> s <> [].
Proof. destruct s; simpl; split; congruence. Qed.

Lemma uniq_loop_step r arr seen :
  uniq_loop (r :: arr) seen =
  if decide (trimmed r <> [] /\ trimmed r ∉ seen)
  then r :: uniq_loop arr ({[trimmed r]} ∪ seen)
  else uniq_loop arr seen.
Proof.
  cbn [uniq_loop]. fold (trimmed r).
  destruct (decide (trimmed r <> [] /\ trimmed r ∉ seen)) as [[Hne Hns]|Hn].
  - apply truthy_true in Hne. rewrite Hne.
    rewrite bool_decide_eq_false_2 by exact Hns. reflexivity.
  - destruct (truthy (trimmed r)) eqn:Ht; [|reflexivity].
    apply truthy_true in Ht.
    rewrite bool_decide_eq_true_2; [reflexivity|].
    destruct (decide (trimmed r ∈ seen)); [assumption|tauto].
Qed.

Lemma uniq_loop_sublist arr : forall seen,
  uniq_loop arr seen `sublist_of` arr.
Proof.
  induction arr as [|r arr IH]; intros seen; [constructor|].
  rewrite uniq_loop_step. case_decide.
  - apply sublist_skip, IH.
  - apply sublist_cons, IH.
Qed.

Lemma uniq_loop_keys arr : forall seen r,
  r ∈ uniq_loop arr seen -> trimmed r <> [] /\ trimmed r ∉ seen.
Proof.
  induction arr as [|a arr IH]; intros seen r Hr.
  - inversion Hr.
  - rewrite uniq_loop_step in Hr. case_decide as Ha.
    + apply elem_of_cons in Hr as [->|Hr]; [exact Ha|].
      apply IH in Hr as [Hne Hns]. split; [exact Hne|]. set_solver.
    + apply IH in Hr. exact Hr.
Qed.

Lemma uniq_loop_NoDup arr : forall seen,
  NoDup (trimmed <$> uniq_loop arr seen).
Proof.
  induction arr as [|a arr IH]; intros seen; [constructor|].
  rewrite uniq_loop_step. case_decide as Ha; [|apply IH].
  rewrite fmap_cons. apply NoDup_cons. split; [|apply IH].
  intros Hin. apply list_elem_of_fmap in Hin as (r & Heq & Hr).
  apply uniq_loop_keys in Hr as [_ Hns]. rewrite <- Heq in Hns. set_solver.
Qed.

(** A row kept by the loop is the first of its list with its key. *)
Lemma uniq_loop_first arr : forall seen r,
  r ∈ uniq_loop arr seen ->
  exists l1 l2, arr = l1 ++ r :: l2
                /\ forall r', r' ∈ l1 -> trimmed r' <> trimmed r.
Proof.
  induction arr as [|a arr IH]; intros seen r Hr.
  - inversion Hr.
  - rewrite uniq_loop_step in Hr. case_decide as Ha.
    + apply elem_of_cons in Hr as [->|Hr].
      * exists [], arr. split; [reflexivity|]. intros r' Hr'. inversion Hr'.
      * pose proof (uniq_loop_keys _ _ _ Hr) as [_ Hns].
        destruct (IH _ _ Hr) as (l1 & l2 & -> & Hl1).
        exists (a :: l1), l2. split; [reflexivity|].
        intros r' Hr'. apply elem_of_cons in Hr' as [->|Hr'];
          [|apply Hl1, Hr'].
        intros Heq. rewrite Heq in Hns. set_solver.
    + pose proof (uniq_loop_keys _ _ _ Hr) as [Hne Hns].
      destruct (IH _ _ Hr) as (l1 & l2 & -> & Hl1).
      exists (a :: l1), l2. split; [reflexivity|].
      intros r' Hr'. apply elem_of_cons in Hr' as [->|Hr'];
        [|apply Hl1, Hr'].
      intros Heq. apply Ha. rewrite Heq. split; assumption.
Qed.

(** Nothing is dropped from a list of distinct, non-blank keys. *)
Lemma uniq_loop_id arr : forall seen,
  NoDup (trimmed <$> arr) ->
  (forall r, r ∈ arr -> trimmed r <> [] /\ trimmed r ∉ seen) ->
  uniq_loop arr seen = arr.
Proof.
  induction arr as [|a arr IH]; intros seen Hnd Hall; [reflexivity|].
  rewrite uniq_loop_step. rewrite fmap_cons in Hnd.
  apply NoDup_cons in Hnd as [Hna Hnd].
  rewrite decide_True by (apply Hall; left).
  f_equal. apply IH; [exact Hnd|].
  intros r Hr. destruct (Hall r) as [Hne Hns]; [right; exact Hr|].
  split; [exact Hne|].
  assert (trimmed r <> trimmed a).
  { intros Heq. apply Hna. rewrite <- Heq.
    apply list_elem_of_fmap_2, Hr. }
  set_solver.
Qed.

(** ** The grouping loop *)

Lemma setdefault_append_keys grouped t r :
  (setdefault_append grouped t r).*1 =
  if decide (t ∈ grouped.*1) then grouped.*1 else grouped.*1 ++ [t].
Proof.
  induction grouped as [|[k arr] g IH]; cbn [setdefault_append].
  - reflexivity.
  - unfold Py.eqb. case_bool_decide as Hk.
    + subst k. rewrite decide_True by (rewrite fmap_cons; left). reflexivity.
    + rewrite !fmap_cons. cbn [fst]. rewrite IH.
      destruct (decide (t ∈ g.*1)) as [Hin|Hnin].
      * rewrite decide_True by (right; exact Hin). reflexivity.
      * rewrite decide_False; [reflexivity|].
        intros Hc. apply elem_of_cons in Hc as [Hc|Hc]; congruence.
Qed.

Lemma setdefault_append_elem grouped t r k arr :
  NoDup grouped.*1 ->
  (k, arr) ∈ setdefault_append grouped t r ->
  (k <> t /\ (k, arr) ∈ grouped)
  \/ (k = t /\ exists arr0, arr = arr0 ++ [r]
               /\ ((t, arr0) ∈ grouped \/ (arr0 = [] /\ t ∉ grouped.*1))).
Proof.
  induction grouped as [|[k0 arr0] g IH]; cbn [setdefault_append]; intros Hnd Hin.
  - apply list_elem_of_singleton in Hin. injection Hin as -> ->.
    right. split; [reflexivity|]. exists []. split; [reflexivity|].
    right. split; [reflexivity|]. intros Hc. inversion Hc.
  - rewrite fmap_cons in Hnd. apply NoDup_cons in Hnd as [Hk0 Hnd].
    cbn [fst] in Hk0. unfold Py.eqb in Hin. case_bool_decide as Hk.
    + subst k0. apply elem_of_cons in Hin as [Hin|Hin].
      * injection Hin as -> ->. right. split; [reflexivity|].
        exists arr0. split; [reflexivity|]. left. left.
      * left. split; [|right; exact Hin].
        intros ->. apply Hk0. apply (list_elem_of_fmap_2 fst) in Hin. exact Hin.
    + apply elem_of_cons in Hin as [Hin|Hin].
      * injection Hin as -> ->. left. split; [exact Hk|left].
      * destruct (IH Hnd Hin) as [[Hne Hg]|[-> (a0 & -> & Hg)]].
        -- left. split; [exact Hne|right; exact Hg].
        -- right. split; [reflexivity|]. exists a0. split; [reflexivity|].
           destruct Hg as [Hg|[-> Hg]]; [left; right; exact Hg|].
           right. split; [reflexivity|].
           rewrite fmap_cons. intros Hc.
           apply elem_of_cons in Hc as [Hc|Hc]; [|exact (Hg Hc)].
           cbn [fst] in Hc. congruence.
Qed.

Lemma grouping_nil wants : grouping wants [] [].
Proof.
  repeat split.
  - constructor.
  - intros t arr H. inversion H.
  - intros r H. inversion H.
  - intros t H. inversion H.
Qed.

Lemma filter_none {A : Type} (P : A -> Prop) `{!forall r, Decision (P r)}
    (rows : list A) :
  (forall r, r ∈ rows -> ~ P r) -> filter P rows = [].
Proof.
  induction rows as [|a rows IH]; intros Hall; [reflexivity|].
  rewrite filter_cons, decide_False by (apply Hall; left).
  apply IH. intros r Hr. apply Hall. right. exact Hr.
Qed.

Lemma filter_snoc_cat (t : str) (seen : list row) (r : row) :
  filter (fun r => cat_of r = t) (seen ++ [r]) =
  filter (fun r => cat_of r = t) seen
  ++ (if decide (cat_of r = t) then [r] else []).
Proof.
  rewrite filter_app. reflexivity.
Qed.

Lemma grouping_skip wants seen grouped r :
  ~ wanted_cat wants (cat_of r) ->
  grouping wants seen grouped -> grouping wants (seen ++ [r]) grouped.
Proof.
  intros Hnw (Hnd & Harr & Hkeys & Hw). repeat split.
  - exact Hnd.
  - intros t arr Hin. rewrite filter_snoc_cat.
    destruct (decide (cat_of r = t)) as [Heq|_].
    + exfalso. apply Hnw. rewrite Heq. apply Hw.
      apply (list_elem_of_fmap_2 fst) in Hin. exact Hin.
    + rewrite app_nil_r. apply Harr, Hin.
  - intros r' Hr' Hwr'. apply elem_of_app in Hr' as [Hr'|Hr'].
    + apply Hkeys; assumption.
    + apply list_elem_of_singleton in Hr'. subst r'. contradiction.
  - exact Hw.
Qed.

Lemma grouping_add wants seen grouped r :
  wanted_cat wants (cat_of r) ->
  grouping wants seen grouped ->
  grouping wants (seen ++ [r]) (setdefault_append grouped (cat_of r) r).
Proof.
  intros Hwr (Hnd & Harr & Hkeys & Hw). repeat split.
  - rewrite setdefault_append_keys. case_decide as Hin; [exact Hnd|].
    apply NoDup_app. repeat split; [exact Hnd| |apply NoDup_singleton].
    intros x Hx Hx'. apply list_elem_of_singleton in Hx'. subst x. exact (Hin Hx).
  - intros t arr Hin. rewrite filter_snoc_cat.
    apply setdefault_append_elem in Hin
      as [[Hne Hg]|[-> (a0 & -> & Hg)]]; [| |exact Hnd].
    + rewrite decide_False by congruence. rewrite app_nil_r.
      apply Harr, Hg.
    + rewrite decide_True by reflexivity. f_equal.
      destruct Hg as [Hg|[-> Hg]]; [apply Harr, Hg|].
      symmetry. apply filter_none. intros r' Hr' Heq.
      apply Hg. rewrite <- Heq. apply Hkeys; [exact Hr'|].
      rewrite Heq. exact Hwr.
  - intros r' Hr' Hwr'. rewrite setdefault_append_keys.
    apply elem_of_app in Hr' as [Hr'|Hr'].
    + case_decide; [|apply elem_of_app; left]; apply Hkeys; assumption.
    + apply list_elem_of_singleton in Hr'. subst r'.
      case_decide as Hin; [exact Hin|].
      apply elem_of_app. right. apply list_elem_of_singleton. reflexivity.
  - intros t. rewrite setdefault_append_keys. case_decide as Hin.
    + apply Hw.
    + intros Ht. apply elem_of_app in Ht as [Ht|Ht]; [apply Hw, Ht|].
      apply list_elem_of_singleton in Ht. subst t. exact Hwr.
Qed.

Lemma group_rows_grouping wants rows : forall seen grouped,
  grouping wants seen grouped ->
  grouping wants (seen ++ rows) (group_rows wants rows grouped).
Proof.
  induction rows as [|r rows IH]; intros seen grouped Hg.
  - rewrite app_nil_r. exact Hg.
  - cbn [group_rows]. fold (cat_of r).
    replace (seen ++ r :: rows) with ((seen ++ [r]) ++ rows)
      by (rewrite <- app_assoc; reflexivity).
    destruct (decide (wanted_cat wants (cat_of r))) as [Hw|Hnw].
    + assert (Hc : negb (bool_decide (wants = ∅))
                   && negb (bool_decide (cat_of r ∈ wants)) = false).
      { destruct Hw as [Hw|Hw].
        - rewrite (bool_decide_eq_true_2 _ Hw). reflexivity.
        - rewrite (bool_decide_eq_true_2 _ Hw). apply andb_false_r. }
      rewrite Hc. apply IH, grouping_add; assumption.
    + assert (Hc : negb (bool_decide (wants = ∅))
                   && negb (bool_decide (cat_of r ∈ wants)) = true).
      { unfold wanted_cat in Hnw.
        rewrite !bool_decide_eq_false_2 by tauto. reflexivity. }
      rewrite Hc. apply IH, grouping_skip; assumption.
Qed.

Lemma group_rows_spec wants rows :
  grouping wants rows (group_rows wants rows []).
Proof. apply (group_rows_grouping wants rows [] []), grouping_nil. Qed.

(** Rows that all belong to one wanted category form a single group. *)
Lemma group_rows_single wants c rows : forall arr0,
  wanted_cat wants c ->
  (forall r, r ∈ rows -> cat_of r = c) ->
  group_rows wants rows [(c, arr0)] = [(c, arr0 ++ rows)].
Proof.
  induction rows as [|r rows IH]; intros arr0 Hw Hall.
  - rewrite app_nil_r. reflexivity.
  - cbn [group_rows]. fold (cat_of r).
    rewrite (Hall r) by left.
    assert (Hc : negb (bool_decide (wants = ∅))
                 && negb (bool_decide (c ∈ wants)) = false).
    { destruct Hw as [Hw|Hw].
      - rewrite (bool_decide_eq_true_2 _ Hw). reflexivity.
      - rewrite (bool_decide_eq_true_2 _ Hw). apply andb_false_r. }
    rewrite Hc. cbn [setdefault_append]. unfold Py.eqb.
    rewrite bool_decide_eq_true_2 by reflexivity.
    rewrite IH; [|exact Hw|intros r' Hr'; apply Hall; right; exact Hr'].
    rewrite <- app_assoc. reflexivity.
Qed.

(** A position in a filtered list is a position in the list. *)
Lemma filter_split (P : row -> Prop) `{!forall r, Decision (P r)} rows :
  forall l1 r l2,
  filter P rows = l1 ++ r :: l2 ->
  exists L1 L2, rows = L1 ++ r :: L2 /\ filter P L1 = l1.
Proof.
  induction rows as [|a rows IH]; intros l1 r l2 Heq.
  - rewrite filter_nil in Heq. destruct l1; discriminate.
  - rewrite filter_cons in Heq. destruct (decide (P a)) as [Ha|Ha].
    + destruct l1 as [|b l1].
      * injection Heq as -> _. exists [], rows. split; reflexivity.
      * injection Heq as -> Heq. destruct (IH _ _ _ Heq) as (L1 & L2 & -> & <-).
        exists (b :: L1), L2. split; [reflexivity|].
        rewrite filter_cons, decide_True by exact Ha. reflexivity.
    + destruct (IH _ _ _ Heq) as (L1 & L2 & -> & <-).
      exists (a :: L1), L2. split; [reflexivity|].
      rewrite filter_cons, decide_False by exact Ha. reflexivity.
Qed.

(** ** What a run touches *)

Lemma touches_refl P w : touches P w w.
Proof.
  exists [], [], []. rewrite !app_nil_r. repeat split; constructor.
Qed.

Lemma touches_trans P w1 w2 w3 :
  touches P w1 w2 -> touches P w2 w3 -> touches P w1 w3.
Proof.
  intros (dl & rl & nl & Hd & Hr & Hn & Fd & Fr & Fn)
         (dl' & rl' & nl' & Hd' & Hr' & Hn' & Fd' & Fr' & Fn').
  exists (dl ++ dl'), (rl ++ rl'), (nl ++ nl').
  rewrite Hd', Hr', Hn', Hd, Hr, Hn, <- !app_assoc.
  repeat split; apply Forall_app; split; assumption.
Qed.

Section TouchFacts.

Context (E : env) (P : str -> Prop).

Lemma cache_get_touches name w :
  P name -> touches P w (snd (cache_get E name w)).
Proof.
  intros HP. rewrite cache_get_eq.
  exists [Select name], [], []. cbn [snd db_log resolve_log net_log].
  rewrite !app_nil_r. repeat split; repeat constructor. exact HP.
Qed.

Lemma cache_put_touches name address w :
  P name -> touches P w (snd (cache_put E name address w)).
Proof.
  intros HP. rewrite cache_put_eq.
  eexists [_], [], []. cbn [snd db_log resolve_log net_log].
  rewrite !app_nil_r. repeat split; repeat constructor. exact HP.
Qed.

Lemma query_loop_touches name address w :
  P name -> touches P w (snd (query_loop E (queries_of name) address w)).
Proof.
  intros HP.
  destruct (query_loop_world E (queries_of name) address w)
    as (sent & -> & Hsent).
  exists [], [], sent. cbn [db_log resolve_log net_log].
  rewrite !app_nil_r. repeat split; try constructor.
  eapply Forall_impl; [exact Hsent|]. intros q Hq. exists name. tauto.
Qed.

Lemma resolver_touches name w :
  P name -> touches P w (snd (get_company_address_from_google E name w)).
Proof.
  intros HP. unfold get_company_address_from_google.
  destruct (truthy name); cbn [negb]; [|apply touches_refl].
  rewrite bind_eq.
  eapply touches_trans; [apply cache_get_touches, HP|].
  destruct (fst (cache_get E name w)) as [a|]; [apply touches_refl|].
  rewrite bind_eq. fold (queries_of name).
  eapply touches_trans; [apply query_loop_touches, HP|].
  rewrite bind_eq.
  eapply touches_trans; [apply cache_put_touches, HP|]. apply touches_refl.
Qed.

Lemma note_resolve_touches name b w :
  P name -> touches P w (snd (note_resolve name b w)).
Proof.
  intros HP. exists [], [(name, b)], [].
  cbn [snd note_resolve db_log resolve_log net_log].
  rewrite !app_nil_r. repeat split; repeat constructor. exact HP.
Qed.

Lemma resolve_item_touches item b w :
  P (row_name item) ->
  touches P w (snd (_resolve_address_for_item E item b w)).
Proof.
  intros HP. unfold _resolve_address_for_item. rewrite bind_eq.
  eapply touches_trans; [apply note_resolve_touches, HP|].
  destruct b; cbn [negb]; rewrite bind_eq.
  - eapply touches_trans; [apply resolver_touches, HP|]. apply touches_refl.
  - eapply touches_trans; [apply cache_get_touches, HP|].
    match goal with
    | |- context [if ?c then _ else _] => destruct c
    end; apply touches_refl.
Qed.

End TouchFacts.

(** ** One category group *)

Lemma omap_keys_sublist {X Y K : Type} (f : X -> option Y)
    (ky : Y -> K) (kx : X -> K) (l : list X) :
  (forall x y, f x = Some y -> ky y = kx x) ->
  (ky <$> omap f l) `sublist_of` (kx <$> l).
Proof.
  intros Hk. induction l as [|x l IH]; [constructor|].
  simpl. destruct (f x) as [y|] eqn:Hf.
  - simpl. rewrite (Hk x y Hf). apply sublist_skip, IH.
  - apply sublist_cons, IH.
Qed.

Lemma enrich_one_fields regions_set only t r tr o :
  enrich_one regions_set only t r tr = Some o ->
  rep_type o = t /\ rep_name o = row_name r /\ rep_url o = row_url r
  /\ rep_address o = tr.1.2
  /\ rep_branch o = (if tr.2 then BRANCH_TAG else [])
  /\ rep_region o =
     or_else tr.1.1
       (if truthy tr.1.2 && negb (is_korea_address tr.1.2)
        then OVERSEAS else []).
Proof.
  destruct tr as [[region_final addr] branch_kr]. unfold enrich_one.
  destruct (only && negb branch_kr); [discriminate|].
  destruct (negb (accept_region regions_set region_final addr));
    [discriminate|].
  intros [= <-]. repeat split.
Qed.

(** Without filters every item is accepted. *)
Lemma enrich_one_unfiltered t r tr :
  is_Some (enrich_one ∅ false t r tr).
Proof.
  destruct tr as [[region_final addr] branch_kr]. unfold enrich_one.
  cbn [andb]. unfold accept_region.
  rewrite bool_decide_eq_true_2 by reflexivity. cbn [negb]. eexists. reflexivity.
Qed.

Section GroupFacts.

Context (E : env).

Lemma split_cached_cons need r uniq w :
  split_cached E need (r :: uniq) w =
  let c := cache_get E (row_name r) w in
  let rest := split_cached E need uniq (snd c) in
  (match fst c with
   | Some addr =>
       if negb need || truthy addr
       then ((r, classify_cached (row_name r) addr) :: (fst rest).1,
             (fst rest).2)
       else ((fst rest).1, r :: (fst rest).2)
   | None => ((fst rest).1, r :: (fst rest).2)
   end, snd rest).
Proof.
  cbn [split_cached]. rewrite !bind_eq. cbv zeta.
  destruct (split_cached E need uniq (snd (cache_get E (row_name r) w)))
    as [[prebuilt to_resolve] w'].
  cbn [fst snd].
  destruct (fst (cache_get E (row_name r) w)) as [addr|];
    [destruct (negb need || truthy addr)|]; reflexivity.
Qed.

(** [prebuilt] and [to_resolve] share out the de-duplicated rows. *)
Lemma split_cached_perm need uniq : forall w,
  (fst (split_cached E need uniq w)).1.*1
  ++ (fst (split_cached E need uniq w)).2 ≡ₚ uniq.
Proof.
  induction uniq as [|r uniq IH]; intros w; [reflexivity|].
  rewrite split_cached_cons. cbv zeta. cbn [fst].
  specialize (IH (snd (cache_get E (row_name r) w))).
  destruct (fst (cache_get E (row_name r) w)) as [addr|];
    [destruct (negb need || truthy addr)|]; cbn [fst snd].
  - rewrite fmap_cons. cbn [fst]. simpl. constructor. exact IH.
  - rewrite <- Permutation_middle. constructor. exact IH.
  - rewrite <- Permutation_middle. constructor. exact IH.
Qed.

Lemma split_cached_to_resolve_sublist need uniq : forall w,
  (fst (split_cached E need uniq w)).2 `sublist_of` uniq.
Proof.
  induction uniq as [|r uniq IH]; intros w; [constructor|].
  rewrite split_cached_cons. cbv zeta. cbn [fst].
  specialize (IH (snd (cache_get E (row_name r) w))).
  destruct (fst (cache_get E (row_name r) w)) as [addr|];
    [destruct (negb need || truthy addr)|]; cbn [fst snd].
  - apply sublist_cons, IH.
  - apply sublist_skip, IH.
  - apply sublist_skip, IH.
Qed.

Lemma split_cached_touches P need uniq : forall w,
  Forall (fun r => P (row_name r)) uniq ->
  touches P w (snd (split_cached E need uniq w)).
Proof.
  induction uniq as [|r uniq IH]; intros w Hall; [apply touches_refl|].
  rewrite split_cached_cons. cbv zeta. cbn [snd].
  apply Forall_cons in Hall as [Hr Hall].
  eapply touches_trans; [apply cache_get_touches, Hr|]. apply IH, Hall.
Qed.

Lemma split_cached_resolve_log need uniq : forall w,
  resolve_log (snd (split_cached E need uniq w)) = resolve_log w.
Proof.
  induction uniq as [|r uniq IH]; intros w; [reflexivity|].
  rewrite split_cached_cons. cbv zeta. cbn [snd].
  rewrite IH, cache_get_eq. reflexivity.
Qed.

Lemma resolver_resolve_log name w :
  resolve_log (snd (get_company_address_from_google E name w))
  = resolve_log w.
Proof.
  unfold get_company_address_from_google.
  destruct (truthy name); cbn [negb]; [|reflexivity].
  rewrite bind_eq.
  destruct (fst (cache_get E name w)) as [a|].
  - rewrite cache_get_eq. reflexivity.
  - rewrite bind_eq, bind_eq, cache_put_eq. cbn [snd ret resolve_log].
    match goal with
    | |- context [query_loop E ?qs ?a ?w0] =>
        destruct (query_loop_world E qs a w0) as (sent & -> & _)
    end.
    rewrite cache_get_eq. reflexivity.
Qed.

Lemma resolve_item_resolve_log item b w :
  resolve_log (snd (_resolve_address_for_item E item b w))
  = resolve_log w ++ [(row_name item, b)].
Proof.
  unfold _resolve_address_for_item. rewrite bind_eq.
  destruct b; cbn [negb]; rewrite bind_eq.
  - cbn [snd ret]. rewrite resolver_resolve_log. reflexivity.
  - match goal with
    | |- context [if ?c then _ else _] => destruct c
    end; cbn [snd ret]; rewrite cache_get_eq; reflexivity.
Qed.

Lemma resolve_each_cons b r rest results_map w :
  resolve_each E b (r :: rest) results_map w =
  resolve_each E b rest
    (<[row_name r := fst (_resolve_address_for_item E r b w)]> results_map)
    (snd (_resolve_address_for_item E r b w)).
Proof. cbn [resolve_each]. rewrite bind_eq. reflexivity. Qed.

Lemma resolve_each_resolve_log b to_resolve : forall results_map w,
  resolve_log (snd (resolve_each E b to_resolve results_map w))
  = resolve_log w ++ ((fun r => (row_name r, b)) <$> to_resolve).
Proof.
  induction to_resolve as [|r rest IH]; intros results_map w.
  - simpl. rewrite app_nil_r. reflexivity.
  - rewrite resolve_each_cons, IH, resolve_item_resolve_log.
    rewrite <- app_assoc. reflexivity.
Qed.

Lemma resolve_each_touches P b to_resolve : forall results_map w,
  Forall (fun r => P (row_name r)) to_resolve ->
  touches P w (snd (resolve_each E b to_resolve results_map w)).
Proof.
  induction to_resolve as [|r rest IH]; intros results_map w Hall;
    [apply touches_refl|].
  rewrite resolve_each_cons. apply Forall_cons in Hall as [Hr Hall].
  eapply touches_trans; [apply resolve_item_touches, Hr|]. apply IH, Hall.
Qed.

(** [process_group], step by step. *)
Lemma process_group_eq regions_set need only per_type t arr w :
  process_group E regions_set need only per_type t arr w =
  let sp := split_cached E need (uniq_loop arr ∅) w in
  let rs := resolve_each E need (fst sp).2 ∅ (snd sp) in
  (take (Z.to_nat (Z.max 1 per_type))
     (enrich_prebuilt regions_set only t (fst sp).1
      ++ enrich_resolved regions_set only t (fst sp).2 (fst rs)),
   snd rs).
Proof.
  unfold process_group. rewrite bind_eq. cbv zeta.
  destruct (split_cached E need (uniq_loop arr ∅) w)
    as [[prebuilt to_resolve] w1].
  cbn [fst snd]. rewrite bind_eq.
  destruct need; reflexivity.
Qed.

End GroupFacts.

Section GroupRows.

Context (E : env) (regions_set : gset str) (need only : bool)
        (per_type : Z).

Local Abbreviation group := (process_group E regions_set need only per_type).

(** Every row a group reports comes from a de-duplicated row of it. *)
Lemma process_group_source t arr w o :
  o ∈ fst (group t arr w) ->
  rep_type o = t
  /\ exists r, r ∈ uniq_loop arr ∅
               /\ rep_name o = row_name r /\ rep_url o = row_url r.
Proof.
  rewrite process_group_eq. cbv zeta. cbn [fst].
  set (sp := split_cached E need (uniq_loop arr ∅) w).
  set (rs := resolve_each E need (fst sp).2 ∅ (snd sp)).
  intros Ho. pose proof (elem_of_sublist _ _ _ Ho (sublist_take _ _)) as Ho'.
  clear Ho.
  assert (Hsrc : forall r, r ∈ (fst sp).1.*1 ++ (fst sp).2 ->
                           r ∈ uniq_loop arr ∅).
  { intros r Hr. unfold sp in Hr. rewrite split_cached_perm in Hr. exact Hr. }
  apply elem_of_app in Ho' as [Ho|Ho];
    apply list_elem_of_omap in Ho as (x & Hx & Hone);
    apply enrich_one_fields in Hone as (Ht & Hn & Hu & _).
  - split; [exact Ht|]. exists x.1. repeat split; try assumption.
    apply Hsrc, elem_of_app. left. apply list_elem_of_fmap_2, Hx.
  - split; [exact Ht|]. exists x. repeat split; try assumption.
    apply Hsrc, elem_of_app. right. exact Hx.
Qed.

Lemma process_group_length t arr w :
  length (fst (group t arr w)) <= cap per_type.
Proof.
  rewrite process_group_eq. cbv zeta. cbn [fst].
  rewrite length_take. apply Nat.le_min_l.
Qed.

(** The rows a group reports have distinct keys. *)
Lemma process_group_NoDup t arr w :
  NoDup (rep_key <$> fst (group t arr w)).
Proof.
  rewrite process_group_eq. cbv zeta. cbn [fst].
  set (sp := split_cached E need (uniq_loop arr ∅) w).
  set (rs := resolve_each E need (fst sp).2 ∅ (snd sp)).
  eapply sublist_NoDup; [|apply fmap_sublist, sublist_take].
  rewrite fmap_app.
  eapply sublist_NoDup;
    [|apply sublist_app;
      [apply (omap_keys_sublist _ rep_key (trimmed ∘ fst))
      |apply (omap_keys_sublist _ rep_key trimmed)]].
  - rewrite (list_fmap_compose fst trimmed), <- fmap_app.
    unfold sp. rewrite split_cached_perm. apply uniq_loop_NoDup.
  - intros x o Hone. apply enrich_one_fields in Hone as (_ & Hn & _).
    unfold rep_key, trimmed. rewrite Hn. reflexivity.
  - intros x o Hone. apply enrich_one_fields in Hone as (_ & Hn & _).
    unfold rep_key, trimmed. rewrite Hn. reflexivity.
Qed.

(** A group consults nothing about a blank name. *)
Lemma process_group_touches t arr w :
  touches (fun n => strip n <> []) w (snd (group t arr w)).
Proof.
  rewrite process_group_eq. cbv zeta. cbn [snd].
  assert (Huniq : Forall (fun r => strip (row_name r) <> [])
                         (uniq_loop arr ∅)).
  { apply Forall_forall. intros r Hr.
    apply uniq_loop_keys in Hr as [Hne _]. exact Hne. }
  eapply touches_trans; [apply split_cached_touches, Huniq|].
  apply resolve_each_touches. apply Forall_forall. intros r Hr.
  rewrite Forall_forall in Huniq. apply Huniq.
  eapply elem_of_sublist; [exact Hr|apply split_cached_to_resolve_sublist].
Qed.

(** The resolver calls of a group: one per row of [to_resolve], whose
    keys are distinct. *)
Lemma process_group_resolve_log t arr w :
  exists calls,
    resolve_log (snd (group t arr w)) = resolve_log w ++ calls
    /\ NoDup ((fun e => strip e.1) <$> calls)
    /\ (forall e, e ∈ calls -> exists r, r ∈ arr /\ e.1 = row_name r).
Proof.
  rewrite process_group_eq. cbv zeta. cbn [snd].
  set (sp := split_cached E need (uniq_loop arr ∅) w).
  exists ((fun r => (row_name r, need)) <$> (fst sp).2).
  rewrite resolve_each_resolve_log. unfold sp at 1.
  rewrite split_cached_resolve_log. split; [reflexivity|]. split.
  - rewrite <- list_fmap_compose.
    eapply sublist_NoDup; [apply (uniq_loop_NoDup arr ∅)|].
    apply fmap_sublist. apply split_cached_to_resolve_sublist.
  - intros e He. apply list_elem_of_fmap in He as (r & -> & Hr).
    exists r. split; [|reflexivity].
    eapply elem_of_sublist; [|apply (uniq_loop_sublist arr ∅)].
    eapply elem_of_sublist; [exact Hr|].
    apply split_cached_to_resolve_sublist.
Qed.

(** *** All groups *)

Local Abbreviation groups := (groups_loop E regions_set need only per_type).

Lemma groups_loop_cons t arr grouped w :
  groups ((t, arr) :: grouped) w =
  (fst (group t arr w) ++ fst (groups grouped (snd (group t arr w))),
   snd (groups grouped (snd (group t arr w)))).
Proof.
  cbn [groups_loop]. rewrite !bind_eq. reflexivity.
Qed.

Lemma groups_loop_source grouped : forall w o,
  o ∈ fst (groups grouped w) ->
  exists arr r, (rep_type o, arr) ∈ grouped /\ r ∈ uniq_loop arr ∅
                /\ rep_name o = row_name r /\ rep_url o = row_url r.
Proof.
  induction grouped as [|[t arr] grouped IH]; intros w o Ho.
  - inversion Ho.
  - rewrite groups_loop_cons in Ho. cbn [fst] in Ho.
    apply elem_of_app in Ho as [Ho|Ho].
    + apply process_group_source in Ho as (<- & r & Hr & Hn & Hu).
      exists arr, r. repeat split; try assumption. left.
    + apply IH in Ho as (arr' & r & Hg & Hr & Hn & Hu).
      exists arr', r. repeat split; try assumption. right. exact Hg.
Qed.

Lemma groups_loop_count grouped c : forall w,
  NoDup grouped.*1 ->
  rows_of_type c (fst (groups grouped w)) <= cap per_type.
Proof.
  unfold rows_of_type.
  induction grouped as [|[t arr] grouped IH]; intros w Hnd.
  - simpl. lia.
  - rewrite fmap_cons in Hnd. apply NoDup_cons in Hnd as [Ht Hnd].
    cbn [fst] in Ht.
    rewrite groups_loop_cons. cbn [fst]. rewrite filter_app, length_app.
    destruct (decide (t = c)) as [->|Hne].
    + assert (Hrest : filter (fun o => rep_type o = c)
                        (fst (groups grouped (snd (group c arr w)))) = []).
      { apply filter_none. intros o Ho Hc.
        apply groups_loop_source in Ho as (arr' & _ & Hg & _).
        apply Ht. rewrite <- Hc.
        apply (list_elem_of_fmap_2 fst) in Hg. exact Hg. }
      rewrite Hrest. simpl. rewrite Nat.add_0_r.
      etransitivity; [apply length_filter|]. apply process_group_length.
    + assert (Hhere : filter (fun o => rep_type o = c)
                        (fst (group t arr w)) = []).
      { apply filter_none. intros o Ho Hc.
        apply process_group_source in Ho as [Hto _]. congruence. }
      rewrite Hhere. simpl. apply IH, Hnd.
Qed.

Lemma groups_loop_NoDup grouped : forall w,
  NoDup grouped.*1 ->
  NoDup ((fun o => (rep_type o, rep_key o)) <$> fst (groups grouped w)).
Proof.
  induction grouped as [|[t arr] grouped IH]; intros w Hnd.
  - constructor.
  - rewrite fmap_cons in Hnd. apply NoDup_cons in Hnd as [Ht Hnd].
    cbn [fst] in Ht.
    rewrite groups_loop_cons. cbn [fst]. rewrite fmap_app.
    apply NoDup_app. repeat split; [| |apply IH, Hnd].
    + apply (NoDup_fmap_1 snd). rewrite <- list_fmap_compose.
      apply process_group_NoDup.
    + intros x Hx Hx'.
      apply list_elem_of_fmap in Hx as (o & -> & Ho).
      apply list_elem_of_fmap in Hx' as (o' & Heq & Ho').
      apply process_group_source in Ho as [Hto _].
      apply groups_loop_source in Ho' as (arr' & _ & Hg & _).
      apply Ht. injection Heq as Heq _. rewrite <- Hto, Heq.
      apply (list_elem_of_fmap_2 fst) in Hg. exact Hg.
Qed.

Lemma groups_loop_touches grouped : forall w,
  touches (fun n => strip n <> []) w (snd (groups grouped w)).
Proof.
  induction grouped as [|[t arr] grouped IH]; intros w;
    [apply touches_refl|].
  rewrite groups_loop_cons. cbn [snd].
  eapply touches_trans; [apply process_group_touches|]. apply IH.
Qed.

Lemma groups_loop_resolve_log grouped : forall w,
  exists per_group,
    resolve_log (snd (groups grouped w)) = resolve_log w ++ concat per_group
    /\ Forall2 (fun g calls =>
                  NoDup ((fun e => strip e.1) <$> calls)
                  /\ forall e, e ∈ calls ->
                       exists r, r ∈ g.2 /\ e.1 = row_name r)
               grouped per_group.
Proof.
  induction grouped as [|[t arr] grouped IH]; intros w.
  - exists []. simpl. rewrite app_nil_r. split; [reflexivity|constructor].
  - rewrite groups_loop_cons. cbn [snd].
    destruct (process_group_resolve_log t arr w) as (calls & Hlog & Hnd & Hin).
    destruct (IH (snd (group t arr w))) as (per_group & Hlog' & Hall).
    exists (calls :: per_group). rewrite Hlog', Hlog. simpl.
    rewrite <- app_assoc. split; [reflexivity|].
    constructor; [split; assumption|exact Hall].
Qed.

End GroupRows.

(** ** The whole run *)

Lemma filter_and_enrich_eq E rows pick_types per_type filter_regions only :
  filter_and_enrich E rows pick_types per_type filter_regions only =
  groups_loop E (list_to_set filter_regions)
    (negb (bool_decide (list_to_set filter_regions = (∅ : gset str))) || only)
    only per_type
    (group_rows (list_to_set (List.map _normalize_cat pick_types)) rows []).
Proof. reflexivity. Qed.

Lemma wanted_cat_pick (pick_types : list str) (c : str) :
  pick_types = [] \/ c ∈ List.map _normalize_cat pick_types ->
  wanted_cat (list_to_set (List.map _normalize_cat pick_types)) c.
Proof.
  intros [->|Hin]; [left; reflexivity|]. right.
  apply elem_of_list_to_set. exact Hin.
Qed.

Lemma filter_all {A : Type} (P : A -> Prop) `{!forall x, Decision (P x)}
    (l : list A) :
  (forall x, x ∈ l -> P x) -> filter P l = l.
Proof.
  induction l as [|a l IH]; intros Hall; [reflexivity|].
  rewrite filter_cons, decide_True by (apply Hall; left).
  f_equal. apply IH. intros x Hx. apply Hall. right. exact Hx.
Qed.

Lemma omap_total_length {X Y : Type} (f : X -> option Y) (l : list X) :
  (forall x, is_Some (f x)) -> length (omap f l) = length l.
Proof.
  intros Hf. induction l as [|x l IH]; [reflexivity|].
  change (omap f (x :: l))
    with (match f x with Some y => y :: omap f l | None => omap f l end).
  destruct (Hf x) as [y ->]. cbn [length]. rewrite IH. reflexivity.
Qed.

(** Without region or branch filter a group reports every de-duplicated
    row, up to the cap. *)
Lemma process_group_unfiltered_length E per_type t arr w :
  length (fst (process_group E ∅ false false per_type t arr w))
  = Nat.min (cap per_type) (length (uniq_loop arr ∅)).
Proof.
  rewrite process_group_eq. cbv zeta. cbn [fst].
  rewrite length_take. fold (cap per_type). f_equal.
  rewrite length_app. unfold enrich_prebuilt, enrich_resolved.
  rewrite !omap_total_length by (intros x; apply enrich_one_unfiltered).
  rewrite <- (length_fmap fst), <- length_app.
  apply Permutation_length, split_cached_perm.
Qed.

(** C2, as amended.  With [per_type >= 1] no category has more than
    [per_type] rows in the report, whatever the input and the filters; and
    ten rows of one wanted category whose names are non-blank and pairwise
    distinct once stripped give, with [per_type = 3] and no region or
    branch filter, exactly three rows of that category. *)
Theorem per_type_cap
    (E : env) (rows : list row) (pick_types filter_regions : list str)
    (per_type : Z) (only : bool) (w : world) (c0 : str)
    (E' : env) (rows10 : list row) (pick_types' : list str) (w' : world)
    (c : str)
    (Hlimit : (1 <= per_type)%Z)
    (Hten : length rows10 = 10)
    (Hcat : forall r, r ∈ rows10 -> cat_of r = c)
    (Hwanted : pick_types' = [] \/ c ∈ List.map _normalize_cat pick_types')
    (Hdistinct : NoDup (trimmed <$> rows10))
    (Hnonblank : forall r, r ∈ rows10 -> trimmed r <> []) :
  rows_of_type c0
    (fst (filter_and_enrich E rows pick_types per_type filter_regions only w))
  <= Z.to_nat per_type
  /\ rows_of_type c
       (fst (filter_and_enrich E' rows10 pick_types' 3 [] false w')) = 3.
Proof.
  split.
  - rewrite filter_and_enrich_eq.
    replace (Z.to_nat per_type) with (cap per_type)
      by (unfold cap; rewrite Z.max_r by exact Hlimit; reflexivity).
    apply groups_loop_count.
    apply (group_rows_spec
             (list_to_set (List.map _normalize_cat pick_types)) rows).
  - rewrite filter_and_enrich_offline.
    apply wanted_cat_pick in Hwanted.
    destruct rows10 as [|r0 rest]; [discriminate|].
    assert (Hgroups :
      group_rows (list_to_set (List.map _normalize_cat pick_types'))
        (r0 :: rest) [] = [(c, r0 :: rest)]).
    { cbn [group_rows]. fold (cat_of r0). rewrite (Hcat r0) by left.
      assert (Hc : negb (bool_decide
                           (list_to_set (List.map _normalize_cat pick_types')
                            = (∅ : gset str)))
                   && negb (bool_decide
                              (c ∈ (list_to_set
                                      (List.map _normalize_cat pick_types')
                                    : gset str))) = false).
      { destruct Hwanted as [Hw|Hw].
        - rewrite (bool_decide_eq_true_2 _ Hw). reflexivity.
        - rewrite (bool_decide_eq_true_2 _ Hw). apply andb_false_r. }
      rewrite Hc. cbn [setdefault_append].
      rewrite (group_rows_single _ c rest [r0] Hwanted); [reflexivity|].
      intros r Hr. apply Hcat. right. exact Hr. }
    rewrite Hgroups. cbn [groups_loop]. rewrite !bind_eq. cbn [fst ret].
    rewrite app_nil_r. unfold rows_of_type.
    rewrite filter_all.
    + rewrite process_group_unfiltered_length.
      rewrite uniq_loop_id; [rewrite Hten; reflexivity|exact Hdistinct|].
      intros r Hr. split; [apply Hnonblank, Hr|set_solver].
    + intros o Ho. apply process_group_source in Ho as [Ht _]. exact Ht.
Qed.

Lemma per_type_cap_witness :
  rows_of_type (U "SW")
    (fst (filter_and_enrich env_offline twice_listed_rows [] 1 [OVERSEAS]
            false fresh_world))
  <= Z.to_nat 1
  /\ rows_of_type (U "Fabless")
       (fst (filter_and_enrich env_offline ten_rows [] 3 [] false
               fresh_world)) = 3.
Proof.
  apply (per_type_cap env_offline twice_listed_rows [] [OVERSEAS] 1 false
           fresh_world (U "SW")
           env_offline ten_rows [] fresh_world (U "Fabless")).
  - lia.
  - reflexivity.
  - apply Forall_forall. by_computation.
  - left. reflexivity.
  - by_computation.
  - apply Forall_forall. by_computation.
Defined.

(** C2, as stated, fails: ten names that are pairwise different strings,
    one category, [per_type = 3], no region or branch filter, and a single
    row comes out, because the names are compared after stripping. *)
Lemma padded_names_one_row :
  length padded_rows = 10
  /\ NoDup (row_name <$> padded_rows)
  /\ Forall (fun r => cat_of r = U "Fabless") padded_rows
  /\ rows_of_type (U "Fabless")
       (fst (filter_and_enrich env_offline padded_rows [] 3 [] false
               fresh_world)) = 1.
Proof.
  split; [reflexivity|]. split; [|split].
  - by_computation.
  - by_computation.
  - vm_compute. reflexivity.
Qed.

(** C6, as amended.  In the report no two rows of one category have the
    same stripped name; every reported row is the first row of the input
    with its category and stripped name; and the resolver calls of a run
    split into one batch per category group, in which no name occurs
    twice (so a name listed under several categories is resolved at most
    once for each of them). *)
Theorem duplicates_collapse_per_category
    (E : env) (rows : list row) (pick_types filter_regions : list str)
    (per_type : Z) (only : bool) (w : world) :
  let res :=
    filter_and_enrich E rows pick_types per_type filter_regions only w in
  let grouped :=
    group_rows (list_to_set (List.map _normalize_cat pick_types)) rows [] in
  NoDup ((fun o => (rep_type o, rep_key o)) <$> fst res)
  /\ (forall o, o ∈ fst res ->
        exists l1 r l2,
          rows = l1 ++ r :: l2
          /\ cat_of r = rep_type o
          /\ row_name r = rep_name o /\ row_url r = rep_url o
          /\ forall r', r' ∈ l1 -> cat_of r' = rep_type o ->
                        trimmed r' <> trimmed r)
  /\ exists per_group,
       resolve_log (snd res) = resolve_log w ++ concat per_group
       /\ Forall2 (fun g calls =>
                     NoDup ((fun e => strip e.1) <$> calls)
                     /\ forall e, e ∈ calls ->
                          exists r, r ∈ g.2 /\ e.1 = row_name r)
                  grouped per_group.
Proof.
  intros res grouped. subst res. rewrite filter_and_enrich_eq.
  fold grouped.
  pose proof (group_rows_spec
                (list_to_set (List.map _normalize_cat pick_types)) rows)
    as (Hnd & Harr & _ & _).
  fold grouped in Hnd, Harr.
  split; [apply groups_loop_NoDup, Hnd|]. split.
  - intros o Ho.
    apply groups_loop_source in Ho as (arr & r & Hg & Hr & Hn & Hu).
    apply Harr in Hg.
    destruct (uniq_loop_first _ _ _ Hr) as (l1 & l2 & Harr12 & Hfirst).
    rewrite Hg in Harr12.
    destruct (filter_split _ _ _ _ _ Harr12) as (L1 & L2 & -> & Hl1).
    exists L1, r, L2. repeat split; try congruence.
    + assert (Hin : r ∈ filter (fun r0 => cat_of r0 = rep_type o)
                          (L1 ++ r :: L2)).
      { rewrite Harr12. apply elem_of_app. right. left. }
      apply list_elem_of_filter in Hin as [Hc _]. exact Hc.
    + intros r' Hr' Hc. apply Hfirst. rewrite <- Hl1.
      apply list_elem_of_filter. split; assumption.
  - apply groups_loop_resolve_log.
Qed.

(** C6, as stated, fails: here a company listed under two categories is
    handed to the resolver once for each, the first lookup having found no
    address; and when the store is out of order it is looked up on the
    network once for each as well. *)
Lemma twice_listed_resolved_twice :
  resolve_log
    (snd (filter_and_enrich env_offline twice_listed_rows [] 5 [OVERSEAS]
            false fresh_world))
  = [(U "Acme", true); (U "Acme", true)]
  /\ net_log
       (snd (filter_and_enrich env_broken_store twice_listed_rows [] 5
               [OVERSEAS] false fresh_world))
     = [U "Acme 주소"; U "Acme Korea address";
        U "Acme 주소"; U "Acme Korea address"].
Proof. split; vm_compute; reflexivity. Qed.

(** When the first lookup finds an address and the store keeps it, the
    second category takes it from the cache: one resolver call, one
    request. *)
Example twice_listed_found_once :
  let w' :=
    snd (filter_and_enrich env_found twice_listed_rows [] 5 [SEOUL] false
           fresh_world) in
  resolve_log w' = [(U "Acme", true)] /\ net_log w' = [U "Acme 주소"].
Proof. vm_compute. split; reflexivity. Qed.

Lemma queries_of_inj n n' q :
  q ∈ queries_of n -> q ∈ queries_of n' -> n = n'.
Proof.
  assert (H1 : U " 주소" = [32%N; 51452%N] ++ [49548%N]) by reflexivity.
  assert (H2 : U " Korea address" = U " Korea addres" ++ [115%N])
    by reflexivity.
  unfold queries_of, cat. intros Hq Hq'.
  apply elem_of_cons in Hq as [->|Hq];
    [|apply list_elem_of_singleton in Hq as ->];
    (apply elem_of_cons in Hq' as [Hq'|Hq'];
     [|apply list_elem_of_singleton in Hq']).
  - apply app_inv_tail in Hq'. exact Hq'.
  - rewrite H1, H2, !app_assoc in Hq'.
    apply app_inj_tail in Hq' as [_ Hc]. discriminate.
  - rewrite H1, H2, !app_assoc in Hq'.
    apply app_inj_tail in Hq' as [_ Hc]. discriminate.
  - apply app_inv_tail in Hq'. exact Hq'.
Qed.

(** C10.  A row whose name is empty or all white space is dropped by the
    de-duplication, whatever the filters: no row of the report carries its
    name, and the run sends no store statement, makes no resolver call and
    sends no request for that name. *)
Theorem blank_name_dropped
    (E : env) (rows : list row) (pick_types filter_regions : list str)
    (per_type : Z) (only : bool) (w : world) (r : row)
    (Hr : r ∈ rows)
    (Hblank : strip (row_name r) = []) :
  let res :=
    filter_and_enrich E rows pick_types per_type filter_regions only w in
  (forall o, o ∈ fst res -> rep_name o <> row_name r)
  /\ exists dl rl nl,
       db_log (snd res) = db_log w ++ dl
       /\ resolve_log (snd res) = resolve_log w ++ rl
       /\ net_log (snd res) = net_log w ++ nl
       /\ Forall (fun op => op_name op <> row_name r) dl
       /\ Forall (fun e => e.1 <> row_name r) rl
       /\ Forall (fun q => q ∉ queries_of (row_name r)) nl.
Proof.
  intros res. subst res. rewrite filter_and_enrich_eq. split.
  - intros o Ho Heq.
    apply groups_loop_source in Ho as (arr & r0 & _ & Hr0 & Hn & _).
    apply uniq_loop_keys in Hr0 as [Hne _]. apply Hne.
    unfold trimmed. rewrite <- Hn, Heq. exact Hblank.
  - match goal with
    | |- context [groups_loop E ?rs ?nd only per_type ?g w] =>
        destruct (groups_loop_touches E rs nd only per_type g w)
          as (dl & rl & nl & Hd & Hrl & Hn & Fd & Fr & Fn)
    end.
    exists dl, rl, nl. repeat split; try assumption.
    + eapply Forall_impl; [exact Fd|]. cbv beta. intros op Hop Heq.
      apply Hop. rewrite Heq. exact Hblank.
    + eapply Forall_impl; [exact Fr|]. cbv beta. intros e He Heq.
      apply He. rewrite Heq. exact Hblank.
    + eapply Forall_impl; [exact Fn|]. cbv beta.
      intros q (n & Hn' & Hq) Hq'.
      apply Hn'. rewrite (queries_of_inj _ _ _ Hq Hq'). exact Hblank.
Qed.

Lemma blank_name_dropped_witness :
  let r := Row (U "Fabless") (U "  ") (U "https://blank.example") in
  let res :=
    filter_and_enrich env_offline rows_with_blank [] 5 [OVERSEAS] false
      fresh_world in
  (forall o, o ∈ fst res -> rep_name o <> row_name r)
  /\ exists dl rl nl,
       db_log (snd res) = db_log fresh_world ++ dl
       /\ resolve_log (snd res) = resolve_log fresh_world ++ rl
       /\ net_log (snd res) = net_log fresh_world ++ nl
       /\ Forall (fun op => op_name op <> row_name r) dl
       /\ Forall (fun e => e.1 <> row_name r) rl
       /\ Forall (fun q => q ∉ queries_of (row_name r)) nl.
Proof.
  apply (blank_name_dropped env_offline rows_with_blank [] [OVERSEAS] 5
           false fresh_world
           (Row (U "Fabless") (U "  ") (U "https://blank.example"))).
  - unfold rows_with_blank. right. left.
  - vm_compute. reflexivity.
Defined.

(** ** No lookup wanted: items the cache does not know *)

Lemma or_else_nil_r s : or_else s [] = s.
Proof. destruct s; reflexivity. Qed.

Section OfflineFacts.

Context (E : env).

Lemma resolve_item_offline_absent item w :
  db w !! row_name item = None ->
  fst (_resolve_address_for_item E item false w) = hint_only (row_name item).
Proof.
  intros Habs. unfold _resolve_address_for_item. cbn [negb].
  rewrite bind_eq. rewrite bind_eq.
  rewrite cache_get_absent by exact Habs.
  change (negb (truthy [])) with true. cbn [andb]. unfold hint_only.
  destruct (quick_is_korea_name (row_name item)); reflexivity.
Qed.

(** What [prebuilt] holds was found in the cache. *)
Lemma split_cached_known need uniq : forall w p,
  p ∈ (fst (split_cached E need uniq w)).1 ->
  db w !! row_name p.1 <> None.
Proof.
  induction uniq as [|r uniq IH]; intros w p Hp.
  - inversion Hp.
  - rewrite split_cached_cons in Hp. cbv zeta in Hp. cbn [fst] in Hp.
    assert (Hrest : p ∈ (fst (split_cached E need uniq
                                (snd (cache_get E (row_name r) w)))).1 ->
                    db w !! row_name p.1 <> None).
    { intros Hin. apply IH in Hin. rewrite cache_get_eq in Hin. exact Hin. }
    destruct (fst (cache_get E (row_name r) w)) as [addr|] eqn:Hget;
      [destruct (negb need || truthy addr)|]; cbn [fst] in Hp;
      try (apply Hrest, Hp).
    apply elem_of_cons in Hp as [->|Hp]; [|apply Hrest, Hp].
    cbn [fst]. rewrite cache_get_eq in Hget. cbn [fst] in Hget.
    destruct (db_fault E _); [discriminate|].
    intros Hnone. rewrite Hnone in Hget. discriminate.
Qed.

(** What the plain loop leaves in [results_map] for a name the cache does
    not know. *)
Lemma resolve_each_offline_map to_resolve : forall results_map w n,
  db w !! n = None ->
  fst (resolve_each E false to_resolve results_map w) !! n =
  if decide (n ∈ row_name <$> to_resolve) then Some (hint_only n)
  else results_map !! n.
Proof.
  induction to_resolve as [|r rest IH]; intros results_map w n Habs.
  - cbn [resolve_each]. unfold ret. cbn [fst].
    rewrite decide_False by (intros Hc; inversion Hc). reflexivity.
  - rewrite resolve_each_cons.
    destruct (resolve_item_offline_quiet E r w) as [Hdb _].
    rewrite IH by (rewrite Hdb; exact Habs).
    rewrite fmap_cons.
    destruct (decide (n ∈ row_name <$> rest)) as [Hin|Hnin].
    + rewrite decide_True by (right; exact Hin). reflexivity.
    + destruct (decide (n = row_name r)) as [->|Hne].
      * rewrite decide_True by left. rewrite lookup_insert_eq.
        rewrite resolve_item_offline_absent by exact Habs. reflexivity.
      * rewrite decide_False.
        -- rewrite lookup_insert_ne by congruence. reflexivity.
        -- intros Hc. apply elem_of_cons in Hc as [Hc|Hc]; contradiction.
Qed.

Lemma process_group_offline_unknown per_type t arr w o :
  o ∈ fst (process_group E ∅ false false per_type t arr w) ->
  db w !! rep_name o = None ->
  rep_address o = (hint_only (rep_name o)).1.2
  /\ rep_branch o = (if (hint_only (rep_name o)).2 then BRANCH_TAG else [])
  /\ rep_region o = (hint_only (rep_name o)).1.1.
Proof.
  rewrite process_group_eq. cbv zeta. cbn [fst].
  set (sp := split_cached E false (uniq_loop arr ∅) w).
  intros Ho Habs.
  pose proof (elem_of_sublist _ _ _ Ho (sublist_take _ _)) as Ho'. clear Ho.
  apply elem_of_app in Ho' as [Ho|Ho];
    apply list_elem_of_omap in Ho as (x & Hx & Hone).
  - exfalso. apply enrich_one_fields in Hone as (_ & Hn & _).
    apply (split_cached_known false (uniq_loop arr ∅) w x Hx).
    rewrite <- Hn. exact Habs.
  - pose proof (enrich_one_fields _ _ _ _ _ _ Hone) as (_ & Hn & _).
    destruct (split_cached_quiet E false (uniq_loop arr ∅) w) as [Hdb _].
    fold sp in Hdb.
    rewrite resolve_each_offline_map in Hone
      by (rewrite Hdb, <- Hn; exact Habs).
    rewrite decide_True in Hone by (apply list_elem_of_fmap_2, Hx).
    cbn [default] in Hone. rewrite <- Hn in Hone.
    apply enrich_one_fields in Hone as (_ & _ & _ & Ha & Hb & Hr).
    split; [exact Ha|]. split; [exact Hb|]. rewrite Hr.
    unfold hint_only. destruct (quick_is_korea_name (rep_name o));
      cbn [fst snd]; change (truthy []) with false; cbn [andb];
      apply or_else_nil_r.
Qed.

Lemma groups_loop_offline_unknown per_type grouped : forall w o,
  o ∈ fst (groups_loop E ∅ false false per_type grouped w) ->
  db w !! rep_name o = None ->
  rep_address o = (hint_only (rep_name o)).1.2
  /\ rep_branch o = (if (hint_only (rep_name o)).2 then BRANCH_TAG else [])
  /\ rep_region o = (hint_only (rep_name o)).1.1.
Proof.
  induction grouped as [|[t arr] grouped IH]; intros w o Ho Habs.
  - inversion Ho.
  - rewrite groups_loop_cons in Ho. cbn [fst] in Ho.
    apply elem_of_app in Ho as [Ho|Ho].
    + eapply process_group_offline_unknown; eassumption.
    + eapply IH; [exact Ho|].
      destruct (process_group_offline_quiet E ∅ false per_type t arr w)
        as [Hdb _].
      rewrite Hdb. exact Habs.
Qed.

End OfflineFacts.

(** C7, as amended.  With no wanted region and [only_foreign_branch =
    False], a reported item for which the cache has no entry has an empty
    address, carries the branch tag exactly when its name matches the
    quick name hints, and has an empty region unless its name matches the
    hints and contains "서울", in which case the region is "서울". *)
Theorem unknown_item_hint_only
    (E : env) (rows : list row) (pick_types : list str) (per_type : Z)
    (w : world) (o : report_row)
    (Ho : o ∈ fst (filter_and_enrich E rows pick_types per_type [] false w))
    (Hunknown : db w !! rep_name o = None) :
  rep_address o = []
  /\ rep_branch o
     = (if quick_is_korea_name (rep_name o) then BRANCH_TAG else [])
  /\ rep_region o
     = (if quick_is_korea_name (rep_name o) && contains SEOUL (rep_name o)
        then SEOUL else []).
Proof.
  rewrite filter_and_enrich_offline in Ho.
  destruct (groups_loop_offline_unknown E per_type _ w o Ho Hunknown)
    as (Ha & Hb & Hr).
  rewrite Ha, Hb, Hr. unfold hint_only.
  destruct (quick_is_korea_name (rep_name o)); cbn [fst snd andb];
    repeat split.
Qed.

Lemma unknown_item_hint_only_witness :
  let o := {| rep_type := U "SW";
              rep_name := U "서울 Korea";
              rep_region := SEOUL;
              rep_address := [];
              rep_branch := BRANCH_TAG;
              rep_url := U "https://seoul.example" |} in
  rep_address o = []
  /\ rep_branch o
     = (if quick_is_korea_name (rep_name o) then BRANCH_TAG else [])
  /\ rep_region o
     = (if quick_is_korea_name (rep_name o) && contains SEOUL (rep_name o)
        then SEOUL else []).
Proof.
  apply (unknown_item_hint_only env_offline seoul_rows [] 5 fresh_world).
  - vm_compute. left.
  - vm_compute. reflexivity.
Defined.

(** ** Category normalisation *)

(** In a table whose keys are listed among their own aliases, the loop
    returns the key of the first entry with an alias equal to the label up
    to case. *)
Lemma normalize_in_first_hit tbl lab :
  Forall (fun entry => entry.1 ∈ entry.2) tbl ->
  normalize_in tbl lab =
  match List.find (alias_hit (lower lab)) tbl with
  | Some entry => entry.1
  | None => lab
  end.
Proof.
  induction 1 as [|[k aliases] tbl Hk _ IH]; [reflexivity|].
  cbn [normalize_in List.find]. unfold alias_hit at 1. cbn [fst snd] in *.
  unfold Py.eqb at 1. case_bool_decide as Hlab.
  - subst lab.
    assert (Hex : existsb (fun a => Py.eqb (lower a) (lower k)) aliases = true).
    { apply existsb_exists. exists k. split; [apply list_elem_of_In, Hk|].
      unfold Py.eqb. apply bool_decide_eq_true_2. reflexivity. }
    rewrite Hex. reflexivity.
  - destruct (existsb _ aliases); [reflexivity|exact IH].
Qed.

Lemma normalize_in_unknown tbl lab :
  Forall (fun entry =>
            lab <> entry.1
            /\ Forall (fun a => lower a <> lower lab) entry.2) tbl ->
  normalize_in tbl lab = lab.
Proof.
  induction 1 as [|[k aliases] tbl [Hk Hal] _ IH]; [reflexivity|].
  cbn [normalize_in]. cbn [fst snd] in *.
  unfold Py.eqb at 1. rewrite bool_decide_eq_false_2 by exact Hk.
  assert (Hex : existsb (fun a => Py.eqb (lower a) (lower lab)) aliases
                = false).
  { apply not_true_is_false. intros Hc.
    apply existsb_exists in Hc as (a & Ha & Heq).
    apply list_elem_of_In in Ha. rewrite Forall_forall in Hal.
    apply (Hal a Ha). unfold Py.eqb in Heq.
    apply bool_decide_eq_true_1 in Heq. exact Heq. }
  rewrite Hex. exact IH.
Qed.

Lemma cat_map_keys_listed :
  Forall (fun entry => entry.1 ∈ entry.2) THEISE_CAT_MAP.
Proof. by_computation. Qed.

(** No alias, lower-cased, is claimed by an earlier entry of the table. *)
Lemma cat_map_aliases_first :
  Forall (fun entry =>
            Forall (fun a =>
                      List.find (alias_hit (lower a)) THEISE_CAT_MAP
                      = Some entry) entry.2)
         THEISE_CAT_MAP.
Proof. by_computation. Qed.

(** C8, as amended.  A label equal, up to case and surrounding white
    space, to an alias listed for a canonical category normalises to that
    category; a label that matches no canonical name and no alias is
    returned stripped of surrounding white space (hence unchanged when it
    has none). *)
Theorem normalize_cat_aliases
    (k : str) (aliases : list str) (a label label' : str)
    (Hentry : (k, aliases) ∈ THEISE_CAT_MAP)
    (Halias : a ∈ aliases)
    (Hcase : lower (strip label) = lower a)
    (Hunknown : unknown_label (strip label')) :
  _normalize_cat label = k /\ _normalize_cat label' = strip label'.
Proof.
  unfold _normalize_cat. rewrite !or_else_nil_r. split.
  - rewrite normalize_in_first_hit by exact cat_map_keys_listed.
    rewrite Hcase.
    pose proof cat_map_aliases_first as Hfirst.
    rewrite Forall_forall in Hfirst. specialize (Hfirst _ Hentry).
    rewrite Forall_forall in Hfirst. rewrite (Hfirst a Halias). reflexivity.
  - apply normalize_in_unknown. exact Hunknown.
Qed.

Lemma normalize_cat_aliases_witness :
  _normalize_cat (U " desing HOUSE ") = U "Design house"
  /\ _normalize_cat (U "Startup") = strip (U "Startup").
Proof.
  apply (normalize_cat_aliases (U "Design house")
           [U "Design house"; U "디자인하우스"; U "Desing house"]
           (U "Desing house")).
  - by_computation.
  - by_computation.
  - vm_compute. reflexivity.
  - unfold unknown_label. by_computation.
Defined.

(** C8, as stated, fails: a label that matches nothing, with or without
    its leading blank, does not come back unchanged. *)
Lemma padded_unknown_label_is_stripped :
  unknown_label (U " foo") /\ unknown_label (strip (U " foo"))
  /\ _normalize_cat (U " foo") <> U " foo".
Proof.
  split; [unfold unknown_label; by_computation|].
  split; [unfold unknown_label; by_computation|].
  vm_compute. discriminate.
Qed.

(** ** Region labels and addresses *)

Lemma region_in_label tbl a : region_in tbl a ∈ [] :: tbl.*1.
Proof.
  induction tbl as [|[label keys] tbl IH]; cbn [region_in]; [left|].
  destruct (existsb _ keys).
  - right. left.
  - rewrite fmap_cons. apply elem_of_cons in IH as [IH|IH];
      [rewrite IH; left|right; right; exact IH].
Qed.

(** No domestic label is "해외". *)
Lemma region_not_overseas addr :
  normalize_region_from_address addr <> OVERSEAS.
Proof.
  unfold normalize_region_from_address. intros Heq.
  pose proof (region_in_label REGION_KEYWORDS (lower (or_else addr [])))
    as Hin.
  rewrite Heq in Hin. revert Hin. by_computation.
Qed.




Section LabelFacts.

Context (E : env).



(** What [prebuilt] holds was classified by the cache branch. *)
Lemma split_cached_classified need uniq : forall w p,
  p ∈ (fst (split_cached E need uniq w)).1 ->
  exists addr, p.2 = classify_cached (row_name p.1) addr.
Proof.
  induction uniq as [|r uniq IH]; intros w p Hp.
  - inversion Hp.
  - rewrite split_cached_cons in Hp. cbv zeta in Hp. cbn [fst] in Hp.
    destruct (fst (cache_get E (row_name r) w)) as [addr|];
      [destruct (negb need || truthy addr)|]; cbn [fst] in Hp;
      try (eapply IH; exact Hp).
    apply elem_of_cons in Hp as [->|Hp]; [|eapply IH; exact Hp].
    exists addr. reflexivity.
Qed.

Lemma resolve_each_invariant (P : str -> triple -> Prop) b to_resolve :
  (forall r w, P (row_name r) (fst (_resolve_address_for_item E r b w))) ->
  forall results_map w,
  map_Forall P results_map ->
  map_Forall P (fst (resolve_each E b to_resolve results_map w)).
Proof.
  intros Hitem.
  induction to_resolve as [|r rest IH]; intros results_map w Hm;
    [exact Hm|].
  rewrite resolve_each_cons. apply IH.
  apply map_Forall_insert_2; [apply Hitem|exact Hm].
Qed.

(** Every reported row is built by [enrich_one] from a triple of one of
    the three origins: the cache branch, the resolver, or the default. *)
Lemma groups_loop_triples (P : str -> triple -> Prop)
    regions_set need only per_type :
  (forall n addr, P n (classify_cached n addr)) ->
  (forall n, P n ([], [], false)) ->
  (forall r w, P (row_name r) (fst (_resolve_address_for_item E r need w))) ->
  forall grouped w o,
  o ∈ fst (groups_loop E regions_set need only per_type grouped w) ->
  exists t r tr,
    P (row_name r) tr /\ enrich_one regions_set only t r tr = Some o.
Proof.
  intros Hcache Hdefault Hitem.
  induction grouped as [|[t arr] grouped IH]; intros w o Ho.
  - inversion Ho.
  - rewrite groups_loop_cons in Ho. cbn [fst] in Ho.
    apply elem_of_app in Ho as [Ho|Ho]; [|eapply IH; exact Ho].
    rewrite process_group_eq in Ho. cbv zeta in Ho. cbn [fst] in Ho.
    pose proof (elem_of_sublist _ _ _ Ho (sublist_take _ _)) as Ho'.
    clear Ho.
    apply elem_of_app in Ho' as [Ho|Ho];
      apply list_elem_of_omap in Ho as (x & Hx & Hone).
    + apply split_cached_classified in Hx as (addr & Hx).
      exists t, x.1, x.2. split; [rewrite Hx; apply Hcache|exact Hone].
    + eexists t, x, _. split; [|exact Hone].
      match goal with
      | |- context [resolve_each E need ?l ∅ ?w0] =>
          pose proof (resolve_each_invariant P need l Hitem ∅ w0
                        (map_Forall_empty P)) as Hall
      end.
      destruct (_ !! row_name x) as [tr|] eqn:Hlook; cbn [default].
      * exact (Hall _ _ Hlook).
      * apply Hdefault.
Qed.

End LabelFacts.





(** * Further properties of the code *)

(** ** [str.strip()] *)

Lemma lstrip_clean_head s : clean_head (lstrip s).
Proof.
  induction s as [|c s IH]; [exact I|].
  cbn [lstrip]. destruct (isspace c) eqn:Hc; [exact IH|exact Hc].
Qed.

Lemma lstrip_clean s : clean_head s -> lstrip s = s.
Proof.
  destruct s as [|c s]; [reflexivity|]. cbn [clean_head lstrip].
  intros ->. reflexivity.
Qed.

Lemma lstrip_snoc l c :
  lstrip (l ++ [c]) =
  match lstrip l with
  | [] => if isspace c then [] else [c]
  | _ :: _ => lstrip l ++ [c]
  end.
Proof.
  induction l as [|x l IH]; [reflexivity|].
  cbn [app lstrip]. destruct (isspace x); [exact IH|reflexivity].
Qed.

Lemma rstrip_cons c s :
  rstrip (c :: s) =
  match rstrip s with
  | [] => if isspace c then [] else [c]
  | _ :: _ => c :: rstrip s
  end.
Proof.
  unfold rstrip. cbn [rev]. rewrite lstrip_snoc.
  destruct (lstrip (rev s)) as [|x l] eqn:Hl.
  - cbn [rev]. destruct (isspace c); reflexivity.
  - rewrite rev_app_distr. cbn [rev app].
    destruct (rev l ++ [x]) eqn:Hr; [destruct (rev l); discriminate|].
    reflexivity.
Qed.

Lemma rstrip_nil : rstrip [] = [].
Proof. reflexivity. Qed.

Lemma rstrip_clean_last s : clean_last (rstrip s).
Proof.
  unfold clean_last, rstrip. rewrite rev_involutive. apply lstrip_clean_head.
Qed.

Lemma rstrip_clean s : clean_last s -> rstrip s = s.
Proof.
  unfold clean_last, rstrip. intros H. rewrite lstrip_clean by exact H.
  apply rev_involutive.
Qed.

Lemma rstrip_clean_head s : clean_head s -> clean_head (rstrip s).
Proof.
  destruct s as [|c s]; [intros _; exact I|]. cbn [clean_head]. intros Hc.
  rewrite rstrip_cons, Hc. destruct (rstrip s); exact Hc.
Qed.

Lemma strip_clean s : clean_head (strip s) /\ clean_last (strip s).
Proof.
  unfold strip. split.
  - apply rstrip_clean_head, lstrip_clean_head.
  - apply rstrip_clean_last.
Qed.

Lemma strip_fixed s : clean_head s -> clean_last s -> strip s = s.
Proof.
  intros Hh Hl. unfold strip. rewrite lstrip_clean by exact Hh.
  apply rstrip_clean, Hl.
Qed.

Lemma strip_idempotent s : strip (strip s) = strip s.
Proof. apply strip_fixed; apply strip_clean. Qed.

(** What [strip] returns is a piece of its argument between two runs of
    white space. *)
Lemma lstrip_split s :
  exists pre, s = pre ++ lstrip s /\ Forall (fun c => isspace c = true) pre.
Proof.
  induction s as [|c s (pre & Hs & Hpre)].
  - exists []. split; [reflexivity|constructor].
  - cbn [lstrip]. destruct (isspace c) eqn:Hc.
    + exists (c :: pre). split; [cbn [app]; f_equal; exact Hs|].
      constructor; assumption.
    + exists []. split; [reflexivity|constructor].
Qed.

Lemma strip_split s :
  exists pre post,
    s = pre ++ strip s ++ post
    /\ Forall (fun c => isspace c = true) pre
    /\ Forall (fun c => isspace c = true) post.
Proof.
  destruct (lstrip_split s) as (pre & Hs & Hpre).
  destruct (lstrip_split (rev (lstrip s))) as (tsop & Hr & Hpost).
  exists pre, (rev tsop). repeat split; [|exact Hpre|].
  - unfold strip, rstrip. rewrite <- rev_app_distr, <- Hr, rev_involutive.
    exact Hs.
  - apply Forall_forall. intros c Hc. rewrite Forall_forall in Hpost.
    apply Hpost. apply list_elem_of_In. apply list_elem_of_In in Hc.
    apply in_rev. exact Hc.
Qed.

(** ** [_normalize_cat] *)

Lemma cat_map_keys_fixed :
  Forall (fun entry => _normalize_cat entry.1 = entry.1) THEISE_CAT_MAP.
Proof. by_computation. Qed.

Lemma normalize_cat_first_hit (label : str) :
  _normalize_cat label =
  match List.find (alias_hit (lower (strip label))) THEISE_CAT_MAP with
  | Some entry => entry.1
  | None => strip label
  end.
Proof.
  unfold _normalize_cat. rewrite or_else_nil_r.
  apply normalize_in_first_hit, cat_map_keys_listed.
Qed.

Lemma cat_map_keys_stripped :
  Forall (fun entry => strip entry.1 = entry.1) THEISE_CAT_MAP.
Proof. by_computation. Qed.

(** What [_normalize_cat] returns is left as it is by [_normalize_cat]. *)
Lemma normalize_cat_fixed (label : str) :
  _normalize_cat (_normalize_cat label) = _normalize_cat label.
Proof.
  set (lab := strip label).
  assert (Hn : _normalize_cat label =
               match List.find (alias_hit (lower lab)) THEISE_CAT_MAP with
               | Some entry => entry.1
               | None => lab
               end).
  { unfold _normalize_cat. rewrite or_else_nil_r.
    apply normalize_in_first_hit, cat_map_keys_listed. }
  rewrite Hn.
  destruct (List.find _ THEISE_CAT_MAP) as [entry|] eqn:Hfind.
  - apply find_some in Hfind as [Hin _]. apply list_elem_of_In in Hin.
    pose proof cat_map_keys_fixed as Hfix. rewrite Forall_forall in Hfix.
    apply Hfix, Hin.
  - unfold _normalize_cat. rewrite or_else_nil_r. unfold lab.
    rewrite strip_idempotent. fold lab.
    rewrite normalize_in_first_hit by exact cat_map_keys_listed.
    rewrite Hfind. reflexivity.
Qed.

(** X1.  Normalising a category twice is the same as normalising it once:
    what [_normalize_cat] returns, a canonical name or a stripped unknown
    label, is left as it is by [_normalize_cat], and it has no white space
    around it. *)
Theorem normalize_cat_idempotent (label : str) :
  _normalize_cat (_normalize_cat label) = _normalize_cat label
  /\ strip (_normalize_cat label) = _normalize_cat label.
Proof.
  split; [apply normalize_cat_fixed|].
  rewrite normalize_cat_first_hit.
  destruct (List.find _ THEISE_CAT_MAP) as [entry|] eqn:Hfind.
  - apply find_some in Hfind as [Hin _]. apply list_elem_of_In in Hin.
    pose proof cat_map_keys_stripped as Hfix. rewrite Forall_forall in Hfix.
    apply Hfix, Hin.
  - apply strip_idempotent.
Qed.

(** ** [_txt] *)

Lemma clean_head_app_l (a b : str) :
  clean_head (a ++ b) -> a <> [] -> clean_head a.
Proof. destruct a; [congruence|]. intros H _. exact H. Qed.

Lemma single_spaced_app_r a b : single_spaced (a ++ b) -> single_spaced b.
Proof.
  induction a as [|c a IH]; [trivial|]. cbn [app single_spaced].
  intros [_ H]. apply IH, H.
Qed.

Lemma single_spaced_app_l a b : single_spaced (a ++ b) -> single_spaced a.
Proof.
  induction a as [|c a IH]; [intros _; exact I|]. cbn [app single_spaced].
  intros [Hc H]. split; [|apply IH, H].
  intros Hs. destruct (Hc Hs) as [-> Hh]. split; [reflexivity|].
  destruct a; [exact I|exact Hh].
Qed.

Lemma sub_spaces_single_spaced s : forall in_run,
  single_spaced (sub_spaces in_run s)
  /\ (in_run = true -> clean_head (sub_spaces in_run s)).
Proof.
  induction s as [|c s IH]; intros in_run; [split; intros; exact I|].
  cbn [sub_spaces]. destruct (isspace c) eqn:Hc.
  - destruct in_run.
    + apply IH.
    + split; [|discriminate]. cbn [single_spaced].
      destruct (IH true) as [Hs Hh]. split; [|exact Hs].
      intros _. split; [reflexivity|apply Hh; reflexivity].
  - split.
    + cbn [single_spaced]. split; [congruence|apply IH].
    + intros _. exact Hc.
Qed.

Lemma sub_spaces_fixed s : forall in_run,
  single_spaced s -> (in_run = true -> clean_head s) ->
  sub_spaces in_run s = s.
Proof.
  induction s as [|c s IH]; intros in_run Hs Hh; [reflexivity|].
  cbn [sub_spaces single_spaced] in *. destruct Hs as [Hc Hs].
  destruct (isspace c) eqn:Hsp.
  - destruct (Hc eq_refl) as [-> Hhs].
    destruct in_run.
    + specialize (Hh eq_refl). cbn [clean_head] in Hh. congruence.
    + f_equal. apply IH; [exact Hs|intros _; exact Hhs].
  - f_equal. apply IH; [exact Hs|discriminate].
Qed.

(** X2.  The text [_txt] returns is in normal form for white space: it has
    no leading or trailing white space, and every run of white space in it
    is one plain blank; so stripping it or collapsing its white space
    again changes nothing.  This holds whatever [html.unescape] does. *)
Theorem txt_normal_form (E : env) (x : str) :
  strip (_txt E x) = _txt E x
  /\ sub_spaces false (_txt E x) = _txt E x
  /\ single_spaced (_txt E x).
Proof.
  unfold _txt. destruct (negb (truthy x)); [repeat split|].
  set (y := sub_spaces false (sub_tags (html_unescape E x))).
  assert (Hs : single_spaced (strip y)).
  { destruct (strip_split y) as (pre & post & Hy & _ & _).
    pose proof (proj1 (sub_spaces_single_spaced
                         (sub_tags (html_unescape E x)) false)) as Hy'.
    fold y in Hy'. rewrite Hy in Hy'.
    apply single_spaced_app_r in Hy'. apply single_spaced_app_l in Hy'.
    exact Hy'. }
  split; [apply strip_idempotent|]. split; [|exact Hs].
  apply sub_spaces_fixed; [exact Hs|discriminate].
Qed.

(** *** No tag survives *)

Lemma tag_rest_no_close b r : 62%N ∉ r -> tag_rest b r = None.
Proof.
  revert b. induction r as [|c r IH]; intros b Hn; [reflexivity|].
  cbn [tag_rest]. destruct (N.eqb_spec c 62) as [->|Hc].
  - exfalso. apply Hn. left.
  - apply IH. intros Hin. apply Hn. right. exact Hin.
Qed.

Lemma tag_rest_at_close r : tag_rest false (62%N :: r) = None.
Proof. reflexivity. Qed.

Lemma tag_rest_none b r :
  tag_rest b r = None ->
  62%N ∉ r \/ (b = false /\ exists r', r = 62%N :: r').
Proof.
  revert b. induction r as [|c r IH]; intros b H.
  - left. intros Hc. inversion Hc.
  - cbn [tag_rest] in H. destruct (N.eqb_spec c 62) as [->|Hc].
    + destruct b; [discriminate|]. right. split; [reflexivity|]. eauto.
    + apply IH in H as [H|[H _]]; [|discriminate]. left.
      intros Hin. apply elem_of_cons in Hin as [Hin|Hin];
        [congruence|exact (H Hin)].
Qed.

Lemma tag_rest_suffix b r rest :
  tag_rest b r = Some rest ->
  (length rest < length r)%nat /\ forall c, c ∈ rest -> c ∈ r.
Proof.
  revert b. induction r as [|c r IH]; intros b H; [discriminate|].
  cbn [tag_rest] in H. destruct (c =? 62)%N.
  - destruct b; [|discriminate]. injection H as ->. cbn [length].
    split; [lia|]. intros x Hx. right. exact Hx.
  - apply IH in H as [Hl Hin]. cbn [length]. split; [lia|].
    intros x Hx. right. apply Hin, Hx.
Qed.

Lemma sub_tags_n_elem n : forall s c,
  c ∈ sub_tags_n n s -> c = 32%N \/ c ∈ s.
Proof.
  induction n as [|n IH]; intros s c Hc; [destruct s; inversion Hc|].
  destruct s as [|x s]; [inversion Hc|]. cbn [sub_tags_n] in Hc.
  destruct (x =? 60)%N; [destruct (tag_rest false s) as [rest|] eqn:Ht|].
  - apply elem_of_cons in Hc as [Hc|Hc]; [left; exact Hc|].
    apply IH in Hc as [Hc|Hc]; [left; exact Hc|]. right. right.
    apply (tag_rest_suffix _ _ _ Ht), Hc.
  - apply elem_of_cons in Hc as [->|Hc]; [right; left|].
    apply IH in Hc as [Hc|Hc]; [left; exact Hc|right; right; exact Hc].
  - apply elem_of_cons in Hc as [->|Hc]; [right; left|].
    apply IH in Hc as [Hc|Hc]; [left; exact Hc|right; right; exact Hc].
Qed.

Lemma sub_spaces_elem s : forall b c,
  c ∈ sub_spaces b s -> c = 32%N \/ c ∈ s.
Proof.
  induction s as [|x s IH]; intros b c Hc; [inversion Hc|].
  cbn [sub_spaces] in Hc. destruct (isspace x); [destruct b|].
  - apply IH in Hc as [Hc|Hc]; [left; exact Hc|right; right; exact Hc].
  - apply elem_of_cons in Hc as [Hc|Hc]; [left; exact Hc|].
    apply IH in Hc as [Hc|Hc]; [left; exact Hc|right; right; exact Hc].
  - apply elem_of_cons in Hc as [->|Hc]; [right; left|].
    apply IH in Hc as [Hc|Hc]; [left; exact Hc|right; right; exact Hc].
Qed.

(** A [<] that opens no tag in [r] opens none in a text made from [r] by
    a step that keeps the first character when it is [>] and adds no
    [>]. *)
Lemma tag_rest_none_kept (f : str -> str) r :
  (forall c, c ∈ f r -> c = 32%N \/ c ∈ r) ->
  (forall r', r = 62%N :: r' -> f r = [] \/ exists t, f r = 62%N :: t) ->
  tag_rest false r = None -> tag_rest false (f r) = None.
Proof.
  intros Helem Hhead H. apply tag_rest_none in H as [H|[_ [r' ->]]].
  - apply tag_rest_no_close. intros Hc.
    apply Helem in Hc as [Hc|Hc]; [discriminate|exact (H Hc)].
  - destruct (Hhead r' eq_refl) as [->|[t ->]]; reflexivity.
Qed.

Lemma sub_tags_n_no_tag n : forall s,
  (length s <= n)%nat -> no_tag (sub_tags_n n s).
Proof.
  induction n as [|n IH]; intros s Hlen; [destruct s; exact I|].
  destruct s as [|x s]; [exact I|]. cbn [length] in Hlen.
  cbn [sub_tags_n].
  destruct (N.eqb_spec x 60) as [->|Hx];
    [destruct (tag_rest false s) as [rest|] eqn:Ht|].
  - cbn [no_tag]. split; [discriminate|].
    apply IH. apply tag_rest_suffix in Ht as [Hl _]. lia.
  - cbn [no_tag]. split; [|apply IH; lia]. intros _.
    apply (tag_rest_none_kept (sub_tags_n n)); [| |exact Ht].
    + intros c. apply sub_tags_n_elem.
    + intros r' ->. destruct n; [left; reflexivity|right].
      cbn [sub_tags_n]. change (62 =? 60)%N with false. cbv iota. eauto.
  - cbn [no_tag]. split; [congruence|apply IH; lia].
Qed.

Lemma sub_tags_n_fixed n : forall s,
  no_tag s -> (length s <= n)%nat -> sub_tags_n n s = s.
Proof.
  induction n as [|n IH]; intros s Hnt Hlen.
  - destruct s; [reflexivity|cbn [length] in Hlen; lia].
  - destruct s as [|x s]; [reflexivity|]. cbn [length] in Hlen.
    cbn [sub_tags_n no_tag] in *. destruct Hnt as [Hx Hnt].
    destruct (N.eqb_spec x 60) as [->|Hne].
    + rewrite (Hx eq_refl). f_equal. apply IH; [exact Hnt|lia].
    + f_equal. apply IH; [exact Hnt|lia].
Qed.

Lemma sub_spaces_no_tag s : forall b, no_tag s -> no_tag (sub_spaces b s).
Proof.
  induction s as [|x s IH]; intros b Hnt; [exact I|].
  cbn [no_tag] in Hnt. destruct Hnt as [Hx Hnt]. cbn [sub_spaces].
  destruct (isspace x) eqn:Hsp; [destruct b|].
  - apply IH, Hnt.
  - cbn [no_tag]. split; [discriminate|apply IH, Hnt].
  - cbn [no_tag]. split; [|apply IH, Hnt]. intros ->.
    apply (tag_rest_none_kept (sub_spaces false)); [| |apply Hx; reflexivity].
    + intros c. apply sub_spaces_elem.
    + intros r' ->. right. cbn [sub_spaces].
      change (isspace 62) with false. cbv iota. eauto.
Qed.

Lemma no_tag_app_r a b : no_tag (a ++ b) -> no_tag b.
Proof.
  induction a as [|c a IH]; [trivial|]. cbn [app no_tag].
  intros [_ H]. apply IH, H.
Qed.

Lemma no_tag_app_l a b : no_tag (a ++ b) -> no_tag a.
Proof.
  induction a as [|c a IH]; [intros _; exact I|]. cbn [app no_tag].
  intros [Hc H]. split; [|apply IH, H]. intros Hc60.
  apply (tag_rest_none_kept (fun _ => a) (a ++ b)); [| |apply Hc, Hc60].
  - intros x Hx. right. apply elem_of_app. left. exact Hx.
  - intros r' Hr. destruct a as [|y a]; [left; reflexivity|right].
    injection Hr as -> _. eauto.
Qed.

(** X3.  No markup survives [_txt]: in the text it returns, the pattern
    [<[^>]+>] matches nowhere, so removing tags again changes nothing.
    This holds whatever [html.unescape] does, entities that decode to
    tags included. *)
Theorem txt_has_no_tag (E : env) (x : str) :
  no_tag (_txt E x) /\ sub_tags (_txt E x) = _txt E x.
Proof.
  assert (Hnt : no_tag (_txt E x)).
  { unfold _txt. destruct (negb (truthy x)); [exact I|].
    set (y := sub_spaces false (sub_tags (html_unescape E x))).
    assert (Hy : no_tag y).
    { apply sub_spaces_no_tag. apply sub_tags_n_no_tag. lia. }
    destruct (strip_split y) as (pre & post & Heq & _ & _).
    rewrite Heq in Hy. apply no_tag_app_r, no_tag_app_l in Hy. exact Hy. }
  split; [exact Hnt|]. unfold sub_tags.
  apply sub_tags_n_fixed; [exact Hnt|lia].
Qed.

(** ** The region classifier *)

Lemma startswith_spec p : forall s,
  startswith p s = true <-> exists post, s = p ++ post.
Proof.
  induction p as [|a p IH]; intros s.
  - split; [intros _; exists s; reflexivity|reflexivity].
  - destruct s as [|b s]; cbn [startswith].
    + split; [discriminate|intros [post H]; discriminate].
    + rewrite andb_true_iff, N.eqb_eq, IH. split.
      * intros [-> [post ->]]. exists post. reflexivity.
      * intros [post [= -> ->]]. split; [reflexivity|]. eauto.
Qed.

(** [contains] is the substring test. *)
Lemma contains_spec needle : forall hay,
  contains needle hay = true <-> exists pre post, hay = pre ++ needle ++ post.
Proof.
  induction hay as [|c hay IH]; cbn [contains]; rewrite orb_true_iff.
  - rewrite startswith_spec. split.
    + intros [[post H]|H]; [|discriminate]. exists [], post. exact H.
    + intros (pre & post & H). left.
      destruct pre; [exists post; exact H|discriminate].
  - rewrite startswith_spec, IH. split.
    + intros [[post H]|(pre & post & H)].
      * exists [], post. exact H.
      * exists (c :: pre), post. rewrite H. reflexivity.
    + intros (pre & post & H). destruct pre as [|x pre].
      * left. exists post. exact H.
      * right. injection H as _ H. exists pre, post. exact H.
Qed.

Lemma region_in_hit tbl a :
  Forall (fun entry => entry.1 <> []) tbl ->
  (region_in tbl a <> [] <->
   exists label keys k,
     (label, keys) ∈ tbl /\ k ∈ keys /\ contains (lower k) a = true).
Proof.
  induction 1 as [|[label keys] tbl Hl _ IH]; cbn [region_in].
  - split; [congruence|]. intros (? & ? & ? & H & _). inversion H.
  - cbn [fst] in Hl. destruct (existsb _ keys) eqn:Hex.
    + split; [|intros _; exact Hl]. intros _.
      apply existsb_exists in Hex as (k & Hk & Hc).
      exists label, keys, k. split; [left|].
      split; [apply list_elem_of_In, Hk|exact Hc].
    + rewrite IH. split.
      * intros (l & ks & k & Hin & Hk & Hc). exists l, ks, k.
        split; [right; exact Hin|]. split; assumption.
      * intros (l & ks & k & Hin & Hk & Hc).
        apply elem_of_cons in Hin as [[= -> ->]|Hin]; [|eauto 6].
        exfalso. apply not_true_iff_false in Hex. apply Hex.
        apply existsb_exists. exists k.
        split; [apply list_elem_of_In, Hk|exact Hc].
Qed.

Lemma region_labels_not_empty :
  Forall (fun entry => entry.1 <> []) REGION_KEYWORDS.
Proof. by_computation. Qed.

(** X4.  [normalize_region_from_address] gives a label exactly when the
    lower-cased address contains the lower-cased form of some keyword of
    the table; the label is then one of the sixteen of the table (never
    "해외"), and [is_korea_address] holds of the address. *)
Theorem region_label_iff_keyword (addr : str) :
  (normalize_region_from_address addr <> [] <->
   exists label keys k pre post,
     (label, keys) ∈ REGION_KEYWORDS /\ k ∈ keys
     /\ lower addr = pre ++ lower k ++ post)
  /\ normalize_region_from_address addr ∈ [] :: REGION_KEYWORDS.*1
  /\ normalize_region_from_address addr <> OVERSEAS
  /\ (normalize_region_from_address addr <> [] ->
      is_korea_address addr = true).
Proof.
  split; [|split; [|split]].
  - unfold normalize_region_from_address. rewrite or_else_nil_r.
    rewrite (region_in_hit _ _ region_labels_not_empty). split.
    + intros (label & keys & k & Hin & Hk & Hc).
      apply contains_spec in Hc as (pre & post & Hc). eauto 10.
    + intros (label & keys & k & pre & post & Hin & Hk & Hc).
      exists label, keys, k. split; [exact Hin|]. split; [exact Hk|].
      apply contains_spec. eauto.
  - apply region_in_label.
  - apply region_not_overseas.
  - intros Hne. unfold is_korea_address.
    destruct addr as [|c addr]; [exfalso; apply Hne; reflexivity|].
    cbn [truthy negb].
    destruct (normalize_region_from_address (c :: addr));
      [congruence|reflexivity].
Qed.

(** ** More on the cache *)

(** X5.  The last write wins: once [cache_put name b] has been carried out
    by the store, [cache_get name] returns [b], whatever was stored under
    [name] before and whether or not the earlier [cache_put name a]
    succeeded. *)
Theorem cache_put_overwrites
    (E : env) (name a b : str) (w : world)
    (Hput : db_fault E (S (length (db_log w))) = false)
    (Hget : db_fault E (S (S (length (db_log w)))) = false) :
  fst (cache_get E name
         (snd (cache_put E name b (snd (cache_put E name a w))))) = Some b.
Proof.
  rewrite !cache_put_eq, cache_get_eq. cbn [fst snd db db_log].
  rewrite !length_app. cbn [length]. rewrite !Nat.add_1_r.
  rewrite Hget, Hput. rewrite lookup_insert_eq. reflexivity.
Qed.

Lemma cache_put_overwrites_witness :
  fst (cache_get env_offline (U "Acme")
         (snd (cache_put env_offline (U "Acme") (U "Seoul")
                 (snd (cache_put env_offline (U "Acme") [] fresh_world)))))
  = Some (U "Seoul").
Proof.
  apply (cache_put_overwrites env_offline (U "Acme") [] (U "Seoul")
           fresh_world); reflexivity.
Defined.

(** X6.  Entries are independent: [cache_put] for one name does not change
    the row of another name, [cache_get] changes no row at all, and so,
    when the store answers, [cache_get other] returns the same before and
    after a [cache_put] for a different name. *)
Theorem cache_put_other_name
    (E : env) (name address other : str) (w : world)
    (Hother : other <> name)
    (Hbefore : db_fault E (length (db_log w)) = false)
    (Hafter : db_fault E (S (length (db_log w))) = false) :
  db (snd (cache_put E name address w)) !! other = db w !! other
  /\ db (snd (cache_get E name w)) = db w
  /\ fst (cache_get E other (snd (cache_put E name address w)))
     = fst (cache_get E other w).
Proof.
  rewrite !cache_put_eq, !cache_get_eq. cbn [fst snd db db_log].
  assert (Hrow :
    (if db_fault E (length (db_log w)) then db w
     else <[name := (address, unix_time E (length (db_log w)))]> (db w))
      !! other = db w !! other).
  { destruct (db_fault E _); [reflexivity|].
    apply lookup_insert_ne. congruence. }
  split; [exact Hrow|]. split; [reflexivity|].
  rewrite length_app. cbn [length]. rewrite Nat.add_1_r.
  rewrite Hafter, Hbefore. rewrite Hbefore in Hrow. rewrite Hrow.
  reflexivity.
Qed.

Lemma cache_put_other_name_witness :
  db (snd (cache_put env_offline (U "Acme") (U "Seoul") world_cached_miss))
    !! U "Beta" = db world_cached_miss !! U "Beta"
  /\ db (snd (cache_get env_offline (U "Acme") world_cached_miss))
     = db world_cached_miss
  /\ fst (cache_get env_offline (U "Beta")
            (snd (cache_put env_offline (U "Acme") (U "Seoul")
                    world_cached_miss)))
     = fst (cache_get env_offline (U "Beta") world_cached_miss).
Proof.
  apply (cache_put_other_name env_offline (U "Acme") (U "Seoul") (U "Beta")
           world_cached_miss).
  - vm_compute. discriminate.
  - reflexivity.
  - reflexivity.
Defined.

(** ** More on the resolver *)

Section ResolverMore.

Context (E : env).

(** The requests of the query loop are the first queries of its list, in
    order. *)
Lemma query_loop_prefix queries : forall address w,
  exists sent,
    net_log (snd (query_loop E queries address w)) = net_log w ++ sent
    /\ sent `prefix_of` queries.
Proof.
  induction queries as [|q qs IH]; intros address w.
  - exists []. simpl. rewrite app_nil_r.
    split; [reflexivity|exists []; reflexivity].
  - assert (Hrec : forall a,
      exists sent,
        net_log (snd (query_loop E qs a
               (World (db w) (db_log w) (net_log w ++ [q]) (resolve_log w))))
        = net_log w ++ sent
        /\ sent `prefix_of` q :: qs).
    { intros a. destruct (IH a (World (db w) (db_log w) (net_log w ++ [q])
                                   (resolve_log w))) as (sent & Hs & Hp).
      exists (q :: sent). rewrite Hs. cbn [net_log].
      rewrite <- app_assoc. split; [reflexivity|].
      apply prefix_cons, Hp. }
    assert (Hret : forall a,
      exists sent,
        net_log (snd (ret (A:=str) a
               (World (db w) (db_log w) (net_log w ++ [q]) (resolve_log w))))
        = net_log w ++ sent
        /\ sent `prefix_of` q :: qs).
    { intros a. exists [q]. split; [reflexivity|].
      apply prefix_cons, prefix_nil. }
    simpl. unfold bind, _fetch.
    destruct (google E q (length (net_log w))) as [|status text];
      [apply Hrec|].
    destruct (negb (status =? 200)%Z || negb (truthy text)); [apply Hrec|].
    destruct (select_address E text) as [node|];
      destruct (select_candidate E text) as [cand|];
      repeat match goal with
             | |- context [if ?b then _ else _] => destruct b
             end;
      first [apply Hrec | apply Hret].
Qed.

Lemma truthy_false s : truthy s = false <-> s = [].
Proof. destruct s; simpl; split; congruence. Qed.

(** When no response is of any use, the loop sends every query and ends
    with the empty address it started with. *)
Lemma query_loop_useless queries :
  (forall q n, useless E (google E q n)) ->
  forall w,
  query_loop E queries [] w =
  ([], World (db w) (db_log w) (net_log w ++ queries) (resolve_log w)).
Proof.
  intros Hall. induction queries as [|q qs IH]; intros w.
  - simpl. unfold ret. rewrite app_nil_r. destruct w; reflexivity.
  - assert (Hrec :
      query_loop E qs []
        (World (db w) (db_log w) (net_log w ++ [q]) (resolve_log w)) =
      ([], World (db w) (db_log w) (net_log w ++ q :: qs) (resolve_log w))).
    { rewrite IH. cbn [db db_log net_log resolve_log].
      rewrite <- app_assoc. reflexivity. }
    cbn [query_loop]. unfold bind, _fetch.
    specialize (Hall q (length (net_log w))).
    destruct (google E q (length (net_log w))) as [|status text];
      [exact Hrec|].
    cbn [useless] in Hall.
    destruct (Z.eqb_spec status 200) as [->|Hst]; cbn [negb orb];
      [|exact Hrec].
    destruct (truthy text) eqn:Ht; cbn [negb]; [|exact Hrec].
    destruct Hall as [Hc|[->|[Ha Hc]]]; [congruence|discriminate|].
    destruct (select_address E text) as [node|];
      destruct (select_candidate E text) as [cand|];
      rewrite ?Ha, ?Hc; cbn [truthy]; exact Hrec.
Qed.

Lemma query_loop_first_hit q qs address w text node :
  google E q (length (net_log w)) = Response 200 text ->
  text <> [] ->
  select_address E text = Some node ->
  _txt E node <> [] ->
  query_loop E (q :: qs) address w =
  (_txt E node,
   World (db w) (db_log w) (net_log w ++ [q]) (resolve_log w)).
Proof.
  intros Hpage Hbody Hnode Htext.
  apply truthy_true in Hbody, Htext.
  cbn [query_loop]. unfold bind, _fetch. rewrite Hpage.
  change (200 =? 200)%Z with true. rewrite Hbody. cbn [negb orb].
  rewrite Hnode, Htext. reflexivity.
Qed.

End ResolverMore.

(** X7.  One call of the resolver sends at most the two queries of its
    name, in their fixed order, and none at all for the empty name or when
    the cache answers. *)
Theorem resolver_requests_bounded (E : env) (name : str) (w : world) :
  exists sent,
    net_log (snd (get_company_address_from_google E name w))
    = net_log w ++ sent
    /\ sent `prefix_of` queries_of name
    /\ (length sent <= 2)%nat
    /\ (name = [] \/ is_Some (fst (cache_get E name w)) -> sent = []).
Proof.
  assert (Hnone : exists sent : list str,
            net_log w = net_log w ++ sent /\ sent `prefix_of` queries_of name
            /\ (length sent <= 2)%nat
            /\ (name = [] \/ is_Some (fst (cache_get E name w)) -> sent = [])).
  { exists []. rewrite app_nil_r. split; [reflexivity|].
    split; [apply prefix_nil|]. split; [cbn; lia|reflexivity]. }
  unfold get_company_address_from_google.
  destruct name as [|c name]; [exact Hnone|].
  change (truthy (c :: name)) with true. cbn [negb].
  rewrite bind_eq.
  destruct (fst (cache_get E (c :: name) w)) as [a|] eqn:Hget.
  - rewrite cache_get_eq. exact Hnone.
  - rewrite bind_eq, bind_eq, cache_put_eq. cbn [snd ret net_log].
    fold (queries_of (c :: name)).
    destruct (query_loop_prefix E (queries_of (c :: name)) []
                (snd (cache_get E (c :: name) w))) as (sent & Hs & Hp).
    exists sent. rewrite Hs, cache_get_eq. cbn [snd net_log].
    split; [reflexivity|]. split; [exact Hp|]. split.
    + apply prefix_length in Hp. exact Hp.
    + intros [Hc|[x Hx]]; [discriminate|discriminate].
Qed.

(** X8.  A lookup that finds nothing is remembered: for a non-empty name
    the cache does not answer for, when no response is of any use the
    resolver returns the empty string after sending both queries, and,
    the store carrying out the write, leaves the empty string in the cache
    under that name. *)
Theorem resolver_caches_miss
    (E : env) (name : str) (w : world)
    (Hname : name <> [])
    (Hmiss : fst (cache_get E name w) = None)
    (Hnothing : forall q n, useless E (google E q n))
    (Hput : db_fault E (S (length (db_log w))) = false) :
  fst (get_company_address_from_google E name w) = []
  /\ net_log (snd (get_company_address_from_google E name w))
     = net_log w ++ queries_of name
  /\ fst <$> db (snd (get_company_address_from_google E name w)) !! name
     = Some [].
Proof.
  unfold get_company_address_from_google.
  destruct name as [|c name]; [congruence|].
  change (truthy (c :: name)) with true. cbn [negb].
  rewrite bind_eq, Hmiss, bind_eq. fold (queries_of (c :: name)).
  rewrite (query_loop_useless E _ Hnothing).
  rewrite bind_eq, cache_put_eq, cache_get_eq.
  cbn [fst snd ret db db_log net_log].
  rewrite length_app. cbn [length]. rewrite Nat.add_1_r, Hput.
  rewrite lookup_insert_eq. repeat split.
Qed.

Lemma resolver_caches_miss_witness :
  fst (get_company_address_from_google env_offline (U "Acme") fresh_world)
  = []
  /\ net_log (snd (get_company_address_from_google env_offline (U "Acme")
                     fresh_world))
     = net_log fresh_world ++ queries_of (U "Acme")
  /\ fst <$> db (snd (get_company_address_from_google env_offline
                        (U "Acme") fresh_world)) !! U "Acme"
     = Some [].
Proof.
  apply (resolver_caches_miss env_offline (U "Acme") fresh_world).
  - discriminate.
  - reflexivity.
  - intros q n. exact I.
  - reflexivity.
Defined.

(** X9.  The first address found ends the lookup: for a non-empty name the
    cache does not answer for, when the page of the first query has status
    200, a body, and an address node whose normalised text is not empty,
    the resolver returns that text after one request only. *)
Theorem resolver_first_hit
    (E : env) (name : str) (w : world) (text node : str)
    (Hname : name <> [])
    (Hmiss : fst (cache_get E name w) = None)
    (Hpage : google E (cat name (U " 주소")) (length (net_log w))
             = Response 200 text)
    (Hbody : text <> [])
    (Hnode : select_address E text = Some node)
    (Htext : _txt E node <> []) :
  fst (get_company_address_from_google E name w) = _txt E node
  /\ net_log (snd (get_company_address_from_google E name w))
     = net_log w ++ [cat name (U " 주소")].
Proof.
  unfold get_company_address_from_google.
  destruct name as [|c name]; [congruence|].
  change (truthy (c :: name)) with true. cbn [negb].
  rewrite bind_eq, Hmiss, bind_eq. rewrite cache_get_eq. cbn [snd].
  set (w1 := World (db w) (db_log w ++ [Select (c :: name)]) (net_log w)
                   (resolve_log w)).
  rewrite (query_loop_first_hit E _ _ _ w1 text node Hpage Hbody Hnode Htext).
  rewrite bind_eq, cache_put_eq. cbn [fst snd ret net_log].
  split; reflexivity.
Qed.

Lemma resolver_first_hit_witness :
  fst (get_company_address_from_google env_found (U "Acme") fresh_world)
  = _txt env_found (U " 12 Teheran-ro,  Seoul ")
  /\ net_log (snd (get_company_address_from_google env_found (U "Acme")
                     fresh_world))
     = net_log fresh_world ++ [cat (U "Acme") (U " 주소")].
Proof.
  apply (resolver_first_hit env_found (U "Acme") fresh_world (U "<html>")).
  - discriminate.
  - reflexivity.
  - reflexivity.
  - discriminate.
  - reflexivity.
  - vm_compute. discriminate.
Defined.

(** ** More on [filter_and_enrich] *)

Lemma list_to_set_empty_nil (l : list str) :
  (list_to_set l : gset str) = ∅ -> l = [].
Proof.
  destruct l as [|x l]; [reflexivity|]. intros H. exfalso.
  assert (Hx : x ∈ (list_to_set (x :: l) : gset str)) by set_solver.
  rewrite H in Hx. set_solver.
Qed.

Lemma wanted_cat_pick_inv (pick_types : list str) (c : str) :
  wanted_cat (list_to_set (List.map _normalize_cat pick_types)) c ->
  pick_types = [] \/ c ∈ List.map _normalize_cat pick_types.
Proof.
  intros [Hw|Hw].
  - left. apply list_to_set_empty_nil in Hw.
    destruct pick_types; [reflexivity|discriminate].
  - right. apply elem_of_list_to_set in Hw. exact Hw.
Qed.

(** X10.  The category filter is respected: every row of the report has a
    category that was asked for (any category when none was asked for),
    and that category is a normalised one. *)
Theorem report_categories_wanted
    (E : env) (rows : list row) (pick_types filter_regions : list str)
    (per_type : Z) (only : bool) (w : world) (o : report_row)
    (Ho : o ∈ fst (filter_and_enrich E rows pick_types per_type
                     filter_regions only w)) :
  (pick_types = [] \/ rep_type o ∈ List.map _normalize_cat pick_types)
  /\ _normalize_cat (rep_type o) = rep_type o.
Proof.
  rewrite filter_and_enrich_eq in Ho.
  apply groups_loop_source in Ho as (arr & r & Hg & Hr & _).
  pose proof (group_rows_spec
                (list_to_set (List.map _normalize_cat pick_types)) rows)
    as (_ & Harr & _ & Hw).
  split.
  - apply wanted_cat_pick_inv, Hw.
    apply (list_elem_of_fmap_2 fst) in Hg. exact Hg.
  - apply Harr in Hg.
    assert (Hin : r ∈ arr).
    { eapply elem_of_sublist; [exact Hr|apply uniq_loop_sublist]. }
    rewrite Hg in Hin. apply list_elem_of_filter in Hin as [Hc _].
    rewrite <- Hc. apply normalize_cat_fixed.
Qed.

Lemma report_categories_wanted_witness :
  let o := {| rep_type := U "SW";
              rep_name := U "서울 Korea";
              rep_region := SEOUL;
              rep_address := [];
              rep_branch := BRANCH_TAG;
              rep_url := U "https://seoul.example" |} in
  (([U "소프트웨어"] : list str) = []
   \/ rep_type o ∈ List.map _normalize_cat [U "소프트웨어"])
  /\ _normalize_cat (rep_type o) = rep_type o.
Proof.
  apply (report_categories_wanted env_offline seoul_rows [U "소프트웨어"] []
           5 false fresh_world).
  vm_compute. left.
Defined.

Lemma enrich_one_accepts regions_set only t r tr o :
  enrich_one regions_set only t r tr = Some o ->
  (only = true -> tr.2 = true)
  /\ accept_region regions_set tr.1.1 tr.1.2 = true.
Proof.
  destruct tr as [[region_final addr] branch_kr]. unfold enrich_one.
  cbn [fst snd].
  destruct only, branch_kr; cbn [andb negb]; try discriminate;
    destruct (accept_region regions_set region_final addr);
    cbn [negb]; try discriminate; intros _; split; congruence.
Qed.

Lemma branch_tag_not_empty : BRANCH_TAG <> [].
Proof. by_computation. Qed.

Lemma classify_cached_branch_ok n addr : branch_ok n (classify_cached n addr).
Proof.
  unfold branch_ok, classify_cached, is_foreign_branch_in_korea.
  cbn [fst snd]. intros H. apply andb_true_iff in H as [Hq Hk].
  split; [exact Hq|right; exact Hk].
Qed.

Lemma resolve_item_branch_ok E item b w :
  branch_ok (row_name item) (fst (_resolve_address_for_item E item b w)).
Proof.
  unfold _resolve_address_for_item. rewrite bind_eq.
  destruct b; cbn [negb]; rewrite bind_eq.
  - cbn [ret fst]. unfold branch_ok, is_foreign_branch_in_korea.
    cbn [fst snd]. intros H. apply andb_true_iff in H as [Hq Hk].
    split; [exact Hq|right; exact Hk].
  - match goal with
    | |- context [if negb (truthy ?a) && ?q then _ else _] =>
        destruct (truthy a); destruct q eqn:Hq; cbn [negb andb ret fst]
    end; unfold branch_ok; cbn [fst snd]; try discriminate.
    intros _. split; [exact Hq|left; reflexivity].
Qed.

(** X11.  The branch column is either empty or the tag "외국계 지사(한국)";
    a row carries the tag only if its name matches the quick name hints
    and its address is empty or a Korean address; and with
    [only_foreign_branch = True] every row of the report carries it. *)
Theorem branch_tag_sound
    (E : env) (rows : list row) (pick_types filter_regions : list str)
    (per_type : Z) (only : bool) (w : world) (o : report_row)
    (Ho : o ∈ fst (filter_and_enrich E rows pick_types per_type
                     filter_regions only w)) :
  (rep_branch o = BRANCH_TAG \/ rep_branch o = [])
  /\ (rep_branch o = BRANCH_TAG ->
      quick_is_korea_name (rep_name o) = true
      /\ (rep_address o = [] \/ is_korea_address (rep_address o) = true))
  /\ (only = true -> rep_branch o = BRANCH_TAG).
Proof.
  rewrite filter_and_enrich_eq in Ho.
  apply (groups_loop_triples E branch_ok) in Ho as (t & r & tr & Hok & Hone).
  - pose proof (enrich_one_accepts _ _ _ _ _ _ Hone) as [Honly _].
    apply enrich_one_fields in Hone as (_ & Hn & _ & Ha & Hb & _).
    rewrite Hb, Ha, Hn. destruct tr.2 eqn:Hflag.
    + split; [left; reflexivity|]. split; [intros _; apply Hok, Hflag|].
      reflexivity.
    + split; [right; reflexivity|]. split.
      * intros Hc. symmetry in Hc. destruct (branch_tag_not_empty Hc).
      * intros Ht. specialize (Honly Ht). discriminate.
  - intros n addr. apply classify_cached_branch_ok.
  - intros n. unfold branch_ok. cbn [snd]. discriminate.
  - intros r0 w0. apply resolve_item_branch_ok.
Qed.

Lemma branch_tag_sound_witness :
  let o := {| rep_type := U "SW";
              rep_name := U "서울 Korea";
              rep_region := SEOUL;
              rep_address := [];
              rep_branch := BRANCH_TAG;
              rep_url := U "https://seoul.example" |} in
  (rep_branch o = BRANCH_TAG \/ rep_branch o = [])
  /\ (rep_branch o = BRANCH_TAG ->
      quick_is_korea_name (rep_name o) = true
      /\ (rep_address o = [] \/ is_korea_address (rep_address o) = true))
  /\ (false = true -> rep_branch o = BRANCH_TAG).
Proof.
  apply (branch_tag_sound env_offline seoul_rows [] [] 5 false fresh_world).
  vm_compute. left.
Defined.

(** X12.  The region filter is respected: when regions are asked for,
    every row of the report has a region that was asked for, or an address
    in which a region asked for occurs literally. *)
Theorem report_regions_wanted
    (E : env) (rows : list row) (pick_types filter_regions : list str)
    (per_type : Z) (only : bool) (w : world) (o : report_row)
    (Hregions : filter_regions <> [])
    (Ho : o ∈ fst (filter_and_enrich E rows pick_types per_type
                     filter_regions only w)) :
  rep_region o ∈ filter_regions
  \/ exists reg, reg ∈ filter_regions
                 /\ contains reg (rep_address o) = true.
Proof.
  rewrite filter_and_enrich_eq in Ho.
  apply (groups_loop_triples E (fun _ _ => True)) in Ho
    as (t & r & tr & _ & Hone); try (intros; exact I).
  pose proof (enrich_one_accepts _ _ _ _ _ _ Hone) as [_ Hacc].
  apply enrich_one_fields in Hone as (_ & _ & _ & Ha & _ & Hr).
  rewrite Hr, Ha. clear Hr Ha. unfold accept_region in Hacc.
  rewrite bool_decide_eq_false_2 in Hacc
    by (intros Hc; apply list_to_set_empty_nil in Hc; exact (Hregions Hc)).
  unfold Py.eqb in Hacc. case_bool_decide as Hov.
  - left. rewrite Hov. apply bool_decide_eq_true_1 in Hacc.
    apply elem_of_list_to_set in Hacc. exact Hacc.
  - destruct (truthy tr.1.1 && bool_decide (tr.1.1 ∈ _)) eqn:Hlab.
    + left. apply andb_true_iff in Hlab as [Ht Hin].
      apply bool_decide_eq_true_1, elem_of_list_to_set in Hin.
      unfold or_else. rewrite Ht. exact Hin.
    + right. apply existsb_exists in Hacc as (reg & Hreg & Hc).
      exists reg. rewrite or_else_nil_r in Hc. split; [|exact Hc].
      apply list_elem_of_In, elem_of_elements, elem_of_list_to_set in Hreg.
      exact Hreg.
Qed.

Lemma report_regions_wanted_witness :
  let o := {| rep_type := U "Fabless";
              rep_name := U "Acme";
              rep_region := OVERSEAS;
              rep_address := U "1 Some St, Springfield, USA";
              rep_branch := [];
              rep_url := U "https://acme.example" |} in
  rep_region o ∈ [OVERSEAS]
  \/ exists reg, reg ∈ [OVERSEAS]
                 /\ contains reg (rep_address o) = true.
Proof.
  apply (report_regions_wanted env_offline acme_rows [] [OVERSEAS] 5 false
           world_foreign_address).
  - discriminate.
  - vm_compute. left.
Defined.

(** *** The cap *)

Lemma process_group_cap E regions_set need only per_type per_type' t arr w :
  cap per_type = cap per_type' ->
  process_group E regions_set need only per_type t arr w
  = process_group E regions_set need only per_type' t arr w.
Proof.
  intros Hcap. rewrite !process_group_eq. cbv zeta.
  fold (cap per_type) (cap per_type'). rewrite Hcap. reflexivity.
Qed.

Lemma groups_loop_cap E regions_set need only per_type per_type' grouped :
  cap per_type = cap per_type' ->
  forall w,
  groups_loop E regions_set need only per_type grouped w
  = groups_loop E regions_set need only per_type' grouped w.
Proof.
  intros Hcap. induction grouped as [|[t arr] grouped IH]; intros w;
    [reflexivity|].
  rewrite !groups_loop_cons.
  rewrite (process_group_cap E regions_set need only per_type per_type'
             t arr w Hcap).
  rewrite IH. reflexivity.
Qed.

(** X13.  A limit below one counts as one: with [per_type <= 1] the run is
    the run with [per_type = 1], so each category still gets a row when it
    has one to show, and never more than one. *)
Theorem per_type_below_one
    (E : env) (rows : list row) (pick_types filter_regions : list str)
    (per_type : Z) (only : bool) (w : world) (c : str)
    (Hlow : (per_type <= 1)%Z) :
  filter_and_enrich E rows pick_types per_type filter_regions only w
  = filter_and_enrich E rows pick_types 1 filter_regions only w
  /\ (rows_of_type c
        (fst (filter_and_enrich E rows pick_types per_type filter_regions
                only w)) <= 1)%nat.
Proof.
  assert (Hcap : cap per_type = cap 1).
  { unfold cap. rewrite Z.max_l by exact Hlow. reflexivity. }
  rewrite !filter_and_enrich_eq. split.
  - apply groups_loop_cap, Hcap.
  - change 1%nat with (cap 1). rewrite <- Hcap.
    apply groups_loop_count.
    apply (group_rows_spec
             (list_to_set (List.map _normalize_cat pick_types)) rows).
Qed.

Lemma per_type_below_one_witness :
  filter_and_enrich env_offline ten_rows [] (-3) [] false fresh_world
  = filter_and_enrich env_offline ten_rows [] 1 [] false fresh_world
  /\ (rows_of_type (U "Fabless")
        (fst (filter_and_enrich env_offline ten_rows [] (-3) [] false
                fresh_world)) <= 1)%nat.
Proof.
  apply (per_type_below_one env_offline ten_rows [] [] (-3) false
           fresh_world (U "Fabless")).
  lia.
Defined.

(** *** Without region or branch filter *)

Lemma names_of_cons r arr :
  names_of (r :: arr) =
  (if decide (trimmed r = []) then ∅ else {[trimmed r]}) ∪ names_of arr.
Proof.
  unfold names_of. rewrite fmap_cons. cbn [list_to_set].
  case_decide as Hr; [rewrite Hr|]; set_solver.
Qed.

Lemma uniq_loop_length arr : forall seen,
  length (uniq_loop arr seen) = size (names_of arr ∖ seen).
Proof.
  induction arr as [|r arr IH]; intros seen.
  - cbn [uniq_loop length]. unfold names_of. cbn.
    replace ((∅ ∖ {[ [] ]}) ∖ seen : gset str) with (∅ : gset str)
      by set_solver.
    rewrite size_empty. reflexivity.
  - rewrite uniq_loop_step, names_of_cons.
    destruct (decide (trimmed r <> [] /\ trimmed r ∉ seen)) as [[Hne Hns]|Hn].
    + cbn [length]. rewrite IH. rewrite decide_False by exact Hne.
      replace (({[trimmed r]} ∪ names_of arr) ∖ seen)
        with ({[trimmed r]} ∪ (names_of arr ∖ ({[trimmed r]} ∪ seen))).
      * pose proof (size_union (C:=gset str) {[trimmed r]}
                      (names_of arr ∖ ({[trimmed r]} ∪ seen))) as Hsz.
        rewrite Hsz by set_solver.
        rewrite (size_singleton (C:=gset str) (trimmed r)). reflexivity.
      * apply set_eq. intros x.
        destruct (decide (x = trimmed r)) as [->|Hx]; set_solver.
    + rewrite IH. f_equal. case_decide as Hr; [set_solver|].
      assert (trimmed r ∈ seen).
      { destruct (decide (trimmed r ∈ seen)); [assumption|tauto]. }
      set_solver.
Qed.

Lemma groups_unfiltered_count E per_type grouped c : forall w,
  NoDup grouped.*1 ->
  rows_of_type c (fst (groups_loop E ∅ false false per_type grouped w))
  = match list_find (fun g => g.1 = c) grouped with
    | Some (_, (_, arr)) =>
        Nat.min (cap per_type) (length (uniq_loop arr ∅))
    | None => 0%nat
    end.
Proof.
  unfold rows_of_type.
  induction grouped as [|[t arr] grouped IH]; intros w Hnd; [reflexivity|].
  rewrite fmap_cons in Hnd. apply NoDup_cons in Hnd as [Ht Hnd].
  cbn [fst] in Ht.
  rewrite groups_loop_cons. cbn [fst]. rewrite filter_app, length_app.
  cbn [list_find fst]. destruct (decide (t = c)) as [->|Hne].
  - rewrite filter_all
      by (intros o Ho; apply process_group_source in Ho as [Hto _];
          exact Hto).
    rewrite process_group_unfiltered_length.
    rewrite filter_none; [cbn [length]; lia|].
    intros o Ho Hc. apply groups_loop_source in Ho as (arr' & _ & Hg & _).
    apply Ht. rewrite <- Hc.
    apply (list_elem_of_fmap_2 fst) in Hg. exact Hg.
  - rewrite filter_none
      by (intros o Ho Hc; apply process_group_source in Ho as [Hto _];
          congruence).
    cbn [length plus]. rewrite IH by exact Hnd.
    destruct (list_find _ grouped) as [[i [k a]]|]; reflexivity.
Qed.

(** X14.  Without region or branch filter nothing is dropped but
    duplicates, blank names and what exceeds the cap: a wanted category has
    in the report as many rows as it has distinct non-blank stripped names
    in the directory, up to [max(1, per_type)]. *)
Theorem unfiltered_rows_per_category
    (E : env) (rows : list row) (pick_types : list str) (per_type : Z)
    (w : world) (c : str)
    (Hwanted : pick_types = [] \/ c ∈ List.map _normalize_cat pick_types) :
  rows_of_type c
    (fst (filter_and_enrich E rows pick_types per_type [] false w))
  = Nat.min (Z.to_nat (Z.max 1 per_type))
      (size (names_of (filter (fun r => cat_of r = c) rows))).
Proof.
  rewrite filter_and_enrich_offline. fold (cap per_type).
  apply wanted_cat_pick in Hwanted.
  pose proof (group_rows_spec
                (list_to_set (List.map _normalize_cat pick_types)) rows)
    as (Hnd & Harr & Hkeys & _).
  rewrite groups_unfiltered_count by exact Hnd.
  destruct (list_find _ _) as [[i [k arr]]|] eqn:Hfind.
  - apply list_find_Some in Hfind as (Hi & Hk & _). cbn [fst] in Hk.
    subst k. apply list_elem_of_lookup_2 in Hi. apply Harr in Hi.
    rewrite uniq_loop_length, <- Hi. f_equal. f_equal. set_solver.
  - apply list_find_None in Hfind.
    assert (Hnone : filter (fun r => cat_of r = c) rows = []).
    { apply filter_none. intros r Hr Hc.
      assert (Hin : cat_of r ∈ (group_rows
                (list_to_set (List.map _normalize_cat pick_types)) rows []).*1).
      { apply Hkeys; [exact Hr|]. rewrite Hc. exact Hwanted. }
      apply list_elem_of_fmap in Hin as ([k arr] & Hk & Hin).
      rewrite Forall_forall in Hfind. apply (Hfind _ Hin).
      cbn [fst] in *. congruence. }
    rewrite Hnone. unfold names_of. cbn. 
    replace ((∅ ∖ {[ [] ]}) : gset str) with (∅ : gset str) by set_solver.
    rewrite size_empty. lia.
Qed.

Lemma unfiltered_rows_per_category_witness :
  rows_of_type (U "Fabless")
    (fst (filter_and_enrich env_offline padded_rows [] 3 [] false
            fresh_world))
  = Nat.min (Z.to_nat (Z.max 1 3))
      (size (names_of (filter (fun r => cat_of r = U "Fabless")
                         padded_rows))).
Proof.
  apply (unfiltered_rows_per_category env_offline padded_rows [] 3
           fresh_world (U "Fabless")).
  left. reflexivity.
Defined.

(** *** What a run does to the cache *)

Lemma grows_refl P w : grows P w w.
Proof. split; [reflexivity|]. intros n H. left. exact H. Qed.

Lemma grows_trans P w1 w2 w3 :
  grows P w1 w2 -> grows P w2 w3 -> grows P w1 w3.
Proof.
  intros [H12 N12] [H23 N23]. split; [etransitivity; eassumption|].
  intros n H. destruct (N23 n H) as [H2|HP]; [apply N12, H2|right; exact HP].
Qed.

Lemma grows_same_db P w w' : db w' = db w -> grows P w w'.
Proof.
  intros Hdb. split; rewrite Hdb; [reflexivity|]. intros n H. left. exact H.
Qed.

Section GrowFacts.

Context (E : env) (P : str -> Prop).
Hypothesis store_works : forall n, db_fault E n = false.

Lemma resolver_grows name w :
  P name -> grows P w (snd (get_company_address_from_google E name w)).
Proof.
  intros HP. unfold get_company_address_from_google.
  destruct (truthy name); cbn [negb]; [|apply grows_refl].
  rewrite bind_eq.
  destruct (fst (cache_get E name w)) as [a|] eqn:Hget.
  - apply grows_same_db. rewrite cache_get_eq. reflexivity.
  - rewrite cache_get_eq in Hget. cbn [fst] in Hget.
    rewrite store_works in Hget.
    assert (Habs : db w !! name = None).
    { destruct (db w !! name); [discriminate|reflexivity]. }
    rewrite bind_eq, bind_eq, cache_put_eq. cbn [snd ret].
    match goal with
    | |- context [query_loop E ?qs ?a ?w0] =>
        destruct (query_loop_world E qs a w0) as (sent & -> & _)
    end.
    rewrite cache_get_eq. cbn [snd db db_log]. rewrite store_works.
    split; cbn [db].
    + apply insert_subseteq, Habs.
    + intros n Hn. apply lookup_insert_is_Some in Hn as [<-|[_ Hn]];
        [right; exact HP|left; exact Hn].
Qed.

Lemma resolve_item_grows item b w :
  P (row_name item) ->
  grows P w (snd (_resolve_address_for_item E item b w)).
Proof.
  intros HP. unfold _resolve_address_for_item. rewrite bind_eq.
  destruct b; cbn [negb]; rewrite bind_eq.
  - cbn [snd ret].
    eapply grows_trans; [|apply resolver_grows, HP].
    apply grows_same_db. reflexivity.
  - apply grows_same_db.
    match goal with
    | |- context [if ?c then _ else _] => destruct c
    end; cbn [snd ret]; rewrite cache_get_eq; reflexivity.
Qed.

Lemma resolve_each_grows b to_resolve : forall results_map w,
  Forall (fun r => P (row_name r)) to_resolve ->
  grows P w (snd (resolve_each E b to_resolve results_map w)).
Proof.
  induction to_resolve as [|r rest IH]; intros results_map w Hall;
    [apply grows_refl|].
  rewrite resolve_each_cons. apply Forall_cons in Hall as [Hr Hall].
  eapply grows_trans; [apply resolve_item_grows, Hr|]. apply IH, Hall.
Qed.

Lemma process_group_grows regions_set need only per_type t arr w :
  Forall (fun r => P (row_name r)) arr ->
  grows P w (snd (process_group E regions_set need only per_type t arr w)).
Proof.
  intros Hall. rewrite process_group_eq. cbv zeta. cbn [snd].
  eapply grows_trans.
  - apply grows_same_db. apply split_cached_quiet.
  - apply resolve_each_grows. apply Forall_forall. intros r Hr.
    rewrite Forall_forall in Hall. apply Hall.
    eapply elem_of_sublist; [|apply (uniq_loop_sublist arr ∅)].
    eapply elem_of_sublist; [exact Hr|].
    apply split_cached_to_resolve_sublist.
Qed.

Lemma groups_loop_grows regions_set need only per_type grouped : forall w,
  Forall (fun g => Forall (fun r => P (row_name r)) g.2) grouped ->
  grows P w (snd (groups_loop E regions_set need only per_type grouped w)).
Proof.
  induction grouped as [|[t arr] grouped IH]; intros w Hall;
    [apply grows_refl|].
  apply Forall_cons in Hall as [Harr Hall]. rewrite groups_loop_cons.
  cbn [snd].
  eapply grows_trans; [apply process_group_grows, Harr|]. apply IH, Hall.
Qed.

End GrowFacts.

(** X15.  With a store that works, a run never removes or changes a row of
    the cache: every entry present before is present, unchanged, after;
    and every entry it adds is for the name of a row of the directory. *)
Theorem cache_only_grows
    (E : env) (rows : list row) (pick_types filter_regions : list str)
    (per_type : Z) (only : bool) (w : world)
    (Hstore : forall n, db_fault E n = false) :
  let w' :=
    snd (filter_and_enrich E rows pick_types per_type filter_regions only w)
  in
  db w ⊆ db w'
  /\ forall n, is_Some (db w' !! n) ->
       is_Some (db w !! n) \/ exists r, r ∈ rows /\ row_name r = n.
Proof.
  cbv zeta. rewrite filter_and_enrich_eq.
  apply (groups_loop_grows E (fun n => exists r, r ∈ rows /\ row_name r = n)
           Hstore).
  pose proof (group_rows_spec
                (list_to_set (List.map _normalize_cat pick_types)) rows)
    as (_ & Harr & _ & _).
  apply Forall_forall. intros [t arr] Hg. cbn [snd].
  apply Harr in Hg. apply Forall_forall. intros r Hr. exists r.
  split; [|reflexivity]. rewrite Hg in Hr.
  apply list_elem_of_filter in Hr as [_ Hr]. exact Hr.
Qed.

Lemma cache_only_grows_witness :
  let w' :=
    snd (filter_and_enrich env_offline twice_listed_rows [] 5 [OVERSEAS]
           false world_foreign_address)
  in
  db world_foreign_address ⊆ db w'
  /\ forall n, is_Some (db w' !! n) ->
       is_Some (db world_foreign_address !! n)
       \/ exists r, r ∈ twice_listed_rows /\ row_name r = n.
Proof.
  apply (cache_only_grows env_offline twice_listed_rows [] [OVERSEAS] 5
           false world_foreign_address).
  intros n. reflexivity.
Defined.

(** *** The order of the report *)

Lemma omap_total_keys {X Y K : Type} (f : X -> option Y)
    (ky : Y -> K) (kx : X -> K) (l : list X) :
  (forall x, exists y, f x = Some y /\ ky y = kx x) ->
  ky <$> omap f l = kx <$> l.
Proof.
  intros Hf. induction l as [|x l IH]; [reflexivity|].
  change (omap f (x :: l))
    with (match f x with Some y => y :: omap f l | None => omap f l end).
  destruct (Hf x) as (y & -> & Hk). rewrite !fmap_cons, Hk, IH. reflexivity.
Qed.

Lemma enrich_one_unfiltered_name t r tr :
  exists o, enrich_one ∅ false t r tr = Some o /\ rep_name o = row_name r.
Proof.
  destruct (enrich_one_unfiltered t r tr) as [o Ho]. exists o.
  split; [exact Ho|]. apply enrich_one_fields in Ho as (_ & Hn & _).
  exact Hn.
Qed.

Section OrderFacts.

Context (E : env).
Hypothesis store_works : forall n, db_fault E n = false.

(** With a working store and no lookup wanted, [prebuilt] is made of the
    rows the cache knows and [to_resolve] of the others, in order. *)
Lemma split_cached_offline_partition uniq : forall w0 w,
  db w0 = db w ->
  (fst (split_cached E false uniq w0)).1.*1 = filter (known w) uniq
  /\ (fst (split_cached E false uniq w0)).2
     = filter (fun r => ~ known w r) uniq.
Proof.
  induction uniq as [|r uniq IH]; intros w0 w Hdb; [split; reflexivity|].
  rewrite split_cached_cons. cbv zeta.
  destruct (IH (snd (cache_get E (row_name r) w0)) w) as [IH1 IH2].
  { rewrite cache_get_eq. exact Hdb. }
  assert (Hget : fst (cache_get E (row_name r) w0)
                 = fst <$> db w !! row_name r).
  { rewrite cache_get_eq. cbn [fst]. rewrite store_works, Hdb. reflexivity. }
  rewrite !filter_cons.
  destruct (decide (known w r)) as [Hk|Hk].
  - destruct Hk as [[addr ts] Hrow]. rewrite Hrow in Hget.
    cbn [fmap option_fmap option_map fst] in Hget. rewrite Hget.
    cbn [negb orb fst snd].
    rewrite decide_False by (intros Hc; apply Hc; exists (addr, ts); exact Hrow).
    rewrite fmap_cons. cbn [fst]. rewrite IH1, IH2. split; reflexivity.
  - assert (Hrow : db w !! row_name r = None).
    { apply eq_None_not_Some. exact Hk. }
    rewrite Hrow in Hget. cbn [fmap option_fmap option_map] in Hget.
    rewrite Hget. cbn [fst snd].
    rewrite decide_True by exact Hk.
    rewrite IH1, IH2. split; reflexivity.
Qed.

Lemma process_group_offline_names per_type t arr w0 w :
  db w0 = db w ->
  rep_name <$> fst (process_group E ∅ false false per_type t arr w0)
  = take (cap per_type)
      (row_name <$> (filter (known w) (uniq_loop arr ∅)
                     ++ filter (fun r => ~ known w r) (uniq_loop arr ∅))).
Proof.
  intros Hdb. rewrite process_group_eq. cbv zeta. cbn [fst].
  fold (cap per_type). rewrite fmap_take. f_equal.
  destruct (split_cached_offline_partition (uniq_loop arr ∅) w0 w Hdb)
    as [H1 H2].
  rewrite !fmap_app. unfold enrich_prebuilt, enrich_resolved.
  rewrite (omap_total_keys _ rep_name (row_name ∘ fst))
    by (intros x; apply enrich_one_unfiltered_name).
  rewrite (omap_total_keys _ rep_name row_name)
    by (intros x; apply enrich_one_unfiltered_name).
  rewrite (list_fmap_compose fst row_name), H1, H2. reflexivity.
Qed.

Lemma groups_loop_offline_block per_type grouped c arr : forall w0 w,
  db w0 = db w ->
  NoDup grouped.*1 ->
  (c, arr) ∈ grouped ->
  rep_name <$> filter (fun o => rep_type o = c)
                 (fst (groups_loop E ∅ false false per_type grouped w0))
  = take (cap per_type)
      (row_name <$> (filter (known w) (uniq_loop arr ∅)
                     ++ filter (fun r => ~ known w r) (uniq_loop arr ∅))).
Proof.
  induction grouped as [|[t a] grouped IH]; intros w0 w Hdb Hnd Hin.
  - inversion Hin.
  - rewrite fmap_cons in Hnd. apply NoDup_cons in Hnd as [Ht Hnd].
    cbn [fst] in Ht. rewrite groups_loop_cons. cbn [fst].
    rewrite filter_app, fmap_app.
    apply elem_of_cons in Hin as [[= <- <-]|Hin].
    + rewrite filter_all
        by (intros o Ho; apply process_group_source in Ho as [Hto _];
            exact Hto).
      rewrite filter_none; [rewrite app_nil_r|].
      * apply process_group_offline_names, Hdb.
      * intros o Ho Hc. apply groups_loop_source in Ho as (arr' & _ & Hg & _).
        apply Ht. rewrite <- Hc.
        apply (list_elem_of_fmap_2 fst) in Hg. exact Hg.
    + rewrite filter_none.
      * cbn [fmap list_fmap app]. apply IH; [|exact Hnd|exact Hin].
        destruct (process_group_offline_quiet E ∅ false per_type t a w0)
          as [Hdb' _].
        rewrite Hdb'. exact Hdb.
      * intros o Ho Hc. apply process_group_source in Ho as [Hto _].
        apply Ht. rewrite <- Hto, Hc.
        apply (list_elem_of_fmap_2 fst) in Hin. exact Hin.
Qed.

End OrderFacts.

(** X16.  Without region or branch filter and with a store that works, the
    rows of a wanted category come in this order: first the companies the
    cache has an entry for, then the others, each part in the order of the
    directory (first occurrences only), the whole cut at
    [max(1, per_type)]. *)
Theorem report_order_cached_first
    (E : env) (rows : list row) (pick_types : list str) (per_type : Z)
    (w : world) (c : str)
    (Hstore : forall n, db_fault E n = false)
    (Hwanted : pick_types = [] \/ c ∈ List.map _normalize_cat pick_types) :
  let uniq := uniq_loop (filter (fun r => cat_of r = c) rows) ∅ in
  rep_name <$> filter (fun o => rep_type o = c)
                 (fst (filter_and_enrich E rows pick_types per_type [] false
                         w))
  = take (Z.to_nat (Z.max 1 per_type))
      (row_name <$> (filter (known w) uniq
                     ++ filter (fun r => ~ known w r) uniq)).
Proof.
  cbv zeta. rewrite filter_and_enrich_offline. fold (cap per_type).
  apply wanted_cat_pick in Hwanted.
  pose proof (group_rows_spec
                (list_to_set (List.map _normalize_cat pick_types)) rows)
    as (Hnd & Harr & Hkeys & _).
  destruct (decide (c ∈ (group_rows
              (list_to_set (List.map _normalize_cat pick_types)) rows []).*1))
    as [Hin|Hnin].
  - apply list_elem_of_fmap in Hin as ([k arr] & -> & Hin). cbn [fst].
    rewrite <- (Harr _ _ Hin).
    apply (groups_loop_offline_block E Hstore per_type _ k arr w w
             eq_refl Hnd Hin).
  - assert (Hnone : filter (fun r => cat_of r = c) rows = []).
    { apply filter_none. intros r Hr Hc. apply Hnin. rewrite <- Hc.
      apply Hkeys; [exact Hr|]. rewrite Hc. exact Hwanted. }
    rewrite Hnone. cbn [uniq_loop]. rewrite !filter_nil. cbn [app].
    rewrite fmap_nil, take_nil. rewrite filter_none; [reflexivity|].
    intros o Ho Hc. apply groups_loop_source in Ho as (arr' & _ & Hg & _).
    apply Hnin. rewrite <- Hc.
    apply (list_elem_of_fmap_2 fst) in Hg. exact Hg.
Qed.

Lemma report_order_cached_first_witness :
  let uniq :=
    uniq_loop (filter (fun r => cat_of r = U "Fabless") rows_with_blank) ∅ in
  rep_name <$> filter (fun o => rep_type o = U "Fabless")
                 (fst (filter_and_enrich env_offline rows_with_blank [] 5 []
                         false world_cached_miss))
  = take (Z.to_nat (Z.max 1 5))
      (row_name <$> (filter (known world_cached_miss) uniq
                     ++ filter (fun r => ~ known world_cached_miss r) uniq)).
Proof.
  apply (report_order_cached_first env_offline rows_with_blank [] 5
           world_cached_miss (U "Fabless")).
  - intros n. reflexivity.
  - left. reflexivity.
Defined.

(** ** The directory fetcher *)

Lemma clean_last_app (a b : str) :
  b <> [] -> clean_last b -> clean_last (a ++ b).
Proof.
  unfold clean_last. rewrite rev_app_distr. intros Hb H.
  destruct (rev b) as [|c rb] eqn:Hr; [|exact H].
  exfalso. apply Hb. apply (f_equal (@rev N)) in Hr.
  rewrite rev_involutive in Hr. exact Hr.
Qed.

Lemma get_text_strip_clean fragments :
  clean_head (get_text_strip fragments)
  /\ clean_last (get_text_strip fragments).
Proof.
  induction fragments as [|s rest [IHh IHl]]; [split; exact I|].
  cbn [get_text_strip]. destruct (truthy (strip s)) eqn:Hs;
    [|split; assumption].
  destruct (strip_clean s) as [Hh Hl]. split.
  - destruct (strip s); [discriminate|exact Hh].
  - destruct (get_text_strip rest) as [|c t] eqn:Ht.
    + rewrite app_nil_r. exact Hl.
    + apply clean_last_app; [discriminate|exact IHl].
Qed.

Lemma get_text_strip_fixed fragments :
  strip (get_text_strip fragments) = get_text_strip fragments.
Proof. apply strip_fixed; apply get_text_strip_clean. Qed.

Lemma row_of_tr_normalised tr r :
  row_of_tr tr = Some r ->
  _normalize_cat (row_type r) = row_type r
  /\ strip (row_name r) = row_name r
  /\ strip (row_url r) = row_url r.
Proof.
  unfold row_of_tr. destruct (tr_cells tr) as [|td0 [|td1 tds]];
    try discriminate.
  intros [= <-]. cbn [row_type row_name row_url].
  split; [apply normalize_cat_fixed|].
  split; [apply get_text_strip_fixed|].
  destruct (tr_anchor tr) as [[href|]|]; try reflexivity.
  destruct (truthy href); [apply strip_idempotent|reflexivity].
Qed.

Lemma omap_length_filter {X Y : Type} (f : X -> option Y) (l : list X) :
  length (omap f l) = length (filter (fun x => is_Some (f x)) l).
Proof.
  induction l as [|x l IH]; [reflexivity|].
  change (omap f (x :: l))
    with (match f x with Some y => y :: omap f l | None => omap f l end).
  rewrite filter_cons. destruct (f x) as [y|] eqn:Hf.
  - rewrite decide_True by eauto. cbn [length]. rewrite IH. reflexivity.
  - rewrite decide_False by (intros [y Hy]; discriminate). exact IH.
Qed.

(** X17.  The fetcher delivers clean rows or nothing: it returns rows only
    when the page was received with a status outside 400..599, as many rows
    as the tables have [tr] with at least two cells; and in every row the type
    is already normalised and the name and the url have no surrounding
    white space, so the pipeline groups and de-duplicates the rows on
    these very fields. *)
Theorem fetched_rows_normalised
    (Srv : site_env) (rows : list row)
    (Hfetch : fetch_theise_table Srv = Returned rows) :
  (exists status_code text,
     theise_page Srv = Response status_code text
     /\ ~ (400 <= status_code < 600)%Z
     /\ length rows
        = length (filter (fun tr => (2 <= length (tr_cells tr))%nat)
                    (concat (soup_tables Srv text))))
  /\ Forall (fun r => cat_of r = row_type r /\ trimmed r = row_name r
                      /\ strip (row_url r) = row_url r) rows.
Proof.
  unfold fetch_theise_table in Hfetch.
  destruct (theise_page Srv) as [|status text]; [discriminate|].
  destruct ((400 <=? status)%Z && (status <? 600)%Z) eqn:Hst;
    [discriminate|].
  injection Hfetch as <-. split.
  - exists status, text. split; [reflexivity|]. split.
    + apply andb_false_iff in Hst as [H|H];
        [apply Z.leb_gt in H|apply Z.ltb_ge in H]; lia.
    + rewrite omap_length_filter. f_equal.
      apply list_filter_iff. intros tr. unfold row_of_tr.
      destruct (tr_cells tr) as [|td0 [|td1 tds]]; cbn [length]; split;
        try (intros [y Hy]; discriminate); try lia; eauto.
  - apply Forall_forall. intros r Hr.
    apply list_elem_of_omap in Hr as (tr & _ & Htr).
    exact (row_of_tr_normalised tr r Htr).
Qed.

Lemma fetched_rows_normalised_witness :
  (exists status_code text,
     theise_page srv_sample = Response status_code text
     /\ ~ (400 <= status_code < 600)%Z
     /\ length [Row (U "Fabless") (U "AcmeLtd") (U "https://acme.example");
                Row (U "SW") (U "서울 Korea") []]
        = length (filter (fun tr => (2 <= length (tr_cells tr))%nat)
                    (concat (soup_tables srv_sample text))))
  /\ Forall (fun r => cat_of r = row_type r /\ trimmed r = row_name r
                      /\ strip (row_url r) = row_url r)
       [Row (U "Fabless") (U "AcmeLtd") (U "https://acme.example");
        Row (U "SW") (U "서울 Korea") []].
Proof.
  apply (fetched_rows_normalised srv_sample).
  vm_compute. reflexivity.
Defined.

(** ** The routes *)

Lemma fetch_raises_iff (Srv : site_env) :
  fetch_theise_table Srv = Raised <-> directory_down Srv.
Proof.
  unfold fetch_theise_table, directory_down.
  destruct (theise_page Srv) as [|status text]; [tauto|].
  destruct ((400 <=? status)%Z && (status <? 600)%Z) eqn:Hst.
  - apply andb_true_iff in Hst as [H1 H2].
    apply Z.leb_le in H1. apply Z.ltb_lt in H2. split; [lia|reflexivity].
  - split; [discriminate|]. intros [H1 H2].
    apply andb_false_iff in Hst as [H|H];
      [apply Z.leb_gt in H|apply Z.ltb_ge in H]; lia.
Qed.

Lemma fetch_rows_clean (Srv : site_env) (table : list row) :
  fetch_theise_table Srv = Returned table ->
  forall r, r ∈ table ->
    cat_of r = row_type r /\ trimmed r = row_name r
    /\ strip (row_url r) = row_url r.
Proof.
  unfold fetch_theise_table.
  destruct (theise_page Srv) as [|status text]; [discriminate|].
  destruct ((400 <=? status)%Z && (status <? 600)%Z); [discriminate|].
  intros [= <-] r Hr.
  apply list_elem_of_omap in Hr as (tr & _ & Htr).
  exact (row_of_tr_normalised tr r Htr).
Qed.

Lemma mails_for_log (Srv : site_env) (f : form) (subject body : str)
    (s : site) :
  mail_log
    (match form_recipient_email f with
     | Some to_email =>
         if truthy to_email
         then snd (send_email Srv to_email subject body s)
         else s
     | None => s
     end)
  = mail_log s ++ mails_for f subject body.
Proof.
  unfold mails_for. destruct (form_recipient_email f) as [to_email|];
    [destruct (truthy to_email)|]; cbn [send_email snd mail_log];
    rewrite ?app_nil_r; reflexivity.
Qed.

(** X18.  When the directory page cannot be had, the search answers with
    the main page and the error text; it stores no job, draws no
    identifier, leaves the cache as it was (no address is looked up), and
    calls [send_email] once, with the failure subject, exactly when the form
    names a recipient. *)
Theorem search_directory_down
    (E : env) (Srv : site_env) (f : form) (s : site) (per_cat : Z)
    (Hint : form_per_cat Srv f = Returned per_cat)
    (Hdown : directory_down Srv) :
  exists s',
    company_search E Srv f s
    = Returned (RenderMain (Some (U "조회 실패: " ++ fetch_error Srv)), s')
    /\ cache s' = cache s
    /\ RESULTS s' = RESULTS s
    /\ ids_drawn s' = ids_drawn s
    /\ mail_log s'
       = mail_log s
         ++ mails_for f (U "🔎 기업정보 검색 결과 - 실패")
              (U "조회 실패: " ++ fetch_error Srv).
Proof.
  apply fetch_raises_iff in Hdown.
  unfold company_search. rewrite Hint, Hdown.
  eexists. split; [reflexivity|].
  split; [|split; [|split; [|apply mails_for_log]]];
    destruct (form_recipient_email f) as [to_email|];
    try destruct (truthy to_email); reflexivity.
Qed.

Lemma search_directory_down_witness :
  exists s',
    company_search env_offline srv_down sample_form fresh_site
    = Returned (RenderMain (Some (U "조회 실패: " ++ fetch_error srv_down)), s')
    /\ cache s' = cache fresh_site
    /\ RESULTS s' = RESULTS fresh_site
    /\ ids_drawn s' = ids_drawn fresh_site
    /\ mail_log s'
       = mail_log fresh_site
         ++ mails_for sample_form (U "🔎 기업정보 검색 결과 - 실패")
              (U "조회 실패: " ++ fetch_error srv_down).
Proof.
  apply (search_directory_down env_offline srv_down sample_form fresh_site 5).
  - reflexivity.
  - unfold directory_down. cbn. lia.
Defined.

(** X19.  A search that gets the directory page answers with a redirect to
    a freshly drawn identifier, and the result page of that identifier
    shows the report of [filter_and_enrich] on the fetched table for the
    filters of the form: every row shown has the type, the name and the
    link of a row of the directory page, the echoed filters are never
    empty lists, the mail (if the form names a recipient) reports the very
    rows shown, and the result pages of all other identifiers are what
    they were. *)
Theorem search_then_result_page
    (E : env) (Srv : site_env) (f : form) (s : site) (per_cat : Z)
    (table : list row)
    (Hint : form_per_cat Srv f = Returned per_cat)
    (Hfetch : fetch_theise_table Srv = Returned table) :
  exists s' p,
    company_search E Srv f s
    = Returned (Redirect (uuid4_hex Srv (ids_drawn s)), s')
    /\ result_page (uuid4_hex Srv (ids_drawn s)) s' = RenderResults p
    /\ shown_rows p
       = fst (filter_and_enrich E table (form_categories f) per_cat
                (form_regions f)
                (bool_decide (form_only_foreign_branch f = Some (U "Y")))
                (cache s))
    /\ (forall o, o ∈ shown_rows p ->
          exists r, r ∈ table /\ rep_type o = row_type r
                    /\ rep_name o = row_name r /\ rep_url o = row_url r)
    /\ shown_categories p <> [] /\ shown_regions p <> []
    /\ mail_log s'
       = mail_log s
         ++ mails_for f (U "🔎 기업정보 검색 결과") (mail_body_of (shown_rows p))
    /\ ids_drawn s' = S (ids_drawn s)
    /\ (forall j', j' <> uuid4_hex Srv (ids_drawn s) ->
          result_page j' s' = result_page j' s).
Proof.
  unfold company_search. rewrite Hint, Hfetch.
  destruct (filter_and_enrich E table (form_categories f) per_cat
              (form_regions f)
              (bool_decide (form_only_foreign_branch f = Some (U "Y")))
              (cache s)) as [rows cache1] eqn:Hrun.
  cbn [fst].
  set (s0 := Site cache1 (RESULTS s) (mail_log s) (outbox s)
               (ids_drawn s)).
  set (s1 := match form_recipient_email f with
             | Some to_email =>
                 if truthy to_email
                 then snd (send_email Srv to_email (U "🔎 기업정보 검색 결과")
                             (mail_body_of rows) s0)
                 else s0
             | None => s0
             end).
  assert (Hids : ids_drawn s1 = ids_drawn s).
  { unfold s1. destruct (form_recipient_email f) as [to_email|];
      [destruct (truthy to_email)|]; reflexivity. }
  assert (Hres : RESULTS s1 = RESULTS s).
  { unfold s1. destruct (form_recipient_email f) as [to_email|];
      [destruct (truthy to_email)|]; reflexivity. }
  assert (Hlog : mail_log s1
                 = mail_log s
                   ++ mails_for f (U "🔎 기업정보 검색 결과") (mail_body_of rows)).
  { unfold s1. rewrite mails_for_log. reflexivity. }
  rewrite Hids, Hres.
  eexists. eexists. split; [reflexivity|].
  unfold result_page. cbn [RESULTS]. rewrite lookup_insert_eq.
  split; [reflexivity|]. cbn [shown_rows shown_categories shown_regions
                              mail_log ids_drawn].
  split; [reflexivity|]. split; [|split; [|split; [|split; [|split]]]].
  - intros o Ho.
    assert (Ho' : o ∈ fst (filter_and_enrich E table (form_categories f)
                             per_cat (form_regions f)
                             (bool_decide
                                (form_only_foreign_branch f = Some (U "Y")))
                             (cache s))) by (rewrite Hrun; exact Ho).
    rewrite filter_and_enrich_eq in Ho'.
    apply groups_loop_source in Ho' as (arr & r & Hg & Hr & Hn & Hu).
    pose proof (group_rows_spec
                  (list_to_set (List.map _normalize_cat (form_categories f)))
                  table) as (_ & Harr & _ & _).
    apply Harr in Hg.
    assert (Hin : r ∈ arr).
    { eapply elem_of_sublist; [exact Hr|apply uniq_loop_sublist]. }
    rewrite Hg in Hin. apply list_elem_of_filter in Hin as [Hc Hin].
    exists r. split; [exact Hin|].
    destruct (fetch_rows_clean Srv table Hfetch r Hin) as (Hcat & _ & _).
    split; [congruence|]. split; assumption.
  - destruct (form_categories f); discriminate.
  - destruct (form_regions f); discriminate.
  - exact Hlog.
  - reflexivity.
  - intros j' Hj. rewrite lookup_insert_ne by congruence. reflexivity.
Qed.

Lemma search_then_result_page_witness :
  exists s' p,
    company_search env_offline srv_sample sample_form fresh_site
    = Returned (Redirect (uuid4_hex srv_sample (ids_drawn fresh_site)), s')
    /\ result_page (uuid4_hex srv_sample (ids_drawn fresh_site)) s'
       = RenderResults p
    /\ shown_rows p
       = fst (filter_and_enrich env_offline sample_table
                (form_categories sample_form) 5 (form_regions sample_form)
                (bool_decide
                   (form_only_foreign_branch sample_form = Some (U "Y")))
                (cache fresh_site))
    /\ (forall o, o ∈ shown_rows p ->
          exists r, r ∈ sample_table /\ rep_type o = row_type r
                    /\ rep_name o = row_name r /\ rep_url o = row_url r)
    /\ shown_categories p <> [] /\ shown_regions p <> []
    /\ mail_log s'
       = mail_log fresh_site
         ++ mails_for sample_form (U "🔎 기업정보 검색 결과")
              (mail_body_of (shown_rows p))
    /\ ids_drawn s' = S (ids_drawn fresh_site)
    /\ (forall j', j' <> uuid4_hex srv_sample (ids_drawn fresh_site) ->
          result_page j' s' = result_page j' fresh_site).
Proof.
  apply (search_then_result_page env_offline srv_sample sample_form
           fresh_site 5 sample_table).
  - reflexivity.
  - vm_compute. reflexivity.
Defined.




(** [False] does not mean that nothing was sent: when only [server.quit()]
    fails, the message is with the server and [send_email] returns
    [False]. *)
Example send_email_false_though_sent :
  let sent :=
    send_email (with_smtp srv_sample quit_raises) (U "me@example.org")
      (U "subject") (U "body") fresh_site in
  fst sent = false
  /\ outbox (snd sent)
     = [Mail (U "me@example.org") (U "subject") (U "body")].
Proof. vm_compute. split; reflexivity. Qed.
